(** * simplelru: a fixed-size LRU cache with per-entry expiry

    A shallow embedding of the two iterations of the engine found in the
    repository (package [simplelru]):

    - [P1]: src/unnamed/part_001, the engine that implements the
      [LRUCache] interface of src/simplelru/lru_interface.go
      ([AddWithExp], [KeyHasExpired], [ExpiryForKey], [ChangeExpiry],
      [MoveItem], [getOldest]);
    - [P2]: src/unnamed/part_002, the engine with the [expiryBasedEvict]
      flag.

    Conventions of the embedding.
    - A Go [int] is a [Z]; the one subtraction the engine performs on ints
      ([Resize]) is wrapped to 64 bits.
    - A [time.Time] is a [Z] (an instant on a line), the zero [time.Time]
      is [0], [t.Add(d)] is [t + d]; a [time.Duration] is a [Z].
    - [time.Now()] is an effect: it reads the next value of a clock
      [clock : nat -> Z]; the number of readings made so far is part of
      the world. Nothing is assumed of the clock.
    - The eviction callback is a caller-supplied function acting on the
      caller's own state [E]; [None] is the nil callback.
    - A method with a pointer receiver takes the cache and the world and
      returns its results together with the new cache and world. A Go
      result [(value, ok)] is a pair, with the zero value of the type where
      Go returns it.
    - Go leaves the order of [range] over a map open; a loop over a map
      takes a seed that chooses the order, and every order is the order of
      some seed.
    - [*entry] is a handle into the arena of nodes of the list; the map
      [items] and the list share the node through the handle.
    - The list type [lruList] is not among the sources; it is modelled from
      the description of the recency list in the spec. *)

From stdpp Require Import gmap list.
From Stdlib Require Import ZArith Lia.

Local Open Scope Z_scope.

(** ** Zero values, time, integers *)

(** The zero value of a Go type ([var x T]). *)
Class Zero (A : Type) := zero : A.
Global Hint Mode Zero ! : typeclass_instances.

#[global] Instance Zero_Z : Zero Z := 0.

(** [t.IsZero()] *)
Definition IsZero (t : Z) : bool := t =? 0.

(** [t.Before(u)] *)
Definition Before (t u : Z) : bool := t <? u.

(** Two's complement wrap-around of a 64-bit [int]. *)
Definition wrap64 (z : Z) : Z := (z + 2 ^ 63) mod 2 ^ 64 - 2 ^ 63.

Definition int64 (z : Z) : Prop := - 2 ^ 63 <= z < 2 ^ 63.

(** ** The world outside the cache: the clock and the callback's state *)

Record World (E : Type) := mkWorld {
  tick : nat;   (* readings of the clock made so far *)
  env : E       (* the state the eviction callback acts on *)
}.
Arguments mkWorld {E} _ _.
Arguments tick {E} _.
Arguments env {E} _.

(** [time.Now()] *)
Definition timeNow {E} (clock : nat → Z) (w : World E) : Z * World E :=
  (clock (tick w), mkWorld (S (tick w)) (env w)).

(** [if c.onEvict != nil { c.onEvict(k, v) }] *)
Definition fire {K V E} (cb : option (K → V → E → E)) (k : K) (v : V)
    (w : World E) : World E :=
  match cb with
  | Some f => mkWorld (tick w) (f k v (env w))
  | None => w
  end.

(** What the callback does to its state: [notify cb k v x] is the state
    after the call [cb(k, v)] from the state [x]. *)
Definition notify {K V E} (cb : option (K → V → E → E)) (k : K) (v : V)
    (x : E) : E :=
  match cb with
  | Some f => f k v x
  | None => x
  end.

(** ** The order of [range] over a map

    Go leaves open the order in which [range] visits the pairs of a map,
    and the order may differ from one loop to the next. It is chosen here
    by a seed, a list of numbers: each number picks, modulo how many are
    left, one of the pairs not yet visited, and a seed that has run out
    picks the first. Every seed visits every pair once, and every order of
    the pairs is the order of some seed. *)
Fixpoint pickOrder {A} (seed : list nat) (n : nat) (l : list A) : list A :=
  match n with
  | O => []
  | S n' =>
      let i := Nat.modulo (hd 0%nat seed) (length l) in
      match l !! i with
      | Some x => x :: pickOrder (tl seed) n' (delete i l)
      | None => []
      end
  end.

Definition rangeOrder {A} (seed : list nat) (l : list A) : list A :=
  pickOrder seed (length l) l.

(** ** The recency list *)

(** A handle on a node of the list (a [*entry]). *)
Abbreviation ref := nat.

Record entry (K V : Type) := mkEntry { key : K; value : V }.
Arguments mkEntry {K V} _ _.
Arguments key {K V} _.
Arguments value {K V} _.

(** Modelled from the spec: the list type [lruList] and its node type
    [entry] (4.1 RecencyList: pushFront, moveToFront, remove, back, length,
    clear; "front = most recently touched, back = least recently touched";
    a node holds an entry plus prev/next links). The nodes ever allocated
    live in the arena [cells], a handle is an index into it, and [order]
    lists the linked nodes from front to back. *)
Record lruList (K V : Type) := mkList {
  cells : list (entry K V);
  order : list ref
}.
Arguments mkList {K V} _ _.
Arguments cells {K V} _.
Arguments order {K V} _.

Section RecencyList.
Context {K V : Type} `{!Zero K, !Zero V}.
Implicit Types (l : lruList K V) (e : ref).

(** Modelled from the spec: [newList()], the empty list. *)
Definition newList : lruList K V := mkList [] [].

(** Modelled from the spec: [l.init()], clear: every node is unlinked. *)
Definition init l : lruList K V := mkList (cells l) [].

(** Reading the fields of the node behind a handle ([e.key], [e.value]). *)
Definition deref l e : entry K V := default (mkEntry zero zero) (cells l !! e).

(** Modelled from the spec: [l.pushFront(k, v)] allocates a node and links
    it at the front. *)
Definition pushFront (k : K) (v : V) l : ref * lruList K V :=
  let e := length (cells l) in
  (e, mkList (cells l ++ [mkEntry k v]) (e :: order l)).

(** Modelled from the spec: [l.remove(e)] unlinks the node. *)
Definition remove e l : lruList K V :=
  mkList (cells l) (filter (λ x, x ≠ e) (order l)).

(** Modelled from the spec: [l.moveToFront(e)]; a node that is not linked
    leaves the list as it is. *)
Definition moveToFront e l : lruList K V :=
  if decide (e ∈ order l)
  then mkList (cells l) (e :: filter (λ x, x ≠ e) (order l))
  else l.

(** Modelled from the spec: [l.back()], the least recently used node. *)
Definition back l : option ref := last (order l).

(** Modelled from the spec: [l.length()]. *)
Definition llen l : Z := Z.of_nat (length (order l)).

(** Modelled from the spec: the nodes in the order in which a loop
    [for ent := l.back(); ent != nil; ent = ent.prevEntry()] (or one that
    saves [ent.prev] before unlinking [ent]) visits them: from the back
    to the front. *)
Definition backToFront l : list ref := reverse (order l).

(** The callback called for each node of [es] in turn. *)
Definition notifyAll {E} (cb : option (K → V → E → E)) l (es : list ref)
    (x : E) : E :=
  foldl (λ x e, notify cb (key (deref l e)) (value (deref l e)) x) x es.

(** [ent.value = v] *)
Definition setValue e (v : V) l : lruList K V :=
  mkList (<[e := mkEntry (key (deref l e)) v]> (cells l)) (order l).
End RecencyList.

(** ** The key index and the list

    The invariant that ties the map [items] to the list: the linked nodes are
    pairwise distinct, every key of the map points to a linked node that
    carries this key, and every linked node is indexed under its key. *)
Section Index.
Context `{Countable K} {V : Type} `{!Zero K, !Zero V}.

Definition linked (l : lruList K V) (m : gmap K ref) : Prop :=
  NoDup (order l)
  ∧ map_Forall (λ k e, e ∈ order l ∧ key <$> cells l !! e = Some k) m
  ∧ Forall (λ e, (cells l !! e) ≫= (λ ent, m !! key ent) = Some e) (order l).

#[global] Instance linked_dec l m : Decision (linked l m).
Proof. unfold linked. apply _. Defined.

(** What an overwrite does to the list [l]: the node [e] comes first, the
    other nodes keep their order, none is dropped, [e] carries the key
    with the new value and the other nodes are as they were. *)
Definition overwrites (k : K) (v : V) (e : ref) (l l' : lruList K V) : Prop :=
  order l' = e :: filter (λ x, x ≠ e) (order l)
  ∧ order l' ≡ₚ order l
  ∧ deref l' e = mkEntry k v
  ∧ ∀ x, x ≠ e → deref l' x = deref l x.

(** What the removal of the node [e] of the key [k] does: the node is
    unlinked, the other nodes keep their order and their contents, and
    the key has no entry in the index [m] and no expiry in [x] any more. *)
Definition unlinks (k : K) (e : ref) (l l' : lruList K V)
    (m m' : gmap K ref) (x x' : gmap K Z) : Prop :=
  order l' = filter (λ y, y ≠ e) (order l)
  ∧ S (length (order l')) = length (order l)
  ∧ cells l' = cells l
  ∧ m' = delete k m
  ∧ x' = delete k x.

(** The keys carried by the nodes [es]. *)
Definition nodeKeys (l : lruList K V) (es : list ref) : list K :=
  (λ e, key (deref l e)) <$> es.

(** The values carried by the nodes [es]. *)
Definition nodeValues (l : lruList K V) (es : list ref) : list V :=
  (λ e, value (deref l e)) <$> es.

(** The map [m] once [delete(m, k)] has been done for each key of [ks]. *)
Definition dropKeys {A} (m : gmap K A) (ks : list K) : gmap K A :=
  filter (λ kv, kv.1 ∉ ks) m.

(** What the removal of the nodes [gone] does: they are unlinked, the
    other nodes keep their order and their contents, and the keys of the
    nodes removed have no entry in the index [m] and no expiry in [x] any
    more. *)
Definition evicts (gone : list ref) (l l' : lruList K V)
    (m m' : gmap K ref) (x x' : gmap K Z) : Prop :=
  NoDup gone
  ∧ (∀ e, e ∈ gone → e ∈ order l)
  ∧ order l' = filter (λ e, e ∉ gone) (order l)
  ∧ (length (order l') + length gone = length (order l))%nat
  ∧ cells l' = cells l
  ∧ m' = dropKeys m (nodeKeys l gone)
  ∧ x' = dropKeys x (nodeKeys l gone).

(** A recorded expiry [x] has elapsed at the instant [now]. *)
Definition elapsed (exps : gmap K Z) (now : Z) (k : K) : bool :=
  match exps !! k with
  | Some x => Before x now
  | None => false
  end.

(** The expiries [x] follow the index [m] of a cache whose default TTL is
    [ttl]: with a positive TTL the keys with an expiry are the keys of the
    index, without one no expiry is recorded. *)
Definition tracks (ttl : Z) (m : gmap K ref) (x : gmap K Z) : Prop :=
  if 0 <? ttl then ∀ k, is_Some (x !! k) ↔ is_Some (m !! k) else x = ∅.

(** An expiry recorded for [k] has elapsed at a reading of the clock made
    from the reading [t0] on. *)
Definition lapsed (clock : nat → Z) (t0 : nat) (exps : gmap K Z) (k : K) : Prop :=
  ∃ x t, exps !! k = Some x ∧ (t0 ≤ t)%nat ∧ x < clock t.

(** No expiry is recorded for [k], or it has not elapsed at a reading of
    the clock made from the reading [t0] on. *)
Definition alive (clock : nat → Z) (t0 : nat) (exps : gmap K Z) (k : K) : Prop :=
  ∀ x, exps !! k = Some x → ∃ t, (t0 ≤ t)%nat ∧ clock t ≤ x.
End Index.

(** ** src/unnamed/part_002: the engine with the [expiryBasedEvict] flag *)

Module P2.
Section Engine.
Context `{Countable K} {V E : Type} `{!Zero K, !Zero V}.
Variable clock : nat → Z.

Record LRU := mkLRU {
  size : Z;
  evictList : lruList K V;
  items : gmap K ref;
  onEvict : option (K → V → E → E);
  itemTTL : Z;
  itemExpiries : gmap K Z;
  expiryBasedEvict : bool
}.

Implicit Types (c : LRU) (w : World E).

Definition withList c (l : lruList K V) : LRU :=
  mkLRU (size c) l (items c) (onEvict c) (itemTTL c) (itemExpiries c)
        (expiryBasedEvict c).

Definition withSize c (n : Z) : LRU :=
  mkLRU n (evictList c) (items c) (onEvict c) (itemTTL c) (itemExpiries c)
        (expiryBasedEvict c).

(** [NewLRUWithEvictTTL]: [None] is the error
    "must provide a positive size". *)
Definition NewLRUWithEvictTTL (size : Z) (onEvict : option (K → V → E → E))
    (itemTTL : Z) (expiryBasedEvict : bool) : option LRU :=
  if size <=? 0 then None
  else Some (mkLRU size newList ∅ onEvict itemTTL ∅ expiryBasedEvict).

Definition NewLRU (size : Z) (onEvict : option (K → V → E → E)) : option LRU :=
  NewLRUWithEvictTTL size onEvict 0 false.

(** [keyHasExpired]: [ok && expiry.Before(time.Now())]; the clock is read
    only when an expiry is recorded. *)
Definition keyHasExpired (k : K) c w : bool * World E :=
  match itemExpiries c !! k with
  | Some expiry => let '(now, w1) := timeNow clock w in (Before expiry now, w1)
  | None => (false, w)
  end.

(** [removeElement] *)
Definition removeElement (e : ref) c w : LRU * World E :=
  let l := remove e (evictList c) in
  let ent := deref (evictList c) e in
  (mkLRU (size c) l (delete (key ent) (items c)) (onEvict c) (itemTTL c)
         (delete (key ent) (itemExpiries c)) (expiryBasedEvict c),
   fire (onEvict c) (key ent) (value ent) w).

(** The loop of [findExpired] over the nodes still to visit. *)
Fixpoint findExpiredFrom (es : list ref) c w : option ref * World E :=
  match es with
  | [] => (None, w)
  | e :: es' =>
      let '(expired, w1) := keyHasExpired (key (deref (evictList c) e)) c w in
      if expired then (Some e, w1) else findExpiredFrom es' c w1
  end.

(** [findExpired]: the first expired entry from the back. *)
Definition findExpired c w : option ref * World E :=
  findExpiredFrom (backToFront (evictList c)) c w.

(** [removeOldest] *)
Definition removeOldest c w : LRU * World E :=
  let '(found, w1) :=
    if expiryBasedEvict c then findExpired c w else (None, w) in
  match found with
  | Some ent => removeElement ent c w1
  | None =>
      match back (evictList c) with
      | Some ent => removeElement ent c w1
      | None => (c, w1)
      end
  end.

(** [Add] *)
Definition Add (k : K) (v : V) c w : bool * LRU * World E :=
  match items c !! k with
  | Some ent =>
      let l1 := moveToFront ent (evictList c) in
      let w1 := fire (onEvict c) k (value (deref l1 ent)) w in
      (false, withList c (setValue ent v l1), w1)
  | None =>
      let '(ent, l1) := pushFront k v (evictList c) in
      let '(exps, w1) :=
        if 0 <? itemTTL c
        then let '(now, w') := timeNow clock w in
             (<[k := now + itemTTL c]> (itemExpiries c), w')
        else (itemExpiries c, w) in
      let c1 := mkLRU (size c) l1 (<[k := ent]> (items c)) (onEvict c)
                      (itemTTL c) exps (expiryBasedEvict c) in
      let evict := size c <? llen l1 in
      if evict
      then let '(c2, w2) := removeOldest c1 w1 in (true, c2, w2)
      else (false, c1, w1)
  end.

(** [Get] *)
Definition Get (k : K) c w : (V * bool) * LRU * World E :=
  match items c !! k with
  | Some ent =>
      let '(expired, w1) := keyHasExpired k c w in
      if negb expired
      then let l1 := moveToFront ent (evictList c) in
           ((value (deref l1 ent), true), withList c l1, w1)
      else ((zero, false), c, w1)
  | None => ((zero, false), c, w)
  end.

(** [Contains]: the lookup assigns the named result [ok], which the bare
    [return] hands back. *)
Definition Contains (k : K) c w : bool * LRU * World E :=
  let ok := bool_decide (is_Some (items c !! k)) in
  if ok
  then let '(expired, w1) := keyHasExpired k c w in
       if negb expired then (true, c, w1) else (ok, c, w1)
  else (ok, c, w).

(** [Peek]: as in [Contains] the lookup assigns the named result [ok]. *)
Definition Peek (k : K) c w : (V * bool) * LRU * World E :=
  match items c !! k with
  | Some ent =>
      let ok := true in
      let '(expired, w1) := keyHasExpired k c w in
      if negb expired
      then ((value (deref (evictList c) ent), true), c, w1)
      else ((zero, ok), c, w1)
  | None => ((zero, false), c, w)
  end.

(** [Remove] *)
Definition Remove (k : K) c w : bool * LRU * World E :=
  match items c !! k with
  | Some ent =>
      let '(expired, w1) := keyHasExpired k c w in
      if negb expired
      then let '(c2, w2) := removeElement ent c w1 in (true, c2, w2)
      else let '(c2, w2) := removeElement ent c w1 in (false, c2, w2)
  | None => (false, c, w)
  end.

(** [RemoveOldest]: the expiry test is made on the named result [key],
    which still holds the zero value of [K]. *)
Definition RemoveOldest c w : (K * V * bool) * LRU * World E :=
  match back (evictList c) with
  | Some ent =>
      let '(expired, w1) := keyHasExpired zero c w in
      if negb expired
      then let '(c2, w2) := removeElement ent c w1 in
           ((key (deref (evictList c2) ent), value (deref (evictList c2) ent),
             true), c2, w2)
      else let '(c2, w2) := removeElement ent c w1 in
           ((zero, zero, false), c2, w2)
  | None => ((zero, zero, false), c, w)
  end.

(** [GetOldest]: the expiry test is made on the named result [key] too. *)
Definition GetOldest c w : (K * V * bool) * LRU * World E :=
  match back (evictList c) with
  | Some ent =>
      let '(expired, w1) := keyHasExpired zero c w in
      if negb expired
      then ((key (deref (evictList c) ent), value (deref (evictList c) ent),
             true), c, w1)
      else ((zero, zero, false), c, w1)
  | None => ((zero, zero, false), c, w)
  end.

(** The loop of [Keys]: the keys of the entries that have not expired,
    oldest first. The slice [keys] has room for every node of the list,
    so the writes [keys[i]] stay in range and [keys[:i]] is the list of
    the keys written. *)
Fixpoint keysFrom (es : list ref) c w : list K * World E :=
  match es with
  | [] => ([], w)
  | e :: es' =>
      let k := key (deref (evictList c) e) in
      let '(expired, w1) := keyHasExpired k c w in
      let '(ks, w2) := keysFrom es' c w1 in
      if negb expired then (k :: ks, w2) else (ks, w2)
  end.

(** [Keys] *)
Definition Keys c w : list K * World E :=
  keysFrom (backToFront (evictList c)) c w.

(** The loop of [Values] writing into the slice [values] at index [i];
    [None] is the run-time panic of an index out of range. *)
Fixpoint valuesFrom (es : list ref) (values : list V) (i : nat) c w
    : option (list V * nat) * World E :=
  match es with
  | [] => (Some (values, i), w)
  | e :: es' =>
      let ent := deref (evictList c) e in
      let '(expired, w1) := keyHasExpired (key ent) c w in
      if negb expired
      then if decide (i < length values)%nat
           then valuesFrom es' (<[i := value ent]> values) (S i) c w1
           else (None, w1)
      else valuesFrom es' values i c w1
  end.

(** [Values]: the slice is made with [len(c.items)] elements. *)
Definition Values c w : option (list V) * World E :=
  let values := replicate (base.size (items c)) zero in
  match valuesFrom (backToFront (evictList c)) values 0 c w with
  | (Some (vs, i), w1) => (Some (take i vs), w1)
  | (None, w1) => (None, w1)
  end.

(** [Len] *)
Definition Len c w : Z * World E :=
  let '(ks, w1) := Keys c w in (Z.of_nat (length ks), w1).

(** [ActualLen] *)
Definition ActualLen c w : Z * World E :=
  let '(ks, w1) := Keys c w in (Z.of_nat (length ks), w1).

(** [for i := 0; i < diff; i++ { c.removeOldest() }] *)
Fixpoint removeOldestTimes (n : nat) c w : LRU * World E :=
  match n with
  | O => (c, w)
  | S n' => let '(c1, w1) := removeOldest c w in removeOldestTimes n' c1 w1
  end.

(** [Resize] *)
Definition Resize (newSize : Z) c w : Z * LRU * World E :=
  let '(len, w1) := Len c w in
  let diff := wrap64 (len - newSize) in
  let diff := if diff <? 0 then 0 else diff in
  let '(c2, w2) := removeOldestTimes (Z.to_nat diff) c w1 in
  (diff, withSize c2 newSize, w2).

(** The loop of [RemoveExpired]; the node to visit next is saved before
    the current one is unlinked. *)
Fixpoint removeExpiredFrom (es : list ref) (evicted : Z) c w
    : Z * LRU * World E :=
  match es with
  | [] => (evicted, c, w)
  | e :: es' =>
      let '(expired, w1) := keyHasExpired (key (deref (evictList c) e)) c w in
      if expired
      then let '(c2, w2) := removeElement e c w1 in
           removeExpiredFrom es' (evicted + 1) c2 w2
      else removeExpiredFrom es' evicted c w1
  end.

(** [RemoveExpired] *)
Definition RemoveExpired c w : Z * LRU * World E :=
  removeExpiredFrom (backToFront (evictList c)) 0 c w.

(** One round of the loop of [Purge] for the pair [(k, v)] of [items]. *)
Definition purgeStep (s : LRU * World E) (kv : K * ref) : LRU * World E :=
  let '(c, w) := s in
  let w1 := fire (onEvict c) kv.1 (value (deref (evictList c) kv.2)) w in
  (mkLRU (size c) (evictList c) (delete kv.1 (items c)) (onEvict c)
         (itemTTL c) (delete kv.1 (itemExpiries c)) (expiryBasedEvict c),
   w1).

(** [Purge]: the loop visits the pairs of [items] in the order that [seed]
    chooses; a round deletes only the pair it visits, so every pair is
    visited once. *)
Definition Purge (seed : list nat) c w : LRU * World E :=
  let '(c1, w1) :=
    foldl purgeStep (c, w) (rangeOrder seed (map_to_list (items c))) in
  (withList c1 (init (evictList c1)), w1).

(** The cache is well formed when [items] indexes the list. *)
Definition wf c : Prop := linked (evictList c) (items c).

(** The expiries follow the index, under the default TTL of the cache. *)
Definition tracked c : Prop := tracks (itemTTL c) (items c) (itemExpiries c).

(** The calls a client can make on the cache. *)
Inductive call : Type :=
  | CallAdd (k : K) (v : V)
  | CallGet (k : K)
  | CallContains (k : K)
  | CallPeek (k : K)
  | CallRemove (k : K)
  | CallRemoveOldest
  | CallGetOldest
  | CallKeys
  | CallLen
  | CallResize (n : Z)
  | CallRemoveExpired
  | CallPurge (seed : list nat).

(** The cache and the world after a call, its results dropped. *)
Definition exec (op : call) c w : LRU * World E :=
  match op with
  | CallAdd k v => let '(_, c', w') := Add k v c w in (c', w')
  | CallGet k => let '(_, c', w') := Get k c w in (c', w')
  | CallContains k => let '(_, c', w') := Contains k c w in (c', w')
  | CallPeek k => let '(_, c', w') := Peek k c w in (c', w')
  | CallRemove k => let '(_, c', w') := Remove k c w in (c', w')
  | CallRemoveOldest => let '(_, c', w') := RemoveOldest c w in (c', w')
  | CallGetOldest => let '(_, c', w') := GetOldest c w in (c', w')
  | CallKeys => (c, (Keys c w).2)
  | CallLen => (c, (Len c w).2)
  | CallResize n => let '(_, c', w') := Resize n c w in (c', w')
  | CallRemoveExpired => let '(_, c', w') := RemoveExpired c w in (c', w')
  | CallPurge seed => Purge seed c w
  end.

(** A sequence of calls, one after the other. *)
Definition run (ops : list call) c w : LRU * World E :=
  foldl (λ s op, exec op s.1 s.2) (c, w) ops.

(** The call is an insertion. *)
Definition isAdd (op : call) : bool :=
  match op with
  | CallAdd _ _ => true
  | _ => false
  end.
End Engine.
Arguments LRU K {_ _} V E.
Arguments call K V : clear implicits.
End P2.

(** ** src/unnamed/part_001: the engine behind the [LRUCache] interface *)

Module P1.
Section Engine.
Context `{Countable K} {V E : Type} `{!Zero K, !Zero V}.
Variable clock : nat → Z.

Record LRU := mkLRU {
  size : Z;
  evictList : lruList K V;
  items : gmap K ref;
  onEvict : option (K → V → E → E);
  itemTTL : Z;
  itemExpiries : gmap K Z
}.

Implicit Types (c : LRU) (w : World E).

Definition withList c (l : lruList K V) : LRU :=
  mkLRU (size c) l (items c) (onEvict c) (itemTTL c) (itemExpiries c).

Definition withSize c (n : Z) : LRU :=
  mkLRU n (evictList c) (items c) (onEvict c) (itemTTL c) (itemExpiries c).

Definition withExpiries c (m : gmap K Z) : LRU :=
  mkLRU (size c) (evictList c) (items c) (onEvict c) (itemTTL c) m.

(** [NewLRUWithEvictTTL]: [None] is the error
    "must provide a positive size". *)
Definition NewLRUWithEvictTTL (size : Z) (onEvict : option (K → V → E → E))
    (itemTTL : Z) : option LRU :=
  if size <=? 0 then None
  else Some (mkLRU size newList ∅ onEvict itemTTL ∅).

Definition NewLRU (size : Z) (onEvict : option (K → V → E → E)) : option LRU :=
  NewLRUWithEvictTTL size onEvict 0.

(** [KeyHasExpired]: [ok && expiry.Before(time.Now())]; the clock is read
    only when an expiry is recorded. *)
Definition KeyHasExpired (k : K) c w : bool * World E :=
  match itemExpiries c !! k with
  | Some expiry => let '(now, w1) := timeNow clock w in (Before expiry now, w1)
  | None => (false, w)
  end.

(** [ExpiryForKey]: a key without a record reads as the zero time. *)
Definition ExpiryForKey (k : K) c : Z := default 0 (itemExpiries c !! k).

(** [removeElement] *)
Definition removeElement (e : ref) c w : LRU * World E :=
  let l := remove e (evictList c) in
  let ent := deref (evictList c) e in
  (mkLRU (size c) l (delete (key ent) (items c)) (onEvict c) (itemTTL c)
         (delete (key ent) (itemExpiries c)),
   fire (onEvict c) (key ent) (value ent) w).

(** The loop of [findExpired] over the nodes still to visit. *)
Fixpoint findExpiredFrom (es : list ref) c w : option ref * World E :=
  match es with
  | [] => (None, w)
  | e :: es' =>
      let '(expired, w1) := KeyHasExpired (key (deref (evictList c) e)) c w in
      if expired then (Some e, w1) else findExpiredFrom es' c w1
  end.

(** [findExpired]: the first expired entry from the back. *)
Definition findExpired c w : option ref * World E :=
  findExpiredFrom (backToFront (evictList c)) c w.

(** The loop of [getOldest]: expired entries met on the way from the back
    are removed; [next = ent.prev] is read before [ent] is unlinked, and
    is read here as the node before [ent], none at the front. *)
Fixpoint getOldestFrom (es : list ref) c w : option ref * LRU * World E :=
  match es with
  | [] => (None, c, w)
  | e :: es' =>
      let '(expired, w1) := KeyHasExpired (key (deref (evictList c) e)) c w in
      if negb expired then (Some e, c, w1)
      else let '(c2, w2) := removeElement e c w1 in getOldestFrom es' c2 w2
  end.

(** [getOldest] *)
Definition getOldest (includeExpired : bool) c w
    : option ref * LRU * World E :=
  let '(found, w1) :=
    if (0 <? itemTTL c) && includeExpired then findExpired c w
    else (None, w) in
  match found with
  | Some ent => (Some ent, c, w1)
  | None => getOldestFrom (backToFront (evictList c)) c w1
  end.

(** [removeOldest] *)
Definition removeOldest c w : LRU * World E :=
  match getOldest true c w with
  | (Some ent, c1, w1) => removeElement ent c1 w1
  | (None, c1, w1) => (c1, w1)
  end.

(** [AddWithExp] *)
Definition AddWithExp (k : K) (v : V) (expiry : Z) c w
    : bool * LRU * World E :=
  match items c !! k with
  | Some ent =>
      let l1 := moveToFront ent (evictList c) in
      let w1 := fire (onEvict c) k (value (deref l1 ent)) w in
      (false, withList c (setValue ent v l1), w1)
  | None =>
      let '(ent, l1) := pushFront k v (evictList c) in
      let '(exps, w1) :=
        if negb (IsZero expiry) then (<[k := expiry]> (itemExpiries c), w)
        else if 0 <? itemTTL c
        then let '(now, w') := timeNow clock w in
             (<[k := now + itemTTL c]> (itemExpiries c), w')
        else (itemExpiries c, w) in
      let c1 := mkLRU (size c) l1 (<[k := ent]> (items c)) (onEvict c)
                      (itemTTL c) exps in
      let evict := size c <? llen l1 in
      if evict
      then let '(c2, w2) := removeOldest c1 w1 in (true, c2, w2)
      else (false, c1, w1)
  end.

(** [Add]: [AddWithExp] with the zero [time.Time]. *)
Definition Add (k : K) (v : V) c w : bool * LRU * World E :=
  AddWithExp k v 0 c w.

(** [Get]: the expiry is tested twice, each test reads the clock. *)
Definition Get (k : K) c w : (V * bool) * LRU * World E :=
  match items c !! k with
  | Some ent =>
      let '(expired, w1) := KeyHasExpired k c w in
      if negb expired
      then let '(expired', w2) := KeyHasExpired k c w1 in
           if negb expired'
           then let l1 := moveToFront ent (evictList c) in
                ((value (deref l1 ent), true), withList c l1, w2)
           else let '(c3, w3) := removeElement ent c w2 in
                ((zero, false), c3, w3)
      else ((zero, false), c, w1)
  | None => ((zero, false), c, w)
  end.

(** [Contains]: the lookup declares its own [ok], the named result stays
    false unless [true] is returned. *)
Definition Contains (k : K) c w : bool * LRU * World E :=
  match items c !! k with
  | Some ent =>
      let '(expired, w1) := KeyHasExpired k c w in
      if negb expired then (true, c, w1)
      else let '(c2, w2) := removeElement ent c w1 in (false, c2, w2)
  | None => (false, c, w)
  end.

(** [Peek]: the lookup assigns the named result [ok], which the bare
    [return] hands back. *)
Definition Peek (k : K) c w : (V * bool) * LRU * World E :=
  match items c !! k with
  | Some ent =>
      let ok := true in
      let '(expired, w1) := KeyHasExpired k c w in
      if negb expired
      then ((value (deref (evictList c) ent), true), c, w1)
      else let '(c2, w2) := removeElement ent c w1 in ((zero, ok), c2, w2)
  | None => ((zero, false), c, w)
  end.

(** [Remove]: the removal is deferred, it runs after the result is set. *)
Definition Remove (k : K) c w : bool * LRU * World E :=
  match items c !! k with
  | Some ent =>
      let '(expired, w1) := KeyHasExpired k c w in
      let present := negb expired in
      let '(c2, w2) := removeElement ent c w1 in
      (present, c2, w2)
  | None => (false, c, w)
  end.

(** [RemoveOldest] *)
Definition RemoveOldest c w : (K * V * bool) * LRU * World E :=
  match getOldest false c w with
  | (Some ent, c1, w1) =>
      let '(c2, w2) := removeElement ent c1 w1 in
      ((key (deref (evictList c2) ent), value (deref (evictList c2) ent),
        true), c2, w2)
  | (None, c1, w1) => ((zero, zero, false), c1, w1)
  end.

(** [GetOldest] *)
Definition GetOldest c w : (K * V * bool) * LRU * World E :=
  match getOldest false c w with
  | (Some ent, c1, w1) =>
      ((key (deref (evictList c1) ent), value (deref (evictList c1) ent),
        true), c1, w1)
  | (None, c1, w1) => ((zero, zero, false), c1, w1)
  end.

(** The loop of [Keys]: the keys of the entries that have not expired,
    oldest first. The slice [keys] has room for every node of the list,
    so the writes [keys[i]] stay in range and [keys[:i]] is the list of
    the keys written. *)
Fixpoint keysFrom (es : list ref) c w : list K * World E :=
  match es with
  | [] => ([], w)
  | e :: es' =>
      let k := key (deref (evictList c) e) in
      let '(expired, w1) := KeyHasExpired k c w in
      let '(ks, w2) := keysFrom es' c w1 in
      if negb expired then (k :: ks, w2) else (ks, w2)
  end.

(** [Keys] *)
Definition Keys c w : list K * World E :=
  keysFrom (backToFront (evictList c)) c w.

(** The loop of [Values] writing into the slice [values] at index [i];
    [None] is the run-time panic of an index out of range. *)
Fixpoint valuesFrom (es : list ref) (values : list V) (i : nat) c w
    : option (list V * nat) * World E :=
  match es with
  | [] => (Some (values, i), w)
  | e :: es' =>
      let ent := deref (evictList c) e in
      let '(expired, w1) := KeyHasExpired (key ent) c w in
      if negb expired
      then if decide (i < length values)%nat
           then valuesFrom es' (<[i := value ent]> values) (S i) c w1
           else (None, w1)
      else valuesFrom es' values i c w1
  end.

(** [Values]: the slice is made with [len(c.items)] elements. *)
Definition Values c w : option (list V) * World E :=
  let values := replicate (base.size (items c)) zero in
  match valuesFrom (backToFront (evictList c)) values 0 c w with
  | (Some (vs, i), w1) => (Some (take i vs), w1)
  | (None, w1) => (None, w1)
  end.

(** [Len] *)
Definition Len c w : Z * World E :=
  let '(ks, w1) := Keys c w in (Z.of_nat (length ks), w1).

(** [ItemCount] *)
Definition ItemCount c w : Z * World E :=
  let '(ks, w1) := Keys c w in (Z.of_nat (length ks), w1).

(** [for i := 0; i < diff; i++ { c.removeOldest() }] *)
Fixpoint removeOldestTimes (n : nat) c w : LRU * World E :=
  match n with
  | O => (c, w)
  | S n' => let '(c1, w1) := removeOldest c w in removeOldestTimes n' c1 w1
  end.

(** [Resize] *)
Definition Resize (newSize : Z) c w : Z * LRU * World E :=
  let '(len, w1) := Len c w in
  let diff := wrap64 (len - newSize) in
  let diff := if diff <? 0 then 0 else diff in
  let '(c2, w2) := removeOldestTimes (Z.to_nat diff) c w1 in
  (diff, withSize c2 newSize, w2).

(** The loop of [RemoveExpired]; the node to visit next is saved before
    the current one is unlinked. *)
Fixpoint removeExpiredFrom (es : list ref) (evicted : Z) c w
    : Z * LRU * World E :=
  match es with
  | [] => (evicted, c, w)
  | e :: es' =>
      let '(expired, w1) := KeyHasExpired (key (deref (evictList c) e)) c w in
      if expired
      then let '(c2, w2) := removeElement e c w1 in
           removeExpiredFrom es' (evicted + 1) c2 w2
      else removeExpiredFrom es' evicted c w1
  end.

(** [RemoveExpired] *)
Definition RemoveExpired c w : Z * LRU * World E :=
  removeExpiredFrom (backToFront (evictList c)) 0 c w.

(** [ChangeExpiry] *)
Definition ChangeExpiry (k : K) (expiry : Z) c w : bool * LRU * World E :=
  let '((_, ok), c1, w1) := Peek k c w in
  if ok then (true, withExpiries c1 (<[k := expiry]> (itemExpiries c1)), w1)
  else (false, c1, w1).

(** [MoveItem], for two distinct caches: the results are the value, the
    flag, [dest] and [src] after the call. The argument
    [src.ExpiryForKey(key)] of [dest.AddWithExp] is evaluated when that
    call is made, after [src.Remove(key)] has returned. *)
Definition MoveItem (k : K) (dest src : LRU) w
    : (V * bool) * LRU * LRU * World E :=
  let '((val, ok), src1, w1) := Peek k src w in
  if ok
  then let '(expired, w2) := KeyHasExpired k src1 w1 in
       if negb expired
       then let '(_, src2, w3) := Remove k src1 w2 in
            let expiry := ExpiryForKey k src2 in
            let '(_, dest1, w4) := AddWithExp k val expiry dest w3 in
            ((val, true), dest1, src2, w4)
       else ((zero, false), dest, src1, w2)
  else ((zero, false), dest, src1, w1).

(** One round of the loop of [Purge] for the pair [(k, v)] of [items]. *)
Definition purgeStep (s : LRU * World E) (kv : K * ref) : LRU * World E :=
  let '(c, w) := s in
  let w1 := fire (onEvict c) kv.1 (value (deref (evictList c) kv.2)) w in
  (mkLRU (size c) (evictList c) (delete kv.1 (items c)) (onEvict c)
         (itemTTL c) (delete kv.1 (itemExpiries c)),
   w1).

(** [Purge]: the loop visits the pairs of [items] in the order that [seed]
    chooses; a round deletes only the pair it visits, so every pair is
    visited once. *)
Definition Purge (seed : list nat) c w : LRU * World E :=
  let '(c1, w1) :=
    foldl purgeStep (c, w) (rangeOrder seed (map_to_list (items c))) in
  (withList c1 (init (evictList c1)), w1).

(** The cache is well formed when [items] indexes the list. *)
Definition wf c : Prop := linked (evictList c) (items c).

(** The calls a client can make on the cache. *)
Inductive call : Type :=
  | CallAdd (k : K) (v : V)
  | CallAddWithExp (k : K) (v : V) (expiry : Z)
  | CallGet (k : K)
  | CallContains (k : K)
  | CallPeek (k : K)
  | CallRemove (k : K)
  | CallRemoveOldest
  | CallGetOldest
  | CallKeys
  | CallLen
  | CallResize (n : Z)
  | CallKeyHasExpired (k : K)
  | CallRemoveExpired
  | CallChangeExpiry (k : K) (expiry : Z)
  | CallPurge (seed : list nat).

(** The cache and the world after a call, its results dropped. *)
Definition exec (op : call) c w : LRU * World E :=
  match op with
  | CallAdd k v => let '(_, c', w') := Add k v c w in (c', w')
  | CallAddWithExp k v x => let '(_, c', w') := AddWithExp k v x c w in (c', w')
  | CallGet k => let '(_, c', w') := Get k c w in (c', w')
  | CallContains k => let '(_, c', w') := Contains k c w in (c', w')
  | CallPeek k => let '(_, c', w') := Peek k c w in (c', w')
  | CallRemove k => let '(_, c', w') := Remove k c w in (c', w')
  | CallRemoveOldest => let '(_, c', w') := RemoveOldest c w in (c', w')
  | CallGetOldest => let '(_, c', w') := GetOldest c w in (c', w')
  | CallKeys => (c, (Keys c w).2)
  | CallLen => (c, (Len c w).2)
  | CallResize n => let '(_, c', w') := Resize n c w in (c', w')
  | CallKeyHasExpired k => (c, (KeyHasExpired k c w).2)
  | CallRemoveExpired => let '(_, c', w') := RemoveExpired c w in (c', w')
  | CallChangeExpiry k x => let '(_, c', w') := ChangeExpiry k x c w in (c', w')
  | CallPurge seed => Purge seed c w
  end.

(** A sequence of calls, one after the other. *)
Definition run (ops : list call) c w : LRU * World E :=
  foldl (λ s op, exec op s.1 s.2) (c, w) ops.

(** The call is an insertion. *)
Definition isAdd (op : call) : bool :=
  match op with
  | CallAdd _ _ | CallAddWithExp _ _ _ => true
  | _ => false
  end.
End Engine.
Arguments LRU K {_ _} V E.
Arguments call K V : clear implicits.
End P1.

(** ** Concrete caches: integer keys and values, a callback that logs *)

Module Sample.
(** The callback appends the pair it is called with to a log. *)
Definition log : Type := list (Z * Z).
Definition record : option (Z → Z → log → log) :=
  Some (λ k v l, l ++ [(k, v)]).

Definition start : World log := mkWorld 0 [].

(** A clock that reads [now] first and is one unit later at each further
    reading. *)
Definition since (now : Z) : nat → Z := λ i, now + Z.of_nat i.

(** part_001, capacity 2, no default TTL: key 1 is added with the explicit
    expiry 50, key 2 without expiry. *)
Definition a0 : P1.LRU Z Z log := P1.mkLRU 2 newList ∅ record 0 ∅.
Definition a1 : P1.LRU Z Z log := (P1.AddWithExp (since 10) 1 11 50 a0 start).1.2.
Definition a2 : P1.LRU Z Z log := (P1.Add (since 10) 2 22 a1 start).1.2.

(** part_001: key 7 is added with the explicit expiry 500. *)
Definition a7 : P1.LRU Z Z log := (P1.AddWithExp (since 10) 7 77 500 a0 start).1.2.

(** part_002, capacity 2, default TTL 10, expiry-priority flag set: key 1
    is added at 0, key 2 at 5, and key 1 is read at 6. *)
Definition b0 : P2.LRU Z Z log := P2.mkLRU 2 newList ∅ record 10 ∅ true.
Definition b1 : P2.LRU Z Z log := (P2.Add (since 0) 1 11 b0 start).1.2.
Definition b2 : P2.LRU Z Z log := (P2.Add (since 5) 2 22 b1 start).1.2.
Definition b3 : P2.LRU Z Z log := (P2.Get (since 6) 1 b2 start).1.2.

(** part_001, capacity 2, no default TTL: keys 1 and 2 are added without
    expiry. *)
Definition a12 : P1.LRU Z Z log :=
  (P1.Add (since 10) 2 22 (P1.Add (since 10) 1 11 a0 start).1.2 start).1.2.

(** part_001 and part_002 as the constructors build them with the capacity
    2 and the default TTL 10, the flag of part_002 unset. *)
Definition t0 : P1.LRU Z Z log := P1.mkLRU 2 newList ∅ record 10 ∅.
Definition d0 : P2.LRU Z Z log := P2.mkLRU 2 newList ∅ record 10 ∅ false.

(** part_002, flag unset: key 1 is added at 0 and key 2 at 5. *)
Definition d2 : P2.LRU Z Z log :=
  (P2.Add (since 5) 2 22 (P2.Add (since 0) 1 11 d0 start).1.2 start).1.2.

(** part_002 as the constructor builds it without default TTL. *)
Definition n0 : P2.LRU Z Z log := P2.mkLRU 2 newList ∅ record 0 ∅ false.

(** Sequences of calls on part_001 and on part_002. *)
Definition calls1 : list (P1.call Z Z) :=
  [P1.CallAdd 1 11; P1.CallAddWithExp 2 22 50; P1.CallGet 1; P1.CallAdd 3 33;
   P1.CallChangeExpiry 2 5; P1.CallRemoveExpired; P1.CallRemove 3].
Definition calls2 : list (P2.call Z Z) :=
  [P2.CallAdd 1 11; P2.CallAdd 2 22; P2.CallGet 1; P2.CallAdd 3 33;
   P2.CallRemoveOldest; P2.CallResize 1; P2.CallAdd 4 44].
Definition adds1 : list (P1.call Z Z) :=
  [P1.CallAdd 1 11; P1.CallAddWithExp 2 22 50; P1.CallAdd 3 33; P1.CallAdd 1 12].
Definition adds2 : list (P2.call Z Z) :=
  [P2.CallAdd 1 11; P2.CallAdd 2 22; P2.CallAdd 3 33; P2.CallAdd 1 12].

(** Both caches resized to the capacity -1. *)
Definition a_neg : P1.LRU Z Z log := (P1.Resize (since 10) (-1) a2 start).1.2.
Definition b_neg : P2.LRU Z Z log := (P2.Resize (since 10) (-1) b3 start).1.2.
End Sample.

(** * Facts on the list and the key index *)

Section IndexFacts.
Context `{Countable K} {V : Type} `{!Zero K, !Zero V}.
Implicit Types (l : lruList K V) (m : gmap K ref) (e : ref).

Lemma linked_newList : linked (newList : lruList K V) ∅.
Proof.
  split; [constructor|]. split; [apply map_Forall_empty | constructor].
Qed.

Lemma linked_lookup l m k e :
  linked l m → m !! k = Some e →
  e ∈ order l ∧ ∃ v, cells l !! e = Some (mkEntry k v).
Proof.
  intros (_ & Hm & _) Hk. destruct (Hm k e Hk) as [Hin Hc].
  split; [done|]. destruct (cells l !! e) as [[k' v]|] eqn:E; simplify_eq/=.
  by exists v.
Qed.

Lemma linked_node l m e :
  linked l m → e ∈ order l →
  ∃ ent, cells l !! e = Some ent ∧ m !! key ent = Some e.
Proof.
  intros (_ & _ & Hl) Hin. rewrite Forall_forall in Hl.
  specialize (Hl e Hin). destruct (cells l !! e) as [ent|]; simplify_eq/=.
  by exists ent.
Qed.

Lemma deref_cell l e ent : cells l !! e = Some ent → deref l e = ent.
Proof. unfold deref. by intros ->. Qed.

Lemma linked_fresh l m e : linked l m → e ∈ order l → (e < length (cells l))%nat.
Proof.
  intros Hl Hin. destruct (linked_node _ _ _ Hl Hin) as (ent & Hc & _).
  by apply lookup_lt_Some in Hc.
Qed.

Lemma filter_ne_elem (xs : list ref) e x : x ∈ filter (λ y, y ≠ e) xs ↔ x ∈ xs ∧ x ≠ e.
Proof. rewrite list_elem_of_filter. tauto. Qed.

Lemma filter_ne_length (xs : list ref) e :
  NoDup xs → e ∈ xs → S (length (filter (λ y, y ≠ e) xs)) = length xs.
Proof.
  induction 1 as [|x xs Hx Hnd IH]; [by intros ?%elem_of_nil|].
  intros Hin. rewrite filter_cons. destruct (decide (x ≠ e)) as [Hne|Heq].
  - simpl. f_equal. apply IH. apply elem_of_cons in Hin as [->|]; done.
  - apply dec_stable in Heq as ->. simpl. f_equal.
    f_equal. clear IH Hin Hnd. induction xs as [|y ys IH]; [done|].
    rewrite filter_cons. rewrite not_elem_of_cons in Hx. destruct Hx as [Hy Hx].
    destruct (decide (y ≠ e)); [|done]. f_equal. by apply IH.
Qed.

Lemma filter_ne_notin (xs : list ref) e : e ∉ xs → filter (λ y, y ≠ e) xs = xs.
Proof.
  induction xs as [|y ys IH]; [done|]. rewrite not_elem_of_cons. intros [Hy Hx].
  rewrite filter_cons. destruct (decide (y ≠ e)); [|done]. f_equal. by apply IH.
Qed.

Lemma linked_moveToFront l m e : linked l m → linked (moveToFront e l) m.
Proof.
  intros Hl. unfold moveToFront. destruct (decide (e ∈ order l)) as [Hin|]; [|done].
  destruct Hl as (Hnd & Hm & Ho). split; [|split]; simpl.
  - constructor; [rewrite filter_ne_elem; tauto | by apply NoDup_filter].
  - intros k x Hk. destruct (Hm k x Hk) as [Hx Hc]. split; [|done].
    destruct (decide (x = e)) as [->|]; [left|right; rewrite filter_ne_elem]; done.
  - rewrite Forall_forall in Ho. constructor; [by apply Ho|].
    apply Forall_forall. intros x [Hx _]%filter_ne_elem. by apply Ho.
Qed.

Lemma linked_setValue l m e v : linked l m → linked (setValue e v l) m.
Proof.
  intros (Hnd & Hm & Ho). split; [done|]. unfold setValue; simpl.
  assert (Hcell : ∀ x, key <$> (<[e:=mkEntry (key (deref l e)) v]> (cells l)) !! x
                      = key <$> cells l !! x).
  { intros x. destruct (decide (x = e)) as [->|Hne].
    - destruct (cells l !! e) as [ent|] eqn:E.
      + rewrite list_lookup_insert_eq; [|by eapply lookup_lt_Some].
        simpl. by rewrite (deref_cell _ _ _ E).
      + rewrite list_insert_ge; [by rewrite E|by apply lookup_ge_None].
    - by rewrite list_lookup_insert_ne. }
  split.
  - intros k x Hk. destruct (Hm k x Hk) as [Hx Hc]. split; [done|].
    by rewrite Hcell.
  - eapply Forall_impl; [exact Ho|]. intros x Hx. simpl in *.
    specialize (Hcell x).
    destruct (cells l !! x) as [ent|]; [|done].
    destruct (_ !! x) as [ent'|]; simplify_eq/=. by rewrite Hcell.
Qed.

Lemma linked_pushFront l m k v :
  linked l m → m !! k = None →
  linked (pushFront k v l).2 (<[k := length (cells l)]> m).
Proof.
  intros Hl Hk. pose proof Hl as (Hnd & Hm & Ho). split; [|split]; simpl.
  - constructor; [|done]. intros Hin%(linked_fresh _ _ _ Hl). lia.
  - apply map_Forall_insert; [done|]. split.
    + split; [left|]. by rewrite lookup_app_r, Nat.sub_diag.
    + intros k' x Hk'. destruct (Hm k' x Hk') as [Hx Hc]. split; [by right|].
      rewrite lookup_app_l; [done|]. by eapply linked_fresh.
  - constructor.
    + rewrite lookup_app_r, Nat.sub_diag by done. simpl. by rewrite lookup_insert_eq.
    + apply Forall_forall. intros x Hx.
      destruct (linked_node _ _ _ Hl Hx) as (ent & Hc & Hi).
      rewrite lookup_app_l by (by eapply lookup_lt_Some). rewrite Hc. simpl.
      rewrite lookup_insert_ne; [done|]. intros Heq. rewrite <- Heq in Hi. congruence.
Qed.

Lemma linked_remove l m e :
  linked l m → e ∈ order l →
  linked (remove e l) (delete (key (deref l e)) m).
Proof.
  intros Hl Hin. pose proof Hl as (Hnd & Hm & Ho).
  destruct (linked_node _ _ _ Hl Hin) as (ent & Hc & Hi).
  rewrite (deref_cell _ _ _ Hc). split; [|split]; simpl.
  - by apply NoDup_filter.
  - intros k x [Hne Hk]%lookup_delete_Some. destruct (Hm k x Hk) as [Hx Hcx].
    split; [|done]. rewrite filter_ne_elem. split; [done|]. intros ->.
    rewrite Hc in Hcx. simplify_eq/=.
  - apply Forall_forall. intros x [Hx Hne]%filter_ne_elem.
    destruct (linked_node _ _ _ Hl Hx) as (ent' & Hc' & Hi').
    rewrite Hc'. simpl. rewrite lookup_delete_ne; [done|]. intros Heq.
    rewrite Heq in Hi. congruence.
Qed.

Lemma back_elem l e : back l = Some e → e ∈ order l.
Proof.
  unfold back. intros Hl. apply last_Some in Hl as [l' ->].
  apply elem_of_app. right. by left.
Qed.
Lemma linked_key_inj l m e1 e2 :
  linked l m → e1 ∈ order l → e2 ∈ order l →
  key (deref l e1) = key (deref l e2) → e1 = e2.
Proof.
  intros Hl H1 H2 Heq.
  destruct (linked_node _ _ _ Hl H1) as (ent1 & Hc1 & Hi1).
  destruct (linked_node _ _ _ Hl H2) as (ent2 & Hc2 & Hi2).
  rewrite (deref_cell _ _ _ Hc1), (deref_cell _ _ _ Hc2) in Heq.
  rewrite Heq in Hi1. congruence.
Qed.

Lemma lookup_dropKeys {A} (m : gmap K A) ks k :
  dropKeys m ks !! k = if decide (k ∈ ks) then None else m !! k.
Proof.
  unfold dropKeys. destruct (decide (k ∈ ks)) as [Hin|Hin].
  - apply map_lookup_filter_None. right. intros x _. simpl. tauto.
  - destruct (m !! k) as [x|] eqn:E.
    + by apply map_lookup_filter_Some.
    + apply map_lookup_filter_None. by left.
Qed.

Lemma dropKeys_nil {A} (m : gmap K A) : dropKeys m [] = m.
Proof.
  apply map_eq. intros k. rewrite lookup_dropKeys.
  by rewrite decide_False by apply not_elem_of_nil.
Qed.

Lemma dropKeys_delete {A} (m : gmap K A) k ks :
  dropKeys (delete k m) ks = dropKeys m (k :: ks).
Proof.
  apply map_eq. intros j. rewrite !lookup_dropKeys.
  destruct (decide (j = k)) as [->|Hne].
  - rewrite lookup_delete_eq. rewrite (decide_True (P := k ∈ k :: ks)) by left.
    by destruct (decide _).
  - rewrite lookup_delete_ne by done.
    destruct (decide (j ∈ ks)) as [Hin|Hin].
    + by rewrite decide_True by by right.
    + rewrite decide_False; [done|]. rewrite not_elem_of_cons. done.
Qed.

Lemma delete_dropKeys {A} (m : gmap K A) k ks :
  delete k (dropKeys m ks) = dropKeys m (k :: ks).
Proof.
  apply map_eq. intros j. rewrite lookup_dropKeys.
  destruct (decide (j = k)) as [->|Hne].
  - rewrite lookup_delete_eq. by rewrite decide_True by left.
  - rewrite lookup_delete_ne, lookup_dropKeys by done.
    destruct (decide (j ∈ ks)) as [Hin|Hin].
    + by rewrite decide_True by by right.
    + rewrite decide_False; [done|]. rewrite not_elem_of_cons. done.
Qed.

Lemma dropKeys_perm {A} (m : gmap K A) ks ks' :
  (∀ k, k ∈ ks ↔ k ∈ ks') → dropKeys m ks = dropKeys m ks'.
Proof.
  intros Hks. apply map_eq. intros j. rewrite !lookup_dropKeys.
  destruct (decide (j ∈ ks)) as [Hin|Hin].
  - by rewrite decide_True by by apply Hks.
  - by rewrite decide_False by by rewrite <- Hks.
Qed.

Lemma env_fire {E} (cb : option (K → V → E → E)) k v (w : World E) :
  env (fire cb k v w) = notify cb k v (env w)
  ∧ tick (fire cb k v w) = tick w.
Proof. by destruct cb. Qed.

Lemma nodeKeys_cells l l' es :
  cells l' = cells l → nodeKeys l' es = nodeKeys l es.
Proof. intros Hc. unfold nodeKeys, deref. by rewrite Hc. Qed.

Lemma notifyAll_cells {E} (cb : option (K → V → E → E)) l l' es x :
  cells l' = cells l → notifyAll cb l' es x = notifyAll cb l es x.
Proof. intros Hc. unfold notifyAll, deref. by rewrite Hc. Qed.

Lemma filter_ne_snoc (xs : list ref) e :
  NoDup (xs ++ [e]) → filter (λ y, y ≠ e) (xs ++ [e]) = xs.
Proof.
  intros [Hxs [Hd _]]%NoDup_app. rewrite filter_app, filter_cons, filter_nil.
  rewrite decide_False by (intros Hne; by apply Hne).
  rewrite app_nil_r. apply filter_ne_notin. intros Hin.
  apply (Hd e Hin). by left.
Qed.
(** The index has one entry per linked node. *)
Lemma linked_size l m : linked l m → size m = length (order l).
Proof.
  intros Hl. rewrite <- length_map_to_list.
  rewrite <- (length_fmap (λ e, (key (deref l e), e)) (order l)).
  apply Permutation_length, NoDup_Permutation.
  - apply NoDup_map_to_list.
  - apply NoDup_fmap_2_strong; [|apply Hl]. by intros x y _ _ [= _ ->].
  - intros [k e]. rewrite elem_of_map_to_list, list_elem_of_fmap. split.
    + intros Hk. destruct (linked_lookup _ _ _ _ Hl Hk) as [Hin [v Hv]].
      exists e. by rewrite (deref_cell _ _ _ Hv).
    + intros (x & [= -> ->] & Hin).
      destruct (linked_node _ _ _ Hl Hin) as (ent & Hc & Hi).
      by rewrite (deref_cell _ _ _ Hc).
Qed.

Lemma moveToFront_linked (l : lruList K V) (m : gmap K ref) k e :
  linked l m → m !! k = Some e →
  order (moveToFront e l) = e :: filter (λ x, x ≠ e) (order l)
  ∧ order (moveToFront e l) ≡ₚ order l
  ∧ cells (moveToFront e l) = cells l.
Proof.
  intros Hl Hk. destruct (linked_lookup _ _ _ _ Hl Hk) as [Hin _].
  unfold moveToFront. rewrite decide_True by done. simpl.
  split; [done|]. split; [|done].
  apply NoDup_Permutation.
  - constructor; [rewrite filter_ne_elem; tauto|].
    apply NoDup_filter, Hl.
  - apply Hl.
  - intros x. rewrite elem_of_cons, filter_ne_elem.
    destruct (decide (x = e)) as [->|]; tauto.
Qed.

Lemma setValue_deref (l : lruList K V) e v x :
  (e < length (cells l))%nat →
  deref (setValue e v l) x
  = if decide (x = e) then mkEntry (key (deref l e)) v else deref l x.
Proof.
  intros Hlt. unfold deref at 1. unfold setValue; simpl.
  destruct (decide (x = e)) as [->|Hne].
  - by rewrite list_lookup_insert_eq.
  - by rewrite list_lookup_insert_ne.
Qed.

Lemma overwrite_list (l : lruList K V) (m : gmap K ref) k v e :
  linked l m → m !! k = Some e →
  overwrites k v e l (setValue e v (moveToFront e l))
  ∧ value (deref (moveToFront e l) e) = value (deref l e).
Proof.
  intros Hl Hk.
  destruct (moveToFront_linked _ _ _ _ Hl Hk) as (Ho & Hp & Hc).
  destruct (linked_lookup _ _ _ _ Hl Hk) as [Hin [v0 Hv0]].
  assert (Hlt : (e < length (cells (moveToFront e l)))%nat).
  { rewrite Hc. by eapply lookup_lt_Some. }
  assert (Hd : ∀ x, deref (moveToFront e l) x = deref l x).
  { intros x. unfold deref. by rewrite Hc. }
  split; [|by rewrite Hd].
  split; [done|]. split; [done|]. split.
  - rewrite setValue_deref, decide_True by done.
    by rewrite Hd, (deref_cell _ _ _ Hv0).
  - intros x Hx. rewrite setValue_deref, decide_False by done. apply Hd.
Qed.

Lemma unlinks_linked (l : lruList K V) (m : gmap K ref) (x : gmap K Z) k e :
  linked l m → m !! k = Some e →
  key (deref l e) = k
  ∧ unlinks k e l (remove e l) m (delete k m) x (delete k x)
  ∧ linked (remove e l) (delete k m).
Proof.
  intros Hl Hk. destruct (linked_lookup _ _ _ _ Hl Hk) as [Hin [v0 Hv0]].
  assert (Hkey : key (deref l e) = k) by by rewrite (deref_cell _ _ _ Hv0).
  split; [done|]. split.
  - repeat split. simpl. apply filter_ne_length; [apply Hl|done].
  - rewrite <- Hkey. by apply linked_remove.
Qed.


Lemma dropKeys_app {A} (m : gmap K A) ks ks' :
  dropKeys (dropKeys m ks) ks' = dropKeys m (ks ++ ks').
Proof.
  apply map_eq. intros k. rewrite !lookup_dropKeys.
  destruct (decide (k ∈ ks')) as [Hk'|Hk'], (decide (k ∈ ks)) as [Hk|Hk],
    (decide (k ∈ ks ++ ks')) as [Hkk|Hkk]; try done;
    rewrite elem_of_app in Hkk; tauto.
Qed.

(** Removing the nodes [gone] and then the nodes [gone'] from a list. *)
Lemma filter_notin_app (xs gone gone' : list ref) :
  filter (λ x, x ∉ gone') (filter (λ x, x ∉ gone) xs)
  = filter (λ x, x ∉ gone ++ gone') xs.
Proof.
  rewrite list_filter_filter. apply list_filter_iff. intros x.
  rewrite elem_of_app. tauto.
Qed.

Lemma filter_ne_notin1 (xs : list ref) e :
  filter (λ y, y ≠ e) xs = filter (λ x, x ∉ [e]) xs.
Proof. apply list_filter_iff. intros x. rewrite list_elem_of_singleton. tauto. Qed.

Lemma filter_all (P : ref → Prop) `{!∀ x, Decision (P x)} (xs : list ref) :
  Forall P xs → filter P xs = xs.
Proof.
  induction 1 as [|x xs Hx _ IH]; [done|].
  by rewrite filter_cons_True, IH.
Qed.

Lemma filter_none (P : ref → Prop) `{!∀ x, Decision (P x)} (xs : list ref) :
  Forall (λ x, ¬ P x) xs → filter P xs = [].
Proof.
  induction 1 as [|x xs Hx _ IH]; [done|].
  by rewrite filter_cons_False.
Qed.

Lemma notifyAll_app {E} (cb : option (K → V → E → E)) l l1 g1 g2 x :
  cells l1 = cells l →
  notifyAll cb l1 g2 (notifyAll cb l g1 x) = notifyAll cb l (g1 ++ g2) x.
Proof.
  intros Hc. rewrite (notifyAll_cells _ _ _ _ _ Hc). unfold notifyAll.
  by rewrite foldl_app.
Qed.

Lemma evicts_nil l m (x : gmap K Z) : evicts [] l l m m x x.
Proof.
  split; [constructor|]. split; [by intros e ?%elem_of_nil|].
  split.
  { symmetry. apply filter_all, Forall_forall. intros e _. apply not_elem_of_nil. }
  split; [cbn; lia|]. split; [done|].
  change (nodeKeys l []) with (@nil K). by rewrite !dropKeys_nil.
Qed.

Lemma evicts_one l l' m m' (x x' : gmap K Z) k e :
  e ∈ order l → key (deref l e) = k →
  unlinks k e l l' m m' x x' → evicts [e] l l' m m' x x'.
Proof.
  intros Hin Hk (Ho & Hlen & Hc & Hm & Hx).
  split; [apply NoDup_singleton|].
  split; [by intros ? ->%list_elem_of_singleton|].
  split; [by rewrite Ho, filter_ne_notin1|].
  split; [cbn; lia|]. split; [done|].
  change (nodeKeys l [e]) with [key (deref l e)]. rewrite Hk.
  by rewrite <- !delete_dropKeys, !dropKeys_nil.
Qed.

(** One removal after the other. *)
Lemma evicts_app g1 g2 l l1 l2 m m1 m2 (x x1 x2 : gmap K Z) :
  evicts g1 l l1 m m1 x x1 → evicts g2 l1 l2 m1 m2 x1 x2 →
  evicts (g1 ++ g2) l l2 m m2 x x2.
Proof.
  intros (Hn1 & Hs1 & Ho1 & Hl1 & Hc1 & Hm1 & Hx1)
         (Hn2 & Hs2 & Ho2 & Hl2 & Hc2 & Hm2 & Hx2).
  assert (Hin2 : ∀ e, e ∈ g2 → e ∈ order l ∧ e ∉ g1).
  { intros e He. apply Hs2 in He. rewrite Ho1 in He.
    by apply list_elem_of_filter in He as [? ?]. }
  split.
  { apply NoDup_app. split; [done|]. split; [|done].
    intros e He1 He2. by apply Hin2 in He2 as [_ ?]. }
  split.
  { intros e [He|He]%elem_of_app; [by apply Hs1|by apply Hin2]. }
  split; [by rewrite Ho2, Ho1, filter_notin_app|].
  split; [rewrite length_app; lia|].
  split; [congruence|].
  rewrite (nodeKeys_cells _ _ _ Hc1) in Hm2, Hx2.
  unfold nodeKeys in *. rewrite fmap_app.
  split; [by rewrite Hm2, Hm1, dropKeys_app|by rewrite Hx2, Hx1, dropKeys_app].
Qed.

(** The removal of the nodes at the back of the list, met on the way from
    the back. *)
Lemma evicts_back l l' m m' (x x' : gmap K Z) purged kept :
  linked l m → order l = reverse (purged ++ kept) →
  order l' = reverse kept → cells l' = cells l →
  m' = dropKeys m (nodeKeys l purged) → x' = dropKeys x (nodeKeys l purged) →
  evicts purged l l' m m' x x'.
Proof.
  intros Hl Ho Ho' Hc Hm Hx.
  assert (Hnd : NoDup (purged ++ kept)).
  { rewrite <- (reverse_involutive (purged ++ kept)), <- Ho.
    rewrite reverse_Permutation. apply Hl. }
  apply NoDup_app in Hnd as (Hn1 & Hdis & Hn2).
  split; [done|]. split.
  { intros e He. rewrite Ho, elem_of_reverse, elem_of_app. by left. }
  split.
  { rewrite Ho, Ho', reverse_app, filter_app.
    rewrite (filter_none _ (reverse purged)), app_nil_r.
    - symmetry. apply filter_all, Forall_forall. intros e He Hp.
      rewrite elem_of_reverse in He. by apply (Hdis e).
    - apply Forall_forall. intros e He Hne. apply Hne.
      by rewrite elem_of_reverse in He. }
  split; [rewrite Ho, Ho', !length_reverse, length_app; lia|].
  by split.
Qed.
End IndexFacts.

(** * The order of [range] *)

Section RangeOrder.
Context {A : Type}.
Implicit Types (l : list A) (seed : list nat).

Lemma pickOrder_perm n : ∀ seed l, length l = n → pickOrder seed n l ≡ₚ l.
Proof.
  induction n as [|n IH]; intros seed l Hn; cbn [pickOrder].
  { by apply nil_length_inv in Hn as ->. }
  assert (Hi : (Nat.modulo (hd 0%nat seed) (length l) < length l)%nat).
  { apply Nat.mod_upper_bound. lia. }
  destruct (lookup_lt_is_Some_2 l _ Hi) as [x Hx]. rewrite Hx.
  etransitivity; [|symmetry; apply (delete_Permutation l _ x Hx)].
  constructor. apply IH. rewrite length_delete by by eexists. lia.
Qed.

(** Every seed visits every pair once. *)
Lemma rangeOrder_perm seed l : rangeOrder seed l ≡ₚ l.
Proof. by apply pickOrder_perm. Qed.

(** Every order is the order of some seed. *)
Lemma rangeOrder_any l' : ∀ l, l' ≡ₚ l → ∃ seed, rangeOrder seed l = l'.
Proof.
  induction l' as [|x l' IH]; intros l Hp.
  { apply Permutation_nil in Hp as ->. by exists []. }
  assert (Hin : x ∈ l) by (rewrite <- Hp; by left).
  apply list_elem_of_lookup in Hin as [i Hi].
  pose proof (lookup_lt_Some _ _ _ Hi) as Hlt.
  assert (Hd : l' ≡ₚ delete i l).
  { apply (Permutation_cons_inv (a := x)).
    rewrite Hp. by apply delete_Permutation. }
  destruct (IH _ Hd) as [seed Hs]. exists (i :: seed).
  unfold rangeOrder in *. destruct (length l) as [|n] eqn:Hn; [lia|].
  cbn [pickOrder hd tl]. rewrite Hn, Nat.mod_small by lia. rewrite Hi.
  f_equal. rewrite <- Hs. f_equal.
  rewrite length_delete by by eexists. lia.
Qed.
End RangeOrder.

(** * The engine on the example of the documentation

    Capacity 2, no TTL: [Add(1, 10)], [Add(2, 20)], [Get(1)], [Add(3, 30)]
    evicts key 2, and [Keys] is [1; 3], oldest first. *)

Example lru_example1 :
  let clock := Sample.since 0 in
  let c0 := P1.mkLRU 2 newList ∅ Sample.record 0 ∅ in
  let c3 := (P1.run clock [P1.CallAdd 1 10; P1.CallAdd 2 20; P1.CallGet 1] c0
               Sample.start).1 in
  P1.Add clock 3 30 c3 Sample.start
  = (true, (P1.run clock [P1.CallAdd 3 30] c3 Sample.start).1, mkWorld 0 [(2, 20)])
  ∧ (P1.Keys clock (P1.run clock [P1.CallAdd 3 30] c3 Sample.start).1
       Sample.start).1 = [1; 3]
  ∧ (P1.Get clock 2 (P1.run clock [P1.CallAdd 3 30] c3 Sample.start).1
       Sample.start).1.1 = (0, false).
Proof. repeat split; vm_compute; reflexivity. Qed.

Example lru_example2 :
  let clock := Sample.since 0 in
  let c0 := P2.mkLRU 2 newList ∅ Sample.record 0 ∅ false in
  let c3 := (P2.run clock [P2.CallAdd 1 10; P2.CallAdd 2 20; P2.CallGet 1] c0
               Sample.start).1 in
  P2.Add clock 3 30 c3 Sample.start
  = (true, (P2.run clock [P2.CallAdd 3 30] c3 Sample.start).1, mkWorld 0 [(2, 20)])
  ∧ (P2.Keys clock (P2.run clock [P2.CallAdd 3 30] c3 Sample.start).1
       Sample.start).1 = [1; 3]
  ∧ (P2.Get clock 2 (P2.run clock [P2.CallAdd 3 30] c3 Sample.start).1
       Sample.start).1.1 = (0, false).
Proof. repeat split; vm_compute; reflexivity. Qed.
(** * The operations on one key *)

Section OneKey.
Context `{Countable K} {V E : Type} `{!Zero K, !Zero V}.
Variable clock : nat → Z.
Implicit Types (k : K) (v : V) (w : World E) (e : ref).

(** C6. [Add] and [AddWithExp] on a key that is present: the node of the
    key is moved to the front of the list, the callback (when one is
    set) is called with the key and the old value, the node then holds
    the new value, and the result is [false]; no node leaves the list,
    and the index, the expiries and the capacity are as before. *)
Theorem add_present_key k v (expiry : Z) (c1 : P1.LRU K V E) (c2 : P2.LRU K V E) w e1 e2 :
  P1.wf c1 → P1.items c1 !! k = Some e1 →
  P2.wf c2 → P2.items c2 !! k = Some e2 →
  (∃ c' w',
      P1.AddWithExp clock k v expiry c1 w = (false, c', w')
      ∧ P1.Add clock k v c1 w = P1.AddWithExp clock k v expiry c1 w
      ∧ env w' = notify (P1.onEvict c1) k
                        (value (deref (P1.evictList c1) e1)) (env w)
      ∧ tick w' = tick w
      ∧ overwrites k v e1 (P1.evictList c1) (P1.evictList c')
      ∧ P1.items c' = P1.items c1
      ∧ P1.itemExpiries c' = P1.itemExpiries c1
      ∧ P1.size c' = P1.size c1)
  ∧ (∃ c' w',
      P2.Add clock k v c2 w = (false, c', w')
      ∧ env w' = notify (P2.onEvict c2) k
                        (value (deref (P2.evictList c2) e2)) (env w)
      ∧ tick w' = tick w
      ∧ overwrites k v e2 (P2.evictList c2) (P2.evictList c')
      ∧ P2.items c' = P2.items c2
      ∧ P2.itemExpiries c' = P2.itemExpiries c2
      ∧ P2.size c' = P2.size c2).
Proof.
  intros Hw1 Hk1 Hw2 Hk2. split.
  - destruct (overwrite_list _ _ k v e1 Hw1 Hk1) as [Ho Hv].
    destruct (env_fire (P1.onEvict c1) k (value (deref (P1.evictList c1) e1)) w)
      as [He Ht].
    eexists _, _. unfold P1.Add, P1.AddWithExp. rewrite Hk1, Hv.
    split; [reflexivity|]. split; [reflexivity|].
    split; [exact He|]. split; [exact Ht|].
    repeat split; try reflexivity; apply Ho.
  - destruct (overwrite_list _ _ k v e2 Hw2 Hk2) as [Ho Hv].
    destruct (env_fire (P2.onEvict c2) k (value (deref (P2.evictList c2) e2)) w)
      as [He Ht].
    eexists _, _. unfold P2.Add. rewrite Hk2, Hv.
    split; [reflexivity|]. split; [exact He|]. split; [exact Ht|].
    repeat split; try reflexivity; apply Ho.
Qed.
(** The expiry test reads the clock at most once and leaves the callback's
    state alone. *)
Lemma KeyHasExpired_elapsed1 k (c : P1.LRU K V E) w :
  ∃ w', P1.KeyHasExpired clock k c w
        = (elapsed (P1.itemExpiries c) (clock (tick w)) k, w')
        ∧ env w' = env w ∧ (tick w ≤ tick w' ≤ S (tick w))%nat.
Proof.
  unfold P1.KeyHasExpired, elapsed, timeNow.
  destruct (P1.itemExpiries c !! k); eexists; (split; [reflexivity|]);
    simpl; split; (done || lia).
Qed.

Lemma keyHasExpired_elapsed2 k (c : P2.LRU K V E) w :
  ∃ w', P2.keyHasExpired clock k c w
        = (elapsed (P2.itemExpiries c) (clock (tick w)) k, w')
        ∧ env w' = env w ∧ (tick w ≤ tick w' ≤ S (tick w))%nat.
Proof.
  unfold P2.keyHasExpired, elapsed, timeNow.
  destruct (P2.itemExpiries c !! k); eexists; (split; [reflexivity|]);
    simpl; split; (done || lia).
Qed.

(** [removeElement] on the node that the index holds for the key [k]. *)
Lemma removeElement_key1 k e (c : P1.LRU K V E) w :
  P1.wf c → P1.items c !! k = Some e →
  ∃ c', P1.removeElement e c w
        = (c', fire (P1.onEvict c) k (value (deref (P1.evictList c) e)) w)
        ∧ unlinks k e (P1.evictList c) (P1.evictList c')
                  (P1.items c) (P1.items c')
                  (P1.itemExpiries c) (P1.itemExpiries c')
        ∧ P1.size c' = P1.size c ∧ P1.onEvict c' = P1.onEvict c
        ∧ P1.itemTTL c' = P1.itemTTL c
        ∧ P1.wf c'.
Proof.
  intros Hw Hk.
  destruct (unlinks_linked _ _ (P1.itemExpiries c) _ _ Hw Hk) as (Hkey & Hu & Hl).
  eexists. unfold P1.removeElement. rewrite Hkey. split; [reflexivity|].
  split; [exact Hu|]. repeat (split; [reflexivity|]). exact Hl.
Qed.

Lemma removeElement_key2 k e (c : P2.LRU K V E) w :
  P2.wf c → P2.items c !! k = Some e →
  ∃ c', P2.removeElement e c w
        = (c', fire (P2.onEvict c) k (value (deref (P2.evictList c) e)) w)
        ∧ unlinks k e (P2.evictList c) (P2.evictList c')
                  (P2.items c) (P2.items c')
                  (P2.itemExpiries c) (P2.itemExpiries c')
        ∧ P2.size c' = P2.size c ∧ P2.onEvict c' = P2.onEvict c
        ∧ P2.itemTTL c' = P2.itemTTL c
        ∧ P2.expiryBasedEvict c' = P2.expiryBasedEvict c
        ∧ P2.wf c'.
Proof.
  intros Hw Hk.
  destruct (unlinks_linked _ _ (P2.itemExpiries c) _ _ Hw Hk) as (Hkey & Hu & Hl).
  eexists. unfold P2.removeElement. rewrite Hkey. split; [reflexivity|].
  split; [exact Hu|]. repeat (split; [reflexivity|]). exact Hl.
Qed.

(** C7. [Remove] on a key that is resident unlinks its node, deletes its
    entry of the index and its expiry record and calls the callback with
    the key and its value, whether the entry has expired or not; the
    result is [true] exactly when no elapsed expiry is recorded for the
    key at the reading of the clock. On an absent key the result is
    [false] and nothing changes. *)
Theorem remove_key k (c1 : P1.LRU K V E) (c2 : P2.LRU K V E) w :
  P1.wf c1 → P2.wf c2 →
  match P1.items c1 !! k with
  | Some e =>
      ∃ c' w',
        P1.Remove clock k c1 w
        = (negb (elapsed (P1.itemExpiries c1) (clock (tick w)) k), c', w')
        ∧ unlinks k e (P1.evictList c1) (P1.evictList c')
                  (P1.items c1) (P1.items c')
                  (P1.itemExpiries c1) (P1.itemExpiries c')
        ∧ env w' = notify (P1.onEvict c1) k
                          (value (deref (P1.evictList c1) e)) (env w)
  | None => P1.Remove clock k c1 w = (false, c1, w)
  end
  ∧ match P2.items c2 !! k with
    | Some e =>
        ∃ c' w',
          P2.Remove clock k c2 w
          = (negb (elapsed (P2.itemExpiries c2) (clock (tick w)) k), c', w')
          ∧ unlinks k e (P2.evictList c2) (P2.evictList c')
                    (P2.items c2) (P2.items c')
                    (P2.itemExpiries c2) (P2.itemExpiries c')
          ∧ env w' = notify (P2.onEvict c2) k
                            (value (deref (P2.evictList c2) e)) (env w)
    | None => P2.Remove clock k c2 w = (false, c2, w)
    end.
Proof.
  intros Hw1 Hw2. split.
  - unfold P1.Remove. destruct (P1.items c1 !! k) as [e|] eqn:Hk; [|done].
    destruct (KeyHasExpired_elapsed1 k c1 w) as (w1 & -> & Henv & _).
    destruct (removeElement_key1 k e c1 w1 Hw1 Hk) as (c' & -> & Hu & _).
    exists c'. eexists. split; [reflexivity|]. split; [done|].
    destruct (env_fire (P1.onEvict c1) k (value (deref (P1.evictList c1) e)) w1)
      as [-> _].
    by rewrite Henv.
  - unfold P2.Remove. destruct (P2.items c2 !! k) as [e|] eqn:Hk; [|done].
    destruct (keyHasExpired_elapsed2 k c2 w) as (w1 & -> & Henv & _).
    destruct (removeElement_key2 k e c2 w1 Hw2 Hk) as (c' & -> & Hu & _).
    exists c'. eexists.
    split; [by destruct (elapsed _ _ _)|]. split; [done|].
    destruct (env_fire (P2.onEvict c2) k (value (deref (P2.evictList c2) e)) w1)
      as [-> _].
    by rewrite Henv.
Qed.
(** C8, as amended. [Contains] and [Peek] never reorder the list. On an
    absent key they return [false] and change nothing. On a resident key
    without an elapsed expiry they return [true], [Peek] with the value,
    and change nothing. On a resident key whose expiry has elapsed the
    engine of part_001 unlinks the entry (node, index entry, expiry
    record, callback), the other nodes keep their order, and [Contains]
    returns [false]; the engine of part_002 leaves the cache as it is. *)
Theorem contains_peek k (c1 : P1.LRU K V E) (c2 : P2.LRU K V E) w :
  P1.wf c1 → P2.wf c2 →
  match P1.items c1 !! k with
  | Some e =>
      if elapsed (P1.itemExpiries c1) (clock (tick w)) k
      then ∃ c' w',
          P1.Contains clock k c1 w = (false, c', w')
          ∧ (P1.Peek clock k c1 w).1.2 = c'
          ∧ (P1.Peek clock k c1 w).2 = w'
          ∧ unlinks k e (P1.evictList c1) (P1.evictList c')
                    (P1.items c1) (P1.items c')
                    (P1.itemExpiries c1) (P1.itemExpiries c')
          ∧ env w' = notify (P1.onEvict c1) k
                            (value (deref (P1.evictList c1) e)) (env w)
      else ∃ w',
          P1.Contains clock k c1 w = (true, c1, w')
          ∧ P1.Peek clock k c1 w
            = ((value (deref (P1.evictList c1) e), true), c1, w')
          ∧ env w' = env w
  | None =>
      P1.Contains clock k c1 w = (false, c1, w)
      ∧ P1.Peek clock k c1 w = ((zero, false), c1, w)
  end
  ∧ (P2.Contains clock k c2 w).1.2 = c2
  ∧ (P2.Peek clock k c2 w).1.2 = c2
  ∧ env (P2.Contains clock k c2 w).2 = env w
  ∧ env (P2.Peek clock k c2 w).2 = env w
  ∧ match P2.items c2 !! k with
    | Some e =>
        elapsed (P2.itemExpiries c2) (clock (tick w)) k = false →
        (P2.Contains clock k c2 w).1.1 = true
        ∧ (P2.Peek clock k c2 w).1.1
          = (value (deref (P2.evictList c2) e), true)
    | None =>
        (P2.Contains clock k c2 w).1.1 = false
        ∧ (P2.Peek clock k c2 w).1.1 = (zero, false)
    end.
Proof.
  intros Hw1 Hw2. split.
  - unfold P1.Contains, P1.Peek.
    destruct (P1.items c1 !! k) as [e|] eqn:Hk; [|done].
    destruct (KeyHasExpired_elapsed1 k c1 w) as (w1 & -> & Henv & _).
    destruct (removeElement_key1 k e c1 w1 Hw1 Hk) as (c' & -> & Hu & _).
    destruct (elapsed _ _ _); cbn [negb fst snd].
    + exists c'. eexists. repeat (split; [reflexivity|]). split; [done|].
      destruct (env_fire (P1.onEvict c1) k
                  (value (deref (P1.evictList c1) e)) w1) as [-> _].
      by rewrite Henv.
    + by exists w1.
  - unfold P2.Contains, P2.Peek.
    destruct (P2.items c2 !! k) as [e|] eqn:Hk.
    + rewrite bool_decide_eq_true_2 by by eexists.
      destruct (keyHasExpired_elapsed2 k c2 w) as (w1 & -> & Henv & _).
      destruct (elapsed _ _ _); simpl; repeat (split; [done|]); done.
    + rewrite bool_decide_eq_false_2 by by intros [? ?].
      done.
Qed.
End OneKey.

(** The overwrite on the sample caches: key 1 is present in [a2] and in
    [b3]. *)
Lemma add_present_key_witness :
  P1.wf Sample.a2 ∧ P1.items Sample.a2 !! 1 = Some 0%nat
  ∧ P2.wf Sample.b3 ∧ P2.items Sample.b3 !! 1 = Some 0%nat
  ∧ ∃ c1' w1' c2' w2',
      P1.Add (Sample.since 20) 1 99 Sample.a2 Sample.start = (false, c1', w1')
      ∧ overwrites 1 99 0%nat (P1.evictList Sample.a2) (P1.evictList c1')
      ∧ env w1' = [(1, 11)]
      ∧ P2.Add (Sample.since 20) 1 99 Sample.b3 Sample.start = (false, c2', w2')
      ∧ overwrites 1 99 0%nat (P2.evictList Sample.b3) (P2.evictList c2')
      ∧ env w2' = [(1, 11)].
Proof.
  assert (H1 : P1.wf Sample.a2) by compute_done.
  assert (H2 : P1.items Sample.a2 !! 1 = Some 0%nat) by compute_done.
  assert (H3 : P2.wf Sample.b3) by compute_done.
  assert (H4 : P2.items Sample.b3 !! 1 = Some 0%nat) by compute_done.
  repeat (split; [assumption|]).
  destruct (add_present_key (Sample.since 20) 1 99 0 Sample.a2 Sample.b3
              Sample.start 0%nat 0%nat H1 H2 H3 H4)
    as [(c1' & w1' & Hadd1 & Heq & He1 & _ & Ho1 & _)
        (c2' & w2' & Hadd2 & He2 & _ & Ho2 & _)].
  exists c1', w1', c2', w2'. rewrite Heq, Hadd1, Hadd2, He1, He2.
  repeat (split; [done|]). done.
Defined.

(** The removal on the sample caches, at an instant when the expiry of key 1
    has elapsed in both. *)
Lemma remove_key_witness :
  P1.wf Sample.a2 ∧ P2.wf Sample.b3
  ∧ (∃ c' w', P1.Remove (Sample.since 100) 1 Sample.a2 Sample.start
              = (false, c', w')
              ∧ P1.items c' = delete 1 (P1.items Sample.a2)
              ∧ env w' = [(1, 11)])
  ∧ (∃ c' w', P2.Remove (Sample.since 100) 1 Sample.b3 Sample.start
              = (false, c', w')
              ∧ P2.items c' = delete 1 (P2.items Sample.b3)
              ∧ env w' = [(1, 11)]).
Proof.
  assert (H1 : P1.wf Sample.a2) by compute_done.
  assert (H2 : P2.wf Sample.b3) by compute_done.
  repeat (split; [assumption|]).
  destruct (remove_key (Sample.since 100) 1 Sample.a2 Sample.b3 Sample.start
              H1 H2) as [Ha Hb].
  assert (Hk1 : P1.items Sample.a2 !! 1 = Some 0%nat) by compute_done.
  assert (Hk2 : P2.items Sample.b3 !! 1 = Some 0%nat) by compute_done.
  rewrite Hk1 in Ha. rewrite Hk2 in Hb.
  destruct Ha as (c1' & w1' & Hr1 & Hu1 & He1).
  destruct Hb as (c2' & w2' & Hr2 & Hu2 & He2).
  split.
  - exists c1', w1'. split; [exact Hr1|]. split; [apply Hu1|].
    rewrite He1. reflexivity.
  - exists c2', w2'. split; [exact Hr2|]. split; [apply Hu2|].
    rewrite He2. reflexivity.
Defined.

(** C8, the claim fails: key 1 is resident in [b3] and its expiry has
    elapsed at the instant 100, yet [Contains] and [Peek] of part_002
    answer [true] and leave the entry where it is; [Peek] of part_001
    answers [true] too on the expired key 1 of [a2]. *)
Lemma contains_peek_counterexample :
  P2.items Sample.b3 !! 1 = Some 0%nat
  ∧ elapsed (P2.itemExpiries Sample.b3) 100 1 = true
  ∧ (P2.Contains (Sample.since 100) 1 Sample.b3 Sample.start).1
    = (true, Sample.b3)
  ∧ (P2.Peek (Sample.since 100) 1 Sample.b3 Sample.start).1
    = ((0, true), Sample.b3)
  ∧ P1.items Sample.a2 !! 1 = Some 0%nat
  ∧ elapsed (P1.itemExpiries Sample.a2) 100 1 = true
  ∧ (P1.Peek (Sample.since 100) 1 Sample.a2 Sample.start).1.1 = (0, true).
Proof. repeat split; vm_compute; reflexivity. Qed.

(** [Contains] and [Peek] on the sample caches at the instant 100, when the
    expiry of key 1 has elapsed: part_001 drops the entry. *)
Lemma contains_peek_witness :
  P1.wf Sample.a2 ∧ P2.wf Sample.b3
  ∧ (∃ c' w', P1.Contains (Sample.since 100) 1 Sample.a2 Sample.start
              = (false, c', w')
              ∧ P1.items c' = delete 1 (P1.items Sample.a2)
              ∧ env w' = [(1, 11)])
  ∧ (P2.Contains (Sample.since 100) 1 Sample.b3 Sample.start).1.2 = Sample.b3.
Proof.
  assert (H1 : P1.wf Sample.a2) by compute_done.
  assert (H2 : P2.wf Sample.b3) by compute_done.
  repeat (split; [assumption|]).
  destruct (contains_peek (Sample.since 100) 1 Sample.a2 Sample.b3 Sample.start
              H1 H2) as (Ha & Hb & _).
  assert (Hk1 : P1.items Sample.a2 !! 1 = Some 0%nat) by compute_done.
  assert (Hx1 : elapsed (P1.itemExpiries Sample.a2)
                  (Sample.since 100 (tick Sample.start)) 1 = true) by compute_done.
  rewrite Hk1, Hx1 in Ha.
  destruct Ha as (c1' & w1' & Hr1 & _ & _ & Hu1 & He1).
  split; [|exact Hb].
  exists c1', w1'. split; [exact Hr1|]. split; [apply Hu1|].
  rewrite He1. reflexivity.
Defined.

(** * The oldest entry *)

Section Oldest.
Context `{Countable K} {V E : Type} `{!Zero K, !Zero V}.
Variable clock : nat → Z.
Implicit Types (k : K) (v : V) (w : World E) (e : ref).

(** The loop of [getOldest] started on the whole list, or on what is left
    of it: the nodes [purged] are visited and removed, their expiries had
    elapsed; the walk stops at the first node of [kept], whose expiry has
    not elapsed, or at the front. *)
Lemma getOldestFrom_spec es : ∀ (c : P1.LRU K V E) w,
  P1.wf c → order (P1.evictList c) = reverse es →
  ∃ purged kept c' w',
    es = purged ++ kept
    ∧ P1.getOldestFrom clock es c w = (head kept, c', w')
    ∧ order (P1.evictList c') = reverse kept
    ∧ cells (P1.evictList c') = cells (P1.evictList c)
    ∧ P1.items c' = dropKeys (P1.items c) (nodeKeys (P1.evictList c) purged)
    ∧ P1.itemExpiries c'
      = dropKeys (P1.itemExpiries c) (nodeKeys (P1.evictList c) purged)
    ∧ (P1.size c' = P1.size c ∧ P1.onEvict c' = P1.onEvict c
       ∧ P1.itemTTL c' = P1.itemTTL c)
    ∧ P1.wf c'
    ∧ (tick w ≤ tick w')%nat
    ∧ env w' = notifyAll (P1.onEvict c) (P1.evictList c) purged (env w)
    ∧ Forall (lapsed clock (tick w) (P1.itemExpiries c))
             (nodeKeys (P1.evictList c) purged)
    ∧ (∀ e, head kept = Some e →
            alive clock (tick w) (P1.itemExpiries c)
                  (key (deref (P1.evictList c) e))).
Proof.
  induction es as [|e es IH]; intros c w Hwf Hord.
  { exists [], [], c, w. simpl. rewrite !dropKeys_nil.
    repeat (split; [done|]). intros ? [=]. }
  rewrite reverse_cons in Hord.
  assert (Hnd : NoDup (reverse es ++ [e])) by (rewrite <- Hord; apply Hwf).
  assert (Hin : e ∈ order (P1.evictList c)).
  { rewrite Hord, elem_of_app. right. by left. }
  destruct (linked_node _ _ _ Hwf Hin) as (ent & Hc & Hi).
  pose proof (deref_cell _ _ _ Hc) as Hd.
  cbn [P1.getOldestFrom]. rewrite Hd.
  destruct (KeyHasExpired_elapsed1 clock (key ent) c w)
    as (w1 & -> & Henv1 & Htick1).
  destruct (elapsed _ _ _) eqn:Hel; cbn [negb].
  - (* the node has expired: it is removed and the walk goes on *)
    destruct (removeElement_key1 (key ent) e c w1 Hwf Hi)
      as (c2 & -> & Hu & Hsz & Hcb & Httl & Hwf2).
    destruct Hu as (Ho2 & _ & Hc2 & Hi2 & Hx2).
    assert (Hord2 : order (P1.evictList c2) = reverse es).
    { rewrite Ho2, Hord. by apply filter_ne_snoc. }
    set (w2 := fire (P1.onEvict c) (key ent)
                    (value (deref (P1.evictList c) e)) w1).
    destruct (env_fire (P1.onEvict c) (key ent)
                (value (deref (P1.evictList c) e)) w1) as [Hfe Hft].
    fold w2 in Hfe, Hft.
    destruct (IH c2 w2 Hwf2 Hord2)
      as (purged & kept & c' & w' & -> & -> & Ho & Hcs & Hit & Hex & Hf
          & Hwf' & Htick & Henv & Hlapsed & Halive).
    exists (e :: purged), kept, c', w'.
    split; [done|]. split; [done|]. split; [done|].
    split; [by rewrite Hcs|].
    rewrite (nodeKeys_cells _ _ _ Hc2) in Hit, Hex, Hlapsed.
    split; [by rewrite Hit, Hi2, dropKeys_delete; cbn; rewrite Hd|].
    split; [by rewrite Hex, Hx2, dropKeys_delete; cbn; rewrite Hd|].
    split; [destruct Hf as (-> & -> & ->); by rewrite Hsz, Hcb, Httl|].
    split; [done|]. split; [rewrite Hft in Htick; lia|].
    split.
    { rewrite Henv, Hcb, (notifyAll_cells _ _ _ _ _ Hc2), Hfe, Henv1.
      cbn. by rewrite Hd. }
    split.
    { cbn. rewrite Hd. constructor.
      - unfold elapsed, Before in Hel.
        destruct (P1.itemExpiries c !! key ent) as [x|] eqn:Hx; [|done].
        exists x, (tick w). split; [done|]. split; [done|]. lia.
      - eapply Forall_impl; [exact Hlapsed|]. intros k (x & t & Hk & Ht & Hlt).
        rewrite Hx2 in Hk. apply lookup_delete_Some in Hk as [_ Hk].
        exists x, t. split; [done|]. split; [|done]. rewrite Hft in Ht. lia. }
    intros e' He' x Hx.
    assert (He'in : e' ∈ purged ++ kept).
    { apply elem_of_app. right. destruct kept; simplify_eq/=. by left. }
    assert (Hne : key (deref (P1.evictList c) e') ≠ key ent).
    { rewrite <- Hd. intros Hk.
      apply (linked_key_inj _ _ _ _ Hwf) in Hk; [|rewrite Hord, elem_of_app; left;
        by apply elem_of_reverse|done].
      subst e'. apply NoDup_app in Hnd as (_ & Hdis & _).
      apply (Hdis e); [by apply elem_of_reverse|by left]. }
    destruct (Halive e' He' x) as (t & Ht & Hle).
    { unfold deref. rewrite Hc2. fold (deref (P1.evictList c) e').
      rewrite Hx2. by rewrite lookup_delete_ne. }
    exists t. split; [|done]. rewrite Hft in Ht. lia.
  - (* the node has not expired: it is the oldest *)
    exists [], (e :: es), c, w1. cbn [app head].
    change (nodeKeys (P1.evictList c) []) with (@nil K).
    rewrite !dropKeys_nil.
    split; [done|]. split; [done|]. split; [by rewrite reverse_cons|].
    split; [done|]. split; [done|]. split; [done|]. split; [done|].
    split; [done|]. split; [lia|]. split; [done|]. split; [constructor|].
    intros e' [= Heq] x Hx. subst e'. rewrite Hd in Hx.
    unfold elapsed, Before in Hel. rewrite Hx in Hel.
    exists (tick w). split; [done|]. lia.
Qed.
Lemma nodeKeys_reverse (l : lruList K V) es :
  nodeKeys l (reverse es) = reverse (nodeKeys l es).
Proof. apply fmap_reverse. Qed.

(** [getOldest(false)]: the entries [stale] at the back of the list are
    removed, the node now at the back is returned. *)
Lemma getOldest_false_spec (c : P1.LRU K V E) w :
  P1.wf c →
  ∃ stale c' w',
    P1.getOldest clock false c w = (last (order (P1.evictList c')), c', w')
    ∧ order (P1.evictList c) = order (P1.evictList c') ++ stale
    ∧ cells (P1.evictList c') = cells (P1.evictList c)
    ∧ P1.items c' = dropKeys (P1.items c) (nodeKeys (P1.evictList c) stale)
    ∧ P1.itemExpiries c'
      = dropKeys (P1.itemExpiries c) (nodeKeys (P1.evictList c) stale)
    ∧ (P1.size c' = P1.size c ∧ P1.onEvict c' = P1.onEvict c
       ∧ P1.itemTTL c' = P1.itemTTL c)
    ∧ P1.wf c'
    ∧ (tick w ≤ tick w')%nat
    ∧ env w' = notifyAll (P1.onEvict c) (P1.evictList c) (reverse stale) (env w)
    ∧ Forall (lapsed clock (tick w) (P1.itemExpiries c))
             (nodeKeys (P1.evictList c) stale)
    ∧ (∀ e, last (order (P1.evictList c')) = Some e →
            alive clock (tick w) (P1.itemExpiries c)
                  (key (deref (P1.evictList c) e))).
Proof.
  intros Hwf.
  destruct (getOldestFrom_spec (reverse (order (P1.evictList c))) c w Hwf)
    as (purged & kept & c' & w' & Hes & Hg & Ho & Hcs & Hit & Hex & Hf
        & Hwf' & Htick & Henv & Hlapsed & Halive).
  { by rewrite reverse_involutive. }
  exists (reverse purged), c', w'.
  assert (Hks : ∀ k, k ∈ nodeKeys (P1.evictList c) purged
                     ↔ k ∈ nodeKeys (P1.evictList c) (reverse purged)).
  { intros k. by rewrite nodeKeys_reverse, elem_of_reverse. }
  split.
  { unfold P1.getOldest. rewrite andb_false_r. unfold backToFront.
    by rewrite Hg, Ho, last_reverse. }
  split.
  { rewrite Ho, <- reverse_app, <- Hes. by rewrite reverse_involutive. }
  split; [done|].
  split; [by rewrite Hit; apply dropKeys_perm|].
  split; [by rewrite Hex; apply dropKeys_perm|].
  split; [done|]. split; [done|]. split; [done|].
  split; [by rewrite reverse_involutive|].
  split; [by rewrite nodeKeys_reverse, Forall_reverse|].
  intros e He. apply Halive. by rewrite Ho, last_reverse in He.
Qed.

(** C5, as amended. On an empty cache [GetOldest] returns found = false
    and changes nothing. The engine of part_002 never changes the cache,
    and on a cache that is not empty it returns key and value of the node
    at the back with found = true when no elapsed expiry is recorded for
    the zero key. The engine of part_001 first removes the entries
    [stale] at the back whose expiry it finds elapsed (node, index entry,
    expiry record, callback), leaves the other nodes in their order, and
    returns key and value of the node then at the back with found = true,
    or found = false when no node is left; when the expiry of the node at
    the back has not elapsed at the first reading, nothing is removed. *)
Theorem get_oldest (c1 : P1.LRU K V E) (c2 : P2.LRU K V E) w :
  P1.wf c1 →
  (∃ stale c' w',
      P1.GetOldest clock c1 w
      = (match last (order (P1.evictList c')) with
         | Some e => (key (deref (P1.evictList c1) e),
                      value (deref (P1.evictList c1) e), true)
         | None => (zero, zero, false)
         end, c', w')
      ∧ order (P1.evictList c1) = order (P1.evictList c') ++ stale
      ∧ cells (P1.evictList c') = cells (P1.evictList c1)
      ∧ P1.items c'
        = dropKeys (P1.items c1) (nodeKeys (P1.evictList c1) stale)
      ∧ P1.itemExpiries c'
        = dropKeys (P1.itemExpiries c1) (nodeKeys (P1.evictList c1) stale)
      ∧ env w' = notifyAll (P1.onEvict c1) (P1.evictList c1)
                           (reverse stale) (env w)
      ∧ Forall (lapsed clock (tick w) (P1.itemExpiries c1))
               (nodeKeys (P1.evictList c1) stale)
      ∧ (∀ e, last (order (P1.evictList c')) = Some e →
              alive clock (tick w) (P1.itemExpiries c1)
                    (key (deref (P1.evictList c1) e))))
  ∧ match back (P1.evictList c1) with
    | Some e =>
        elapsed (P1.itemExpiries c1) (clock (tick w))
                (key (deref (P1.evictList c1) e)) = false →
        (P1.GetOldest clock c1 w).1
        = ((key (deref (P1.evictList c1) e),
            value (deref (P1.evictList c1) e), true), c1)
    | None => P1.GetOldest clock c1 w = ((zero, zero, false), c1, w)
    end
  ∧ (P2.GetOldest clock c2 w).1.2 = c2
  ∧ env (P2.GetOldest clock c2 w).2 = env w
  ∧ match back (P2.evictList c2) with
    | Some e =>
        elapsed (P2.itemExpiries c2) (clock (tick w)) zero = false →
        (P2.GetOldest clock c2 w).1.1
        = (key (deref (P2.evictList c2) e),
           value (deref (P2.evictList c2) e), true)
    | None => P2.GetOldest clock c2 w = ((zero, zero, false), c2, w)
    end.
Proof.
  intros Hwf. split; [|split].
  - destruct (getOldest_false_spec c1 w Hwf)
      as (stale & c' & w' & Hg & Ho & Hcs & Hit & Hex & _ & _ & _ & Henv
          & Hl & Ha).
    exists stale, c', w'. split; [|done].
    unfold P1.GetOldest. rewrite Hg.
    assert (Hd : ∀ e, deref (P1.evictList c') e = deref (P1.evictList c1) e).
    { intros e. unfold deref. by rewrite Hcs. }
    destruct (last _); [by rewrite Hd|done].
  - unfold P1.GetOldest, P1.getOldest, backToFront, back.
    rewrite andb_false_r.
    destruct (last (order (P1.evictList c1))) as [e|] eqn:Hb.
    + intros Hel. apply last_Some in Hb as [l' Hb].
      rewrite Hb, reverse_snoc. cbn [P1.getOldestFrom].
      destruct (KeyHasExpired_elapsed1 clock
                  (key (deref (P1.evictList c1) e)) c1 w)
        as (w1 & -> & _). by rewrite Hel.
    + apply last_None in Hb. by rewrite Hb.
  - unfold P2.GetOldest.
    destruct (back (P2.evictList c2)) as [e|]; [|done].
    destruct (keyHasExpired_elapsed2 clock zero c2 w) as (w1 & -> & Henv & _).
    destruct (elapsed _ _ _); cbn [negb fst snd]; repeat (split; [done|]);
      done.
Qed.
End Oldest.

(** C5, the claim fails: the node at the back of [a2] carries key 1, whose
    expiry 50 has elapsed at the instant 100; [GetOldest] of part_001
    removes this entry and returns key 2, the entry before it. *)
Lemma get_oldest_counterexample :
  back (P1.evictList Sample.a2) = Some 0%nat
  ∧ deref (P1.evictList Sample.a2) 0%nat = mkEntry 1 11
  ∧ P1.items Sample.a2 !! 1 = Some 0%nat
  ∧ (P1.GetOldest (Sample.since 100) Sample.a2 Sample.start).1.1 = (2, 22, true)
  ∧ P1.items (P1.GetOldest (Sample.since 100) Sample.a2 Sample.start).1.2 !! 1
    = None
  ∧ order (P1.evictList
             (P1.GetOldest (Sample.since 100) Sample.a2 Sample.start).1.2)
    = [1%nat].
Proof. repeat split; vm_compute; reflexivity. Qed.

(** [GetOldest] on the sample caches at the instant 100. *)
Lemma get_oldest_witness :
  P1.wf Sample.a2
  ∧ (∃ stale c' w',
        (P1.GetOldest (Sample.since 100) Sample.a2 Sample.start).1.2 = c'
        ∧ (P1.GetOldest (Sample.since 100) Sample.a2 Sample.start).2 = w'
        ∧ order (P1.evictList Sample.a2) = order (P1.evictList c') ++ stale)
  ∧ (P2.GetOldest (Sample.since 100) Sample.b3 Sample.start).1.2 = Sample.b3.
Proof.
  assert (H1 : P1.wf Sample.a2) by compute_done.
  split; [assumption|].
  destruct (get_oldest (Sample.since 100) Sample.a2 Sample.b3 Sample.start H1)
    as ((stale & c' & w' & Hg & Ho & _) & _ & Hb & _).
  split; [|exact Hb].
  exists stale, c', w'. rewrite Hg. done.
Defined.



(** * Reading an expired key, moving a key to another cache *)

Section Expired.
Context `{Countable K} {V E : Type} `{!Zero K, !Zero V}.
Variable clock : nat → Z.
Implicit Types (k : K) (v : V) (w : World E) (e : ref).

(** C2, what the code does on a resident key whose expiry has elapsed at
    the reading of the clock: [Get] returns found = false and leaves the
    entry in the cache, in both engines; the call of [removeElement] in
    [Get] of part_001 is behind the test that has just failed. *)
Theorem get_keeps_expired k (c1 : P1.LRU K V E) (c2 : P2.LRU K V E) w e1 e2 :
  P1.items c1 !! k = Some e1 →
  elapsed (P1.itemExpiries c1) (clock (tick w)) k = true →
  P2.items c2 !! k = Some e2 →
  elapsed (P2.itemExpiries c2) (clock (tick w)) k = true →
  (P1.Get clock k c1 w).1 = ((zero, false), c1)
  ∧ (P2.Get clock k c2 w).1 = ((zero, false), c2).
Proof.
  intros Hk1 Hx1 Hk2 Hx2. unfold P1.Get, P2.Get. rewrite Hk1, Hk2.
  destruct (KeyHasExpired_elapsed1 clock k c1 w) as (w1 & -> & _).
  destruct (keyHasExpired_elapsed2 clock k c2 w) as (w2 & -> & _).
  by rewrite Hx1, Hx2.
Qed.

(** [Get] on an absent key: found = false, nothing changes. *)
Lemma Get_absent k (c1 : P1.LRU K V E) (c2 : P2.LRU K V E) w :
  (P1.items c1 !! k = None → P1.Get clock k c1 w = ((zero, false), c1, w))
  ∧ (P2.items c2 !! k = None → P2.Get clock k c2 w = ((zero, false), c2, w)).
Proof. unfold P1.Get, P2.Get. split; by intros ->. Qed.

(** [Get] on a resident key whose expiry has not elapsed (in part_001: at
    either of the two readings): the node is moved to the front and its
    value is returned with found = true. *)
Lemma Get_hit k (c1 : P1.LRU K V E) (c2 : P2.LRU K V E) w e1 e2 :
  (P1.items c1 !! k = Some e1 →
   elapsed (P1.itemExpiries c1) (clock (tick w)) k = false →
   elapsed (P1.itemExpiries c1)
           (clock (tick (P1.KeyHasExpired clock k c1 w).2)) k = false →
   (P1.Get clock k c1 w).1
   = ((value (deref (P1.evictList c1) e1), true),
      P1.withList c1 (moveToFront e1 (P1.evictList c1))))
  ∧ (P2.items c2 !! k = Some e2 →
     elapsed (P2.itemExpiries c2) (clock (tick w)) k = false →
     (P2.Get clock k c2 w).1
     = ((value (deref (P2.evictList c2) e2), true),
        P2.withList c2 (moveToFront e2 (P2.evictList c2)))).
Proof.
  assert (Hd : ∀ (l : lruList K V) e, deref (moveToFront e l) e = deref l e).
  { intros l e. unfold moveToFront, deref. by destruct (decide _). }
  unfold P1.Get, P2.Get. split.
  - intros -> Hx1.
    destruct (KeyHasExpired_elapsed1 clock k c1 w) as (w1 & -> & _).
    rewrite Hx1. cbn [negb snd]. intros Hx2.
    destruct (KeyHasExpired_elapsed1 clock k c1 w1) as (w2 & -> & _).
    rewrite Hx2. cbn [negb fst]. by rewrite Hd.
  - intros -> Hx1.
    destruct (keyHasExpired_elapsed2 clock k c2 w) as (w1 & -> & _).
    rewrite Hx1. cbn [negb fst]. by rewrite Hd.
Qed.

(** The removal in [Get] of part_001 is reached when the expiry of the key
    elapses between the two readings of the clock. *)
Lemma Get_between k (c : P1.LRU K V E) w e :
  P1.wf c → P1.items c !! k = Some e →
  elapsed (P1.itemExpiries c) (clock (tick w)) k = false →
  elapsed (P1.itemExpiries c)
          (clock (tick (P1.KeyHasExpired clock k c w).2)) k = true →
  (P1.Get clock k c w).1.1 = (zero, false)
  ∧ P1.items (P1.Get clock k c w).1.2 = delete k (P1.items c).
Proof.
  intros Hwf Hk Hx1. unfold P1.Get. rewrite Hk.
  destruct (KeyHasExpired_elapsed1 clock k c w) as (w1 & -> & _).
  rewrite Hx1. cbn [negb snd]. intros Hx2.
  destruct (KeyHasExpired_elapsed1 clock k c w1) as (w2 & -> & _).
  rewrite Hx2. cbn [negb].
  destruct (removeElement_key1 k e c w2 Hwf Hk) as (c' & -> & Hu & _).
  cbn [fst snd]. split; [done|]. apply Hu.
Qed.

(** [Remove] leaves no expiry behind for the key. *)
Lemma Remove_expiry k (c : P1.LRU K V E) w :
  P1.wf c →
  P1.itemExpiries c !! k = None ∨ is_Some (P1.items c !! k) →
  P1.itemExpiries (P1.Remove clock k c w).1.2 !! k = None
  ∧ P1.items (P1.Remove clock k c w).1.2 !! k = None.
Proof.
  intros Hwf Hor. unfold P1.Remove.
  destruct (P1.items c !! k) as [e|] eqn:Hk.
  - destruct (KeyHasExpired_elapsed1 clock k c w) as (w1 & -> & _).
    destruct (removeElement_key1 k e c w1 Hwf Hk)
      as (c' & -> & (_ & _ & _ & Hi & Hx) & _).
    cbn [fst snd]. by rewrite Hi, Hx, !lookup_delete_eq.
  - destruct Hor as [Hx|[? ?]]; done.
Qed.

(** C3, what the code does: whenever [MoveItem] reports moved = true, the
    key is gone from [src] together with its expiry, and the expiry that
    [dest.AddWithExp] receives is what [src.ExpiryForKey] answers after
    the removal, the zero time. *)
Theorem move_item_zero_expiry k (dest src : P1.LRU K V E) w
    (r : V * bool) (dest' src' : P1.LRU K V E) w' :
  P1.wf src →
  P1.MoveItem clock k dest src w = (r, dest', src', w') →
  r.2 = true →
  P1.items src' !! k = None
  ∧ P1.ExpiryForKey k src' = 0
  ∧ ∃ w3, dest' = (P1.AddWithExp clock k r.1 0 dest w3).1.2.
Proof.
  intros Hwf. unfold P1.MoveItem, P1.Peek.
  destruct (P1.items src !! k) as [e|] eqn:Hk; [|by intros [= <- _ _ _]].
  destruct (KeyHasExpired_elapsed1 clock k src w) as (w1 & -> & _).
  destruct (removeElement_key1 k e src w1 Hwf Hk)
    as (c' & -> & (_ & _ & _ & Hi & Hx) & _ & _ & _ & Hwf').
  destruct (elapsed _ _ _); cbn [negb].
  - (* the entry had expired: [Peek] has removed it and yet answers true *)
    assert (Hx' : P1.itemExpiries c' !! k = None)
      by by rewrite Hx, lookup_delete_eq.
    unfold P1.KeyHasExpired. rewrite Hx'. cbn [negb].
    destruct (Remove_expiry k c' (fire (P1.onEvict src) k
                (value (deref (P1.evictList src) e)) w1) Hwf' (or_introl Hx'))
      as [Hx2 Hi2].
    destruct (P1.Remove _ _ _ _) as [[b src2] w3] eqn:Hr. cbn [fst snd] in *.
    unfold P1.ExpiryForKey. rewrite Hx2. cbn [default].
    destruct (P1.AddWithExp clock k zero 0 dest w3) as [[b' d'] w4] eqn:Ha.
    intros [= <- <- <- <-] _. split; [done|]. split; [by rewrite Hx2|].
    exists w3. cbn [fst]. by rewrite Ha.
  - destruct (KeyHasExpired_elapsed1 clock k src w1) as (w2 & -> & _).
    destruct (elapsed _ _ _); cbn [negb]; [by intros [= <- _ _ _]|].
    destruct (Remove_expiry k src w2 Hwf (or_intror (ex_intro _ e Hk)))
      as [Hx2 Hi2].
    destruct (P1.Remove _ _ _ _) as [[b src2] w3] eqn:Hr. cbn [fst snd] in *.
    unfold P1.ExpiryForKey. rewrite Hx2. cbn [default].
    destruct (P1.AddWithExp clock k _ 0 dest w3) as [[b' d'] w4] eqn:Ha.
    intros [= <- <- <- <-] _. split; [done|]. split; [by rewrite Hx2|].
    exists w3. cbn [fst]. by rewrite Ha.
Qed.
End Expired.

(** C2 on the sample cache [a1] (and [b3]): the expiry 50 of key 1 has
    elapsed at the instant 100, [Get] answers found = false and key 1 is
    still in the index and in the list. *)
Lemma get_keeps_expired_witness :
  P1.items Sample.a1 !! 1 = Some 0%nat
  ∧ elapsed (P1.itemExpiries Sample.a1) 100 1 = true
  ∧ (P1.Get (Sample.since 100) 1 Sample.a1 Sample.start).1
    = ((0, false), Sample.a1)
  ∧ order (P1.evictList
             (P1.Get (Sample.since 100) 1 Sample.a1 Sample.start).1.2)
    = [0%nat].
Proof.
  assert (H1 : P1.items Sample.a1 !! 1 = Some 0%nat) by compute_done.
  assert (H2 : elapsed (P1.itemExpiries Sample.a1)
                 (Sample.since 100 (tick Sample.start)) 1 = true) by compute_done.
  assert (H3 : P2.items Sample.b3 !! 1 = Some 0%nat) by compute_done.
  assert (H4 : elapsed (P2.itemExpiries Sample.b3)
                 (Sample.since 100 (tick Sample.start)) 1 = true) by compute_done.
  destruct (get_keeps_expired (Sample.since 100) 1 Sample.a1 Sample.b3
              Sample.start 0%nat 0%nat H1 H2 H3 H4) as [Hg _].
  split; [exact H1|]. split; [exact H2|]. split; [exact Hg|].
  rewrite Hg. reflexivity.
Defined.

(** C3 on the sample caches: key 7 is in [a7] with the value 77 and the
    expiry 500, and has not expired at the instant 100. [MoveItem] to the
    empty cache [a0] returns the value with moved = true, the key is gone
    from the source and resident in the destination with its value, but the
    destination records no expiry for it: [ExpiryForKey] answers the zero
    time there. *)
Lemma move_item_zero_expiry_witness :
  P1.wf Sample.a7
  ∧ P1.ExpiryForKey 7 Sample.a7 = 500
  ∧ elapsed (P1.itemExpiries Sample.a7) 100 7 = false
  ∧ (P1.MoveItem (Sample.since 100) 7 Sample.a0 Sample.a7 Sample.start).1.1.1
    = (77, true)
  ∧ P1.items
      (P1.MoveItem (Sample.since 100) 7 Sample.a0 Sample.a7 Sample.start).1.2
    !! 7 = None
  ∧ P1.items
      (P1.MoveItem (Sample.since 100) 7 Sample.a0 Sample.a7 Sample.start).1.1.2
    !! 7 = Some 0%nat
  ∧ deref (P1.evictList
      (P1.MoveItem (Sample.since 100) 7 Sample.a0 Sample.a7 Sample.start).1.1.2)
      0%nat = mkEntry 7 77
  ∧ P1.ExpiryForKey 7
      (P1.MoveItem (Sample.since 100) 7 Sample.a0 Sample.a7 Sample.start).1.1.2
    = 0.
Proof.
  assert (H1 : P1.wf Sample.a7) by compute_done.
  set (m := P1.MoveItem (Sample.since 100) 7 Sample.a0 Sample.a7 Sample.start).
  assert (Hm : m = (m.1.1.1, m.1.1.2, m.1.2, m.2))
    by by destruct m as [[[??]?]?].
  assert (H2 : m.1.1.1.2 = true) by compute_done.
  destruct (move_item_zero_expiry (Sample.since 100) 7 Sample.a0 Sample.a7
              Sample.start _ _ _ _ H1 Hm H2) as (Hi & _ & _).
  split; [exact H1|]. split; [compute_done|]. split; [compute_done|].
  split; [compute_done|]. split; [exact Hi|].
  repeat split; compute_done.
Defined.

(** C1, the code at a failing input: the cache [a2] of part_001 has capacity
    2 and no default TTL, and holds key 1, whose explicit expiry 50 has
    elapsed at the instant 100, behind key 2, which never expires. Adding
    the new key 3 makes the list one longer than the capacity; the call
    returns true and has evicted two entries, the expired key 1 and the
    live key 2: the callback has been called for both and only key 3 is
    left. *)
Lemma add_overflow_evicts_two :
  P1.size Sample.a2 = 2
  ∧ P1.itemTTL Sample.a2 = 0
  ∧ nodeKeys (P1.evictList Sample.a2) (order (P1.evictList Sample.a2)) = [2; 1]
  ∧ elapsed (P1.itemExpiries Sample.a2) 100 1 = true
  ∧ elapsed (P1.itemExpiries Sample.a2) 100 2 = false
  ∧ P1.items Sample.a2 !! 3 = None
  ∧ (P1.Add (Sample.since 100) 3 33 Sample.a2 Sample.start).1.1 = true
  ∧ (let c' := (P1.Add (Sample.since 100) 3 33 Sample.a2 Sample.start).1.2 in
     nodeKeys (P1.evictList c') (order (P1.evictList c')) = [3])
  ∧ env (P1.Add (Sample.since 100) 3 33 Sample.a2 Sample.start).2
    = [(1, 11); (2, 22)].
Proof. repeat split; vm_compute; reflexivity. Qed.

(** * Construction, capacity and resizing *)

Section Capacity.
Context `{Countable K} {V E : Type} `{!Zero K, !Zero V}.
Variable clock : nat → Z.
Implicit Types (k : K) (v : V) (w : World E) (e : ref).

Lemma findExpiredFrom_elem1 es (c : P1.LRU K V E) : ∀ w e w',
  P1.findExpiredFrom clock es c w = (Some e, w') → e ∈ es.
Proof.
  induction es as [|x es IH]; intros w e w'; [done|]. cbn [P1.findExpiredFrom].
  destruct (P1.KeyHasExpired _ _ _ _) as [[] w1].
  - intros [= <- _]. by left.
  - intros Hf. right. by eapply IH.
Qed.

Lemma findExpiredFrom_elem2 es (c : P2.LRU K V E) : ∀ w e w',
  P2.findExpiredFrom clock es c w = (Some e, w') → e ∈ es.
Proof.
  induction es as [|x es IH]; intros w e w'; [done|]. cbn [P2.findExpiredFrom].
  destruct (P2.keyHasExpired _ _ _ _) as [[] w1].
  - intros [= <- _]. by left.
  - intros Hf. right. by eapply IH.
Qed.

(** [removeElement] on a linked node. *)
Lemma removeElement_node1 e (c : P1.LRU K V E) w :
  P1.wf c → e ∈ order (P1.evictList c) →
  ∃ c' w', P1.removeElement e c w = (c', w')
    ∧ S (length (order (P1.evictList c'))) = length (order (P1.evictList c))
    ∧ P1.size c' = P1.size c ∧ P1.onEvict c' = P1.onEvict c
    ∧ P1.itemTTL c' = P1.itemTTL c
    ∧ P1.wf c'.
Proof.
  intros Hwf Hin. destruct (linked_node _ _ _ Hwf Hin) as (ent & Hc & Hi).
  destruct (removeElement_key1 (key ent) e c w Hwf Hi)
    as (c' & Hr & (_ & Hlen & _) & Hrest).
  eexists c', _. split; [exact Hr|]. by split.
Qed.

Lemma removeElement_node2 e (c : P2.LRU K V E) w :
  P2.wf c → e ∈ order (P2.evictList c) →
  ∃ c' w', P2.removeElement e c w = (c', w')
    ∧ S (length (order (P2.evictList c'))) = length (order (P2.evictList c))
    ∧ P2.size c' = P2.size c ∧ P2.onEvict c' = P2.onEvict c
    ∧ P2.itemTTL c' = P2.itemTTL c
    ∧ P2.expiryBasedEvict c' = P2.expiryBasedEvict c
    ∧ P2.wf c'.
Proof.
  intros Hwf Hin. destruct (linked_node _ _ _ Hwf Hin) as (ent & Hc & Hi).
  destruct (removeElement_key2 (key ent) e c w Hwf Hi)
    as (c' & Hr & (_ & Hlen & _) & Hrest).
  eexists c', _. split; [exact Hr|]. by split.
Qed.

(** [removeOldest] of part_002 on a list that is not empty removes exactly
    one node. *)
Lemma removeOldest_one2 (c : P2.LRU K V E) w :
  P2.wf c → order (P2.evictList c) ≠ [] →
  ∃ c' w', P2.removeOldest clock c w = (c', w')
    ∧ S (length (order (P2.evictList c'))) = length (order (P2.evictList c))
    ∧ P2.size c' = P2.size c ∧ P2.onEvict c' = P2.onEvict c
    ∧ P2.itemTTL c' = P2.itemTTL c
    ∧ P2.expiryBasedEvict c' = P2.expiryBasedEvict c
    ∧ P2.wf c'.
Proof.
  intros Hwf Hne. unfold P2.removeOldest.
  assert (Hback : ∀ w1, ∃ c' w',
             match back (P2.evictList c) with
             | Some ent => P2.removeElement ent c w1
             | None => (c, w1)
             end = (c', w')
             ∧ S (length (order (P2.evictList c')))
               = length (order (P2.evictList c))
             ∧ P2.size c' = P2.size c ∧ P2.onEvict c' = P2.onEvict c
             ∧ P2.itemTTL c' = P2.itemTTL c
             ∧ P2.expiryBasedEvict c' = P2.expiryBasedEvict c
             ∧ P2.wf c').
  { intros w1. destruct (back (P2.evictList c)) as [e|] eqn:Hb.
    - apply removeElement_node2; [done|by apply back_elem].
    - by apply last_None in Hb. }
  generalize (P2.expiryBasedEvict c) at 1. intros [|]; [|apply Hback].
  unfold P2.findExpired.
  destruct (P2.findExpiredFrom _ _ _ _) as [[e|] w1] eqn:Hf; [|apply Hback].
  apply removeElement_node2; [done|].
  apply findExpiredFrom_elem2 in Hf. by apply elem_of_reverse.
Qed.

(** [removeOldest] of part_001 on a list that is not empty removes at
    least one node. *)
Lemma removeOldest_some1 (c : P1.LRU K V E) w :
  P1.wf c → order (P1.evictList c) ≠ [] →
  ∃ c' w', P1.removeOldest clock c w = (c', w')
    ∧ (length (order (P1.evictList c')) < length (order (P1.evictList c)))%nat
    ∧ P1.size c' = P1.size c ∧ P1.onEvict c' = P1.onEvict c
    ∧ P1.itemTTL c' = P1.itemTTL c
    ∧ P1.wf c'.
Proof.
  intros Hwf Hne. unfold P1.removeOldest, P1.getOldest.
  assert (Hwalk : ∀ w1, ∃ c' w',
             match P1.getOldestFrom clock (backToFront (P1.evictList c)) c w1 with
             | (Some ent, c1, w2) => P1.removeElement ent c1 w2
             | (None, c1, w2) => (c1, w2)
             end = (c', w')
             ∧ (length (order (P1.evictList c'))
                < length (order (P1.evictList c)))%nat
             ∧ P1.size c' = P1.size c ∧ P1.onEvict c' = P1.onEvict c
             ∧ P1.itemTTL c' = P1.itemTTL c
             ∧ P1.wf c').
  { intros w1.
    destruct (getOldestFrom_spec clock (backToFront (P1.evictList c)) c w1 Hwf)
      as (purged & kept & c1 & w2 & Hes & -> & Ho & _ & _ & _
          & (Hsz & Hcb & Httl) & Hwf1 & _).
    { unfold backToFront. by rewrite reverse_involutive. }
    assert (Hlen : (length (order (P1.evictList c1))
                    ≤ length (order (P1.evictList c)))%nat).
    { rewrite Ho, length_reverse.
      rewrite <- (length_reverse (order (P1.evictList c))).
      fold (backToFront (P1.evictList c)). rewrite Hes, length_app. lia. }
    destruct kept as [|e kept]; cbn [head].
    - exists c1, w2. split; [done|]. split; [|done].
      rewrite Ho. cbn. destruct (order (P1.evictList c)); [done|cbn; lia].
    - destruct (removeElement_node1 e c1 w2 Hwf1)
        as (c' & w' & -> & Hl & Hsz' & Hcb' & Httl' & Hwf').
      { rewrite Ho, elem_of_reverse. by left. }
      exists c', w'. split; [done|]. split; [lia|].
      by rewrite Hsz', Hcb', Httl'. }
  destruct ((0 <? P1.itemTTL c) && true); [|apply Hwalk].
  unfold P1.findExpired.
  destruct (P1.findExpiredFrom _ _ _ _) as [[e|] w1] eqn:Hf; [|apply Hwalk].
  destruct (removeElement_node1 e c w1 Hwf)
    as (c' & w' & -> & Hl & Hrest).
  { apply findExpiredFrom_elem1 in Hf. by apply elem_of_reverse. }
  exists c', w'. split; [done|]. split; [lia|done].
Qed.
(** [AddWithExp] on a key that is not present: the result tells whether
    the list, one node longer, exceeded the capacity, and then at least
    one node has been removed. *)
Lemma AddWithExp_new1 k v (expiry : Z) (c : P1.LRU K V E) w :
  P1.wf c → P1.items c !! k = None →
  ∃ c' w',
    P1.AddWithExp clock k v expiry c w
    = (P1.size c <? Z.of_nat (S (length (order (P1.evictList c)))), c', w')
    ∧ P1.wf c' ∧ P1.size c' = P1.size c ∧ P1.itemTTL c' = P1.itemTTL c
    ∧ P1.onEvict c' = P1.onEvict c
    ∧ if P1.size c <? Z.of_nat (S (length (order (P1.evictList c))))
      then (length (order (P1.evictList c'))
            ≤ length (order (P1.evictList c)))%nat
      else length (order (P1.evictList c'))
           = S (length (order (P1.evictList c))).
Proof.
  intros Hwf Hk. unfold P1.AddWithExp. rewrite Hk. cbn [pushFront].
  assert (Hgen : ∀ (exps : gmap K Z) w1, ∃ c' w',
    (let c1 := P1.mkLRU (P1.size c)
                 (mkList (cells (P1.evictList c) ++ [mkEntry k v])
                         (length (cells (P1.evictList c))
                          :: order (P1.evictList c)))
                 (<[k := length (cells (P1.evictList c))]> (P1.items c))
                 (P1.onEvict c) (P1.itemTTL c) exps in
     if P1.size c <? llen (P1.evictList c1)
     then let '(c2, w2) := P1.removeOldest clock c1 w1 in (true, c2, w2)
     else (false, c1, w1))
    = (P1.size c <? Z.of_nat (S (length (order (P1.evictList c)))), c', w')
    ∧ P1.wf c' ∧ P1.size c' = P1.size c ∧ P1.itemTTL c' = P1.itemTTL c
    ∧ P1.onEvict c' = P1.onEvict c
    ∧ if P1.size c <? Z.of_nat (S (length (order (P1.evictList c))))
      then (length (order (P1.evictList c'))
            ≤ length (order (P1.evictList c)))%nat
      else length (order (P1.evictList c'))
           = S (length (order (P1.evictList c)))).
  { intros exps w1. cbn zeta. unfold llen. cbn [P1.evictList order length].
    set (c1 := P1.mkLRU _ _ _ _ _ exps).
    assert (Hwf1 : P1.wf c1) by by apply (linked_pushFront _ _ k v Hwf Hk).
    destruct (P1.size c <? _).
    - destruct (removeOldest_some1 c1 w1 Hwf1)
        as (c' & w' & -> & Hlen & Hsz & Hcb & Httl & Hwf'); [done|].
      exists c', w'. split; [done|]. split; [done|].
      split; [done|]. split; [done|]. split; [done|].
      cbn in Hlen. lia.
    - by exists c1, w1. }
  destruct (negb (IsZero expiry)); [apply Hgen|].
  destruct (0 <? P1.itemTTL c); apply Hgen.
Qed.

(** [Add] of part_002 on a key that is not present: when the list, one
    node longer, exceeds the capacity, exactly one node is removed. *)
Lemma Add_new2 k v (c : P2.LRU K V E) w :
  P2.wf c → P2.items c !! k = None →
  ∃ c' w',
    P2.Add clock k v c w
    = (P2.size c <? Z.of_nat (S (length (order (P2.evictList c)))), c', w')
    ∧ P2.wf c' ∧ P2.size c' = P2.size c ∧ P2.itemTTL c' = P2.itemTTL c
    ∧ P2.onEvict c' = P2.onEvict c
    ∧ P2.expiryBasedEvict c' = P2.expiryBasedEvict c
    ∧ length (order (P2.evictList c'))
      = if P2.size c <? Z.of_nat (S (length (order (P2.evictList c))))
        then length (order (P2.evictList c))
        else S (length (order (P2.evictList c))).
Proof.
  intros Hwf Hk. unfold P2.Add. rewrite Hk. cbn [pushFront].
  assert (Hgen : ∀ (exps : gmap K Z) w1, ∃ c' w',
    (let c1 := P2.mkLRU (P2.size c)
                 (mkList (cells (P2.evictList c) ++ [mkEntry k v])
                         (length (cells (P2.evictList c))
                          :: order (P2.evictList c)))
                 (<[k := length (cells (P2.evictList c))]> (P2.items c))
                 (P2.onEvict c) (P2.itemTTL c) exps
                 (P2.expiryBasedEvict c) in
     if P2.size c <? llen (P2.evictList c1)
     then let '(c2, w2) := P2.removeOldest clock c1 w1 in (true, c2, w2)
     else (false, c1, w1))
    = (P2.size c <? Z.of_nat (S (length (order (P2.evictList c)))), c', w')
    ∧ P2.wf c' ∧ P2.size c' = P2.size c ∧ P2.itemTTL c' = P2.itemTTL c
    ∧ P2.onEvict c' = P2.onEvict c
    ∧ P2.expiryBasedEvict c' = P2.expiryBasedEvict c
    ∧ length (order (P2.evictList c'))
      = if P2.size c <? Z.of_nat (S (length (order (P2.evictList c))))
        then length (order (P2.evictList c))
        else S (length (order (P2.evictList c)))).
  { intros exps w1. cbn zeta. unfold llen. cbn [P2.evictList order length].
    set (c1 := P2.mkLRU _ _ _ _ _ exps _).
    assert (Hwf1 : P2.wf c1) by by apply (linked_pushFront _ _ k v Hwf Hk).
    destruct (P2.size c <? _).
    - destruct (removeOldest_one2 c1 w1 Hwf1)
        as (c' & w' & -> & Hlen & Hsz & Hcb & Httl & Hfl & Hwf'); [done|].
      exists c', w'. split; [done|]. split; [done|].
      split; [done|]. split; [done|]. split; [done|]. split; [done|].
      cbn in Hlen. lia.
    - by exists c1, w1. }
  destruct (0 <? P2.itemTTL c); apply Hgen.
Qed.

Lemma wrap64_int64 (z : Z) : int64 z → wrap64 z = z.
Proof.
  unfold int64, wrap64. intros Hz.
  rewrite Z.mod_small by lia. lia.
Qed.

(** The number that [Resize] returns: the difference between [Len] and the
    new capacity, wrapped to 64 bits, or zero when that is negative. *)
Lemma Resize_evicted (n : Z) (c1 : P1.LRU K V E) (c2 : P2.LRU K V E) w :
  (P1.Resize clock n c1 w).1.1 = Z.max 0 (wrap64 ((P1.Len clock c1 w).1 - n))
  ∧ (P2.Resize clock n c2 w).1.1 = Z.max 0 (wrap64 ((P2.Len clock c2 w).1 - n)).
Proof.
  unfold P1.Resize, P2.Resize.
  destruct (P1.Len clock c1 w) as [len1 w1].
  destruct (P2.Len clock c2 w) as [len2 w2]. cbn [fst].
  destruct (P1.removeOldestTimes _ _ _ _) as [c1' w1'].
  destruct (P2.removeOldestTimes _ _ _ _) as [c2' w2']. cbn [fst].
  split.
  - destruct (Z.ltb_spec (wrap64 (len1 - n)) 0); lia.
  - destruct (Z.ltb_spec (wrap64 (len2 - n)) 0); lia.
Qed.

(** The scan of [findExpired] leaves the callback's state alone. *)
Lemma findExpiredFrom_env1 es (c : P1.LRU K V E) : ∀ w,
  env (P1.findExpiredFrom clock es c w).2 = env w.
Proof.
  induction es as [|e es IH]; intros w; [done|]. cbn [P1.findExpiredFrom].
  destruct (KeyHasExpired_elapsed1 clock (key (deref (P1.evictList c) e)) c w)
    as (w1 & -> & Henv & _).
  destruct (elapsed _ _ _); [done|]. by rewrite IH.
Qed.

Lemma findExpiredFrom_env2 es (c : P2.LRU K V E) : ∀ w,
  env (P2.findExpiredFrom clock es c w).2 = env w.
Proof.
  induction es as [|e es IH]; intros w; [done|]. cbn [P2.findExpiredFrom].
  destruct (keyHasExpired_elapsed2 clock (key (deref (P2.evictList c) e)) c w)
    as (w1 & -> & Henv & _).
  destruct (elapsed _ _ _); [done|]. by rewrite IH.
Qed.

(** [removeElement] on a linked node: the node is unlinked, with its entry
    of the index and its expiry record, and the callback is called with
    its key and value. *)
Lemma removeElement_evicts1 e (c : P1.LRU K V E) w :
  P1.wf c → e ∈ order (P1.evictList c) →
  ∃ c' w', P1.removeElement e c w = (c', w')
    ∧ P1.wf c'
    ∧ (P1.size c' = P1.size c ∧ P1.onEvict c' = P1.onEvict c
       ∧ P1.itemTTL c' = P1.itemTTL c)
    ∧ evicts [e] (P1.evictList c) (P1.evictList c')
             (P1.items c) (P1.items c')
             (P1.itemExpiries c) (P1.itemExpiries c')
    ∧ env w' = notifyAll (P1.onEvict c) (P1.evictList c) [e] (env w).
Proof.
  intros Hwf Hin. destruct (linked_node _ _ _ Hwf Hin) as (ent & Hc & Hi).
  pose proof (deref_cell _ _ _ Hc) as Hd.
  destruct (removeElement_key1 (key ent) e c w Hwf Hi)
    as (c' & Hr & Hu & Hsz & Hcb & Httl & Hwf').
  eexists c', _. split; [exact Hr|]. split; [done|]. split; [done|].
  split; [apply (evicts_one _ _ _ _ _ _ (key ent)); [done|by rewrite Hd|done]|].
  destruct (env_fire (P1.onEvict c) (key ent)
              (value (deref (P1.evictList c) e)) w) as [-> _].
  unfold notifyAll. cbn. by rewrite Hd.
Qed.

Lemma removeElement_evicts2 e (c : P2.LRU K V E) w :
  P2.wf c → e ∈ order (P2.evictList c) →
  ∃ c' w', P2.removeElement e c w = (c', w')
    ∧ P2.wf c'
    ∧ (P2.size c' = P2.size c ∧ P2.onEvict c' = P2.onEvict c
       ∧ P2.itemTTL c' = P2.itemTTL c
       ∧ P2.expiryBasedEvict c' = P2.expiryBasedEvict c)
    ∧ evicts [e] (P2.evictList c) (P2.evictList c')
             (P2.items c) (P2.items c')
             (P2.itemExpiries c) (P2.itemExpiries c')
    ∧ env w' = notifyAll (P2.onEvict c) (P2.evictList c) [e] (env w).
Proof.
  intros Hwf Hin. destruct (linked_node _ _ _ Hwf Hin) as (ent & Hc & Hi).
  pose proof (deref_cell _ _ _ Hc) as Hd.
  destruct (removeElement_key2 (key ent) e c w Hwf Hi)
    as (c' & Hr & Hu & Hsz & Hcb & Httl & Hfl & Hwf').
  eexists c', _. split; [exact Hr|]. split; [done|]. split; [done|].
  split; [apply (evicts_one _ _ _ _ _ _ (key ent)); [done|by rewrite Hd|done]|].
  destruct (env_fire (P2.onEvict c) (key ent)
              (value (deref (P2.evictList c) e)) w) as [-> _].
  unfold notifyAll. cbn. by rewrite Hd.
Qed.

(** One eviction of part_002: the nodes [gone] are removed, one node when
    the list is not empty, and the callback is called for it. *)
Lemma removeOldest_gone2 (c : P2.LRU K V E) w :
  P2.wf c →
  ∃ gone c' w',
    P2.removeOldest clock c w = (c', w')
    ∧ P2.wf c'
    ∧ (P2.size c' = P2.size c ∧ P2.onEvict c' = P2.onEvict c
       ∧ P2.itemTTL c' = P2.itemTTL c
       ∧ P2.expiryBasedEvict c' = P2.expiryBasedEvict c)
    ∧ evicts gone (P2.evictList c) (P2.evictList c')
             (P2.items c) (P2.items c')
             (P2.itemExpiries c) (P2.itemExpiries c')
    ∧ env w' = notifyAll (P2.onEvict c) (P2.evictList c) gone (env w)
    ∧ length gone = Nat.min 1 (length (order (P2.evictList c))).
Proof.
  intros Hwf.
  assert (Hrm : ∀ e w1, e ∈ order (P2.evictList c) → env w1 = env w →
    ∃ gone c' w',
      P2.removeElement e c w1 = (c', w')
      ∧ P2.wf c'
      ∧ (P2.size c' = P2.size c ∧ P2.onEvict c' = P2.onEvict c
         ∧ P2.itemTTL c' = P2.itemTTL c
         ∧ P2.expiryBasedEvict c' = P2.expiryBasedEvict c)
      ∧ evicts gone (P2.evictList c) (P2.evictList c')
               (P2.items c) (P2.items c')
               (P2.itemExpiries c) (P2.itemExpiries c')
      ∧ env w' = notifyAll (P2.onEvict c) (P2.evictList c) gone (env w)
      ∧ length gone = Nat.min 1 (length (order (P2.evictList c)))).
  { intros e w1 Hin Henv.
    destruct (removeElement_evicts2 e c w1 Hwf Hin)
      as (c' & w' & Hr & Hwf' & Hf & Hev & He).
    exists [e], c', w'. split; [done|]. split; [done|]. split; [done|].
    split; [done|]. split; [by rewrite He, Henv|].
    destruct (order (P2.evictList c)); [by apply elem_of_nil in Hin|done]. }
  assert (Hback : ∀ w1, env w1 = env w →
    ∃ gone c' w',
      match back (P2.evictList c) with
      | Some ent => P2.removeElement ent c w1
      | None => (c, w1)
      end = (c', w')
      ∧ P2.wf c'
      ∧ (P2.size c' = P2.size c ∧ P2.onEvict c' = P2.onEvict c
         ∧ P2.itemTTL c' = P2.itemTTL c
         ∧ P2.expiryBasedEvict c' = P2.expiryBasedEvict c)
      ∧ evicts gone (P2.evictList c) (P2.evictList c')
               (P2.items c) (P2.items c')
               (P2.itemExpiries c) (P2.itemExpiries c')
      ∧ env w' = notifyAll (P2.onEvict c) (P2.evictList c) gone (env w)
      ∧ length gone = Nat.min 1 (length (order (P2.evictList c)))).
  { intros w1 Henv. destruct (back (P2.evictList c)) as [b|] eqn:Hb.
    - apply Hrm; [by apply back_elem|done].
    - apply last_None in Hb. exists [], c, w1. split; [done|].
      split; [done|]. split; [done|]. split; [apply evicts_nil|].
      split; [done|]. by rewrite Hb. }
  unfold P2.removeOldest.
  generalize (P2.expiryBasedEvict c) at 1. intros [|]; [|by apply Hback].
  unfold P2.findExpired.
  pose proof (findExpiredFrom_env2 (backToFront (P2.evictList c)) c w) as Henv.
  destruct (P2.findExpiredFrom _ _ _ _) as [[e|] w1] eqn:Hf; cbn [snd] in Henv;
    [|by apply Hback].
  apply Hrm; [|done].
  apply findExpiredFrom_elem2 in Hf. by apply elem_of_reverse.
Qed.

(** One eviction of part_001: the nodes [gone] are removed, at least one
    when the list is not empty, and the callback is called for each, in
    the order of [gone]. *)
Lemma removeOldest_gone1 (c : P1.LRU K V E) w :
  P1.wf c →
  ∃ gone c' w',
    P1.removeOldest clock c w = (c', w')
    ∧ P1.wf c'
    ∧ (P1.size c' = P1.size c ∧ P1.onEvict c' = P1.onEvict c
       ∧ P1.itemTTL c' = P1.itemTTL c)
    ∧ evicts gone (P1.evictList c) (P1.evictList c')
             (P1.items c) (P1.items c')
             (P1.itemExpiries c) (P1.itemExpiries c')
    ∧ env w' = notifyAll (P1.onEvict c) (P1.evictList c) gone (env w)
    ∧ (Nat.min 1 (length (order (P1.evictList c))) ≤ length gone)%nat.
Proof.
  intros Hwf.
  assert (Hwalk : ∀ w1, env w1 = env w →
    ∃ gone c' w',
      match P1.getOldestFrom clock (backToFront (P1.evictList c)) c w1 with
      | (Some ent, c1, w2) => P1.removeElement ent c1 w2
      | (None, c1, w2) => (c1, w2)
      end = (c', w')
      ∧ P1.wf c'
      ∧ (P1.size c' = P1.size c ∧ P1.onEvict c' = P1.onEvict c
         ∧ P1.itemTTL c' = P1.itemTTL c)
      ∧ evicts gone (P1.evictList c) (P1.evictList c')
               (P1.items c) (P1.items c')
               (P1.itemExpiries c) (P1.itemExpiries c')
      ∧ env w' = notifyAll (P1.onEvict c) (P1.evictList c) gone (env w)
      ∧ (Nat.min 1 (length (order (P1.evictList c))) ≤ length gone)%nat).
  { intros w1 He1.
    destruct (getOldestFrom_spec clock (backToFront (P1.evictList c)) c w1 Hwf)
      as (purged & kept & c1 & w2 & Hes & -> & Ho & Hcs & Hit & Hex
          & (Hsz & Hcb & Httl) & Hwf1 & _ & Henv & _).
    { unfold backToFront. by rewrite reverse_involutive. }
    assert (Hord : order (P1.evictList c) = reverse (purged ++ kept)).
    { rewrite <- Hes. unfold backToFront. by rewrite reverse_involutive. }
    pose proof (evicts_back _ _ _ _ _ _ purged kept Hwf Hord Ho Hcs Hit Hex)
      as Hev1.
    destruct kept as [|e kept]; cbn [head].
    - exists purged, c1, w2. split; [done|]. split; [done|]. split; [done|].
      split; [done|]. split; [by rewrite Henv, He1|].
      destruct Hev1 as (_ & _ & _ & Hlen & _). rewrite Ho in Hlen.
      cbn in Hlen. lia.
    - destruct (removeElement_evicts1 e c1 w2 Hwf1)
        as (c' & w' & -> & Hwf' & (Hsz' & Hcb' & Httl') & Hev2 & He2).
      { rewrite Ho, elem_of_reverse. by left. }
      exists (purged ++ [e]), c', w'. split; [done|]. split; [done|].
      split; [by rewrite Hsz', Hcb', Httl'|].
      split; [by eapply evicts_app|].
      split.
      { rewrite He2, Hcb, Henv, He1. by apply notifyAll_app. }
      rewrite length_app. cbn [length]. lia. }
  unfold P1.removeOldest, P1.getOldest. rewrite andb_true_r.
  destruct (0 <? P1.itemTTL c); [|by apply Hwalk].
  unfold P1.findExpired.
  pose proof (findExpiredFrom_env1 (backToFront (P1.evictList c)) c w) as Henv.
  destruct (P1.findExpiredFrom _ _ _ _) as [[e|] w1] eqn:Hf; cbn [snd] in Henv;
    [|by apply Hwalk].
  destruct (removeElement_evicts1 e c w1 Hwf)
    as (c' & w' & -> & Hwf' & Hf' & Hev & He).
  { apply findExpiredFrom_elem1 in Hf. by apply elem_of_reverse. }
  exists [e], c', w'. split; [done|]. split; [done|]. split; [done|].
  split; [done|]. split; [by rewrite He, Henv|]. cbn [length]. lia.
Qed.

(** The evictions of [Resize], one after the other. *)
Lemma removeOldestTimes_gone2 n : ∀ (c : P2.LRU K V E) w,
  P2.wf c →
  ∃ gone c' w',
    P2.removeOldestTimes clock n c w = (c', w')
    ∧ P2.wf c'
    ∧ (P2.size c' = P2.size c ∧ P2.onEvict c' = P2.onEvict c
       ∧ P2.itemTTL c' = P2.itemTTL c
       ∧ P2.expiryBasedEvict c' = P2.expiryBasedEvict c)
    ∧ evicts gone (P2.evictList c) (P2.evictList c')
             (P2.items c) (P2.items c')
             (P2.itemExpiries c) (P2.itemExpiries c')
    ∧ env w' = notifyAll (P2.onEvict c) (P2.evictList c) gone (env w)
    ∧ length gone = Nat.min n (length (order (P2.evictList c))).
Proof.
  induction n as [|n IH]; intros c w Hwf; cbn [P2.removeOldestTimes].
  { exists [], c, w. split; [done|]. split; [done|]. split; [done|].
    split; [apply evicts_nil|]. by split. }
  destruct (removeOldest_gone2 c w Hwf)
    as (g1 & c1 & w1 & -> & Hwf1 & (Hsz1 & Hcb1 & Httl1 & Hfl1) & Hev1 & He1
        & Hl1).
  destruct (IH c1 w1 Hwf1)
    as (g2 & c' & w' & -> & Hwf' & (Hsz2 & Hcb2 & Httl2 & Hfl2) & Hev2 & He2
        & Hl2).
  exists (g1 ++ g2), c', w'. split; [done|]. split; [done|].
  split; [by rewrite Hsz2, Hcb2, Httl2, Hfl2|].
  split; [by eapply evicts_app|].
  split.
  { rewrite He2, Hcb1, He1. apply notifyAll_app. apply Hev1. }
  destruct Hev1 as (_ & _ & _ & Hlen & _). rewrite length_app. lia.
Qed.

Lemma removeOldestTimes_gone1 n : ∀ (c : P1.LRU K V E) w,
  P1.wf c →
  ∃ gone c' w',
    P1.removeOldestTimes clock n c w = (c', w')
    ∧ P1.wf c'
    ∧ (P1.size c' = P1.size c ∧ P1.onEvict c' = P1.onEvict c
       ∧ P1.itemTTL c' = P1.itemTTL c)
    ∧ evicts gone (P1.evictList c) (P1.evictList c')
             (P1.items c) (P1.items c')
             (P1.itemExpiries c) (P1.itemExpiries c')
    ∧ env w' = notifyAll (P1.onEvict c) (P1.evictList c) gone (env w)
    ∧ (Nat.min n (length (order (P1.evictList c))) ≤ length gone)%nat.
Proof.
  induction n as [|n IH]; intros c w Hwf; cbn [P1.removeOldestTimes].
  { exists [], c, w. split; [done|]. split; [done|]. split; [done|].
    split; [apply evicts_nil|]. split; [done|]. cbn [length]. lia. }
  destruct (removeOldest_gone1 c w Hwf)
    as (g1 & c1 & w1 & -> & Hwf1 & (Hsz1 & Hcb1 & Httl1) & Hev1 & He1 & Hl1).
  destruct (IH c1 w1 Hwf1)
    as (g2 & c' & w' & -> & Hwf' & (Hsz2 & Hcb2 & Httl2) & Hev2 & He2 & Hl2).
  exists (g1 ++ g2), c', w'. split; [done|]. split; [done|].
  split; [by rewrite Hsz2, Hcb2, Httl2|].
  split; [by eapply evicts_app|].
  split.
  { rewrite He2, Hcb1, He1. apply notifyAll_app. apply Hev1. }
  destruct Hev1 as (_ & _ & _ & Hlen & _). rewrite length_app. lia.
Qed.

(** C10. [Resize] takes any integer: the capacity of the cache after the
    call is the argument, be it zero or negative. On a cache whose
    capacity is not positive, the insertion of a key that is not present
    returns true and evicts: once the new node is linked at the front,
    nodes of the list ([gone]: in part_002 exactly one, in part_001 at
    least one) are unlinked, with their entries of the index and their
    expiry records, and the callback is called for each of them with its
    key and value. The list is no longer after the call than before it. *)
Theorem resize_unchecked (n : Z) k v (expiry : Z)
    (c1 : P1.LRU K V E) (c2 : P2.LRU K V E) w :
  P1.wf c1 → P2.wf c2 →
  P1.size (P1.Resize clock n c1 w).1.2 = n
  ∧ P2.size (P2.Resize clock n c2 w).1.2 = n
  ∧ (P1.size c1 ≤ 0 → P1.items c1 !! k = None →
     (P1.AddWithExp clock k v expiry c1 w).1.1 = true
     ∧ P1.Add clock k v c1 w = P1.AddWithExp clock k v 0 c1 w
     ∧ (length (order (P1.evictList (P1.AddWithExp clock k v expiry c1 w).1.2))
        ≤ length (order (P1.evictList c1)))%nat
     ∧ ∃ gone c' w',
         P1.AddWithExp clock k v expiry c1 w = (true, c', w')
         ∧ gone ≠ []
         ∧ evicts gone (pushFront k v (P1.evictList c1)).2 (P1.evictList c')
                  (<[k := (pushFront k v (P1.evictList c1)).1]> (P1.items c1))
                  (P1.items c')
                  (if negb (IsZero expiry)
                   then <[k := expiry]> (P1.itemExpiries c1)
                   else if 0 <? P1.itemTTL c1
                   then <[k := clock (tick w) + P1.itemTTL c1]>
                          (P1.itemExpiries c1)
                   else P1.itemExpiries c1)
                  (P1.itemExpiries c')
         ∧ env w' = notifyAll (P1.onEvict c1)
                              (pushFront k v (P1.evictList c1)).2 gone (env w))
  ∧ (P2.size c2 ≤ 0 → P2.items c2 !! k = None →
     (P2.Add clock k v c2 w).1.1 = true
     ∧ length (order (P2.evictList (P2.Add clock k v c2 w).1.2))
       = length (order (P2.evictList c2))
     ∧ ∃ gone c' w',
         P2.Add clock k v c2 w = (true, c', w')
         ∧ length gone = 1%nat
         ∧ evicts gone (pushFront k v (P2.evictList c2)).2 (P2.evictList c')
                  (<[k := (pushFront k v (P2.evictList c2)).1]> (P2.items c2))
                  (P2.items c')
                  (if 0 <? P2.itemTTL c2
                   then <[k := clock (tick w) + P2.itemTTL c2]>
                          (P2.itemExpiries c2)
                   else P2.itemExpiries c2)
                  (P2.itemExpiries c')
         ∧ env w' = notifyAll (P2.onEvict c2)
                              (pushFront k v (P2.evictList c2)).2 gone (env w)).
Proof.
  intros Hwf1 Hwf2. split; [|split; [|split]].
  - unfold P1.Resize. destruct (P1.Len _ _ _) as [len w1].
    by destruct (P1.removeOldestTimes _ _ _ _) as [c' w'].
  - unfold P2.Resize. destruct (P2.Len _ _ _) as [len w1].
    by destruct (P2.removeOldestTimes _ _ _ _) as [c' w'].
  - intros Hsz Hk.
    assert (Hlt : (P1.size c1 <? Z.of_nat (S (length (order (P1.evictList c1)))))
                  = true) by (apply Z.ltb_lt; lia).
    destruct (AddWithExp_new1 k v expiry c1 w Hwf1 Hk)
      as (c' & w' & Ha & _ & _ & _ & _ & Hlen).
    rewrite Hlt in Ha, Hlen.
    split; [by rewrite Ha|]. split; [done|]. split; [by rewrite Ha|].
    clear Ha Hlen c' w'.
    unfold P1.AddWithExp. rewrite Hk. cbn [pushFront fst snd].
    assert (Hgen : ∀ (exps : gmap K Z) w1, env w1 = env w → ∃ gone c' w',
      (let c1' := P1.mkLRU (P1.size c1)
                   (mkList (cells (P1.evictList c1) ++ [mkEntry k v])
                           (length (cells (P1.evictList c1))
                            :: order (P1.evictList c1)))
                   (<[k := length (cells (P1.evictList c1))]> (P1.items c1))
                   (P1.onEvict c1) (P1.itemTTL c1) exps in
       if P1.size c1 <? llen (P1.evictList c1')
       then let '(c2, w2) := P1.removeOldest clock c1' w1 in (true, c2, w2)
       else (false, c1', w1))
      = (true, c', w')
      ∧ gone ≠ []
      ∧ evicts gone
               (mkList (cells (P1.evictList c1) ++ [mkEntry k v])
                       (length (cells (P1.evictList c1))
                        :: order (P1.evictList c1)))
               (P1.evictList c')
               (<[k := length (cells (P1.evictList c1))]> (P1.items c1))
               (P1.items c') exps (P1.itemExpiries c')
      ∧ env w' = notifyAll (P1.onEvict c1)
                   (mkList (cells (P1.evictList c1) ++ [mkEntry k v])
                           (length (cells (P1.evictList c1))
                            :: order (P1.evictList c1)))
                   gone (env w)).
    { intros exps w1 He. cbn zeta. unfold llen. cbn [P1.evictList order length].
      set (c1' := P1.mkLRU _ _ _ _ _ exps).
      assert (Hwf1' : P1.wf c1') by by apply (linked_pushFront _ _ k v Hwf1 Hk).
      rewrite Hlt.
      destruct (removeOldest_gone1 c1' w1 Hwf1')
        as (gone & c' & w' & -> & _ & _ & Hev & Hen & Hl).
      exists gone, c', w'. split; [done|].
      split; [intros ->; cbn in Hl; lia|].
      split; [exact Hev|]. by rewrite Hen, He. }
    destruct (negb (IsZero expiry)); [by apply Hgen|].
    destruct (0 <? P1.itemTTL c1); by apply Hgen.
  - intros Hsz Hk.
    assert (Hlt : (P2.size c2 <? Z.of_nat (S (length (order (P2.evictList c2)))))
                  = true) by (apply Z.ltb_lt; lia).
    destruct (Add_new2 k v c2 w Hwf2 Hk)
      as (c' & w' & Ha & _ & _ & _ & _ & _ & Hlen).
    rewrite Hlt in Ha, Hlen.
    split; [by rewrite Ha|]. split; [by rewrite Ha|].
    clear Ha Hlen c' w'.
    unfold P2.Add. rewrite Hk. cbn [pushFront fst snd].
    assert (Hgen : ∀ (exps : gmap K Z) w1, env w1 = env w → ∃ gone c' w',
      (let c1' := P2.mkLRU (P2.size c2)
                   (mkList (cells (P2.evictList c2) ++ [mkEntry k v])
                           (length (cells (P2.evictList c2))
                            :: order (P2.evictList c2)))
                   (<[k := length (cells (P2.evictList c2))]> (P2.items c2))
                   (P2.onEvict c2) (P2.itemTTL c2) exps
                   (P2.expiryBasedEvict c2) in
       if P2.size c2 <? llen (P2.evictList c1')
       then let '(c3, w2) := P2.removeOldest clock c1' w1 in (true, c3, w2)
       else (false, c1', w1))
      = (true, c', w')
      ∧ length gone = 1%nat
      ∧ evicts gone
               (mkList (cells (P2.evictList c2) ++ [mkEntry k v])
                       (length (cells (P2.evictList c2))
                        :: order (P2.evictList c2)))
               (P2.evictList c')
               (<[k := length (cells (P2.evictList c2))]> (P2.items c2))
               (P2.items c') exps (P2.itemExpiries c')
      ∧ env w' = notifyAll (P2.onEvict c2)
                   (mkList (cells (P2.evictList c2) ++ [mkEntry k v])
                           (length (cells (P2.evictList c2))
                            :: order (P2.evictList c2)))
                   gone (env w)).
    { intros exps w1 He. cbn zeta. unfold llen. cbn [P2.evictList order length].
      set (c1' := P2.mkLRU _ _ _ _ _ exps _).
      assert (Hwf1' : P2.wf c1') by by apply (linked_pushFront _ _ k v Hwf2 Hk).
      rewrite Hlt.
      destruct (removeOldest_gone2 c1' w1 Hwf1')
        as (gone & c' & w' & -> & _ & _ & Hev & Hen & Hl).
      exists gone, c', w'. split; [done|].
      split; [by rewrite Hl|].
      split; [exact Hev|]. by rewrite Hen, He. }
    destruct (0 <? P2.itemTTL c2); by apply Hgen.
Qed.
(** The writes of [Values] stay in range when the slice has room for the
    nodes still to visit. *)
Lemma valuesFrom_in_range1 es (c : P1.LRU K V E) : ∀ values i w,
  (i + length es ≤ length values)%nat →
  ∃ vs j w', P1.valuesFrom clock es values i c w = (Some (vs, j), w')
             ∧ (j ≤ length vs)%nat.
Proof.
  induction es as [|e es IH]; intros values i w Hle; cbn [P1.valuesFrom].
  { exists values, i, w. split; [done|]. cbn in Hle. lia. }
  cbn [length] in Hle.
  destruct (P1.KeyHasExpired _ _ _ _) as [[] w1]; cbn [negb].
  - apply IH. lia.
  - rewrite decide_True by lia. apply IH. rewrite length_insert. lia.
Qed.

Lemma valuesFrom_in_range2 es (c : P2.LRU K V E) : ∀ values i w,
  (i + length es ≤ length values)%nat →
  ∃ vs j w', P2.valuesFrom clock es values i c w = (Some (vs, j), w')
             ∧ (j ≤ length vs)%nat.
Proof.
  induction es as [|e es IH]; intros values i w Hle; cbn [P2.valuesFrom].
  { exists values, i, w. split; [done|]. cbn in Hle. lia. }
  cbn [length] in Hle.
  destruct (P2.keyHasExpired _ _ _ _) as [[] w1]; cbn [negb].
  - apply IH. lia.
  - rewrite decide_True by lia. apply IH. rewrite length_insert. lia.
Qed.

(** [Values] returns its slice on every well-formed cache. *)
Lemma Values_in_range (c1 : P1.LRU K V E) (c2 : P2.LRU K V E) w :
  (P1.wf c1 → ∃ vs w', P1.Values clock c1 w = (Some vs, w'))
  ∧ (P2.wf c2 → ∃ vs w', P2.Values clock c2 w = (Some vs, w')).
Proof.
  split; intros Hwf.
  - unfold P1.Values.
    destruct (valuesFrom_in_range1 (backToFront (P1.evictList c1)) c1
                (replicate (size (P1.items c1)) zero) 0%nat w)
      as (vs & j & w' & -> & _).
    { rewrite length_replicate, (linked_size _ _ Hwf).
      unfold backToFront. rewrite length_reverse. lia. }
    by eexists _, _.
  - unfold P2.Values.
    destruct (valuesFrom_in_range2 (backToFront (P2.evictList c2)) c2
                (replicate (size (P2.items c2)) zero) 0%nat w)
      as (vs & j & w' & -> & _).
    { rewrite length_replicate, (linked_size _ _ Hwf).
      unfold backToFront. rewrite length_reverse. lia. }
    by eexists _, _.
Qed.

(** C9. The constructors fail exactly when the size is not positive, and
    otherwise return an empty, well-formed cache of that capacity. The
    other operations are functions of the embedding, they return their
    flags for every input; the one operation that indexes a slice,
    [Values], stays in range on every well-formed cache, so that it
    returns its slice too. *)
Theorem new_cache (n ttl : Z) (cb : option (K → V → E → E)) (flag : bool)
    (c1 : P1.LRU K V E) (c2 : P2.LRU K V E) w :
  P1.wf c1 → P2.wf c2 →
  (P1.NewLRUWithEvictTTL n cb ttl = None ↔ n ≤ 0)
  ∧ (P2.NewLRUWithEvictTTL n cb ttl flag = None ↔ n ≤ 0)
  ∧ (1 ≤ n →
     P1.NewLRUWithEvictTTL n cb ttl = Some (P1.mkLRU n newList ∅ cb ttl ∅)
     ∧ P1.NewLRU n cb = Some (P1.mkLRU n newList ∅ cb 0 ∅)
     ∧ P1.wf (P1.mkLRU n newList ∅ cb ttl ∅)
     ∧ P2.NewLRUWithEvictTTL n cb ttl flag
       = Some (P2.mkLRU n newList ∅ cb ttl ∅ flag)
     ∧ P2.NewLRU n cb = Some (P2.mkLRU n newList ∅ cb 0 ∅ false)
     ∧ P2.wf (P2.mkLRU n newList ∅ cb ttl ∅ flag))
  ∧ (∃ vs w', P1.Values clock c1 w = (Some vs, w'))
  ∧ (∃ vs w', P2.Values clock c2 w = (Some vs, w')).
Proof.
  intros Hwf1 Hwf2.
  unfold P1.NewLRU, P2.NewLRU, P1.NewLRUWithEvictTTL, P2.NewLRUWithEvictTTL.
  split; [|split; [|split; [|split]]].
  - destruct (Z.leb_spec n 0); split; (done || lia).
  - destruct (Z.leb_spec n 0); split; (done || lia).
  - intros Hn. destruct (Z.leb_spec n 0); [lia|].
    repeat split; try done; apply linked_newList.
  - by apply (Values_in_range c1 c2 w).
  - by apply (Values_in_range c1 c2 w).
Qed.
End Capacity.

(** The constructors at the sizes 0 and 2, and [Values] on the sample
    caches. *)
Lemma new_cache_witness :
  P1.wf Sample.a2 ∧ P2.wf Sample.b3
  ∧ P1.NewLRUWithEvictTTL 0 Sample.record 0 = None
  ∧ P1.NewLRUWithEvictTTL 2 Sample.record 0 = Some Sample.a0
  ∧ P2.NewLRUWithEvictTTL 2 Sample.record 10 true = Some Sample.b0
  ∧ (∃ vs w', P1.Values (Sample.since 10) Sample.a2 Sample.start = (Some vs, w'))
  ∧ (∃ vs w', P2.Values (Sample.since 10) Sample.b3 Sample.start = (Some vs, w')).
Proof.
  assert (H1 : P1.wf Sample.a2) by compute_done.
  assert (H2 : P2.wf Sample.b3) by compute_done.
  repeat (split; [assumption|]).
  destruct (new_cache (Sample.since 10) 0 0 Sample.record true Sample.a2
              Sample.b3 Sample.start H1 H2) as (Hn0 & _ & _ & Hv1 & Hv2).
  destruct (new_cache (Sample.since 10) 2 0 Sample.record true Sample.a2
              Sample.b3 Sample.start H1 H2) as (_ & _ & Hn2 & _).
  destruct (new_cache (Sample.since 10) 2 10 Sample.record true Sample.a2
              Sample.b3 Sample.start H1 H2) as (_ & _ & Hn3 & _).
  split; [by apply Hn0|].
  split; [apply Hn2; lia|].
  split; [apply Hn3; lia|].
  by split.
Defined.

(** [Resize] to the capacity -1 on the sample caches, then the insertion
    of the new key 5 into the resized caches. *)
Lemma resize_unchecked_witness :
  P1.wf Sample.a_neg ∧ P2.wf Sample.b_neg
  ∧ P1.size Sample.a_neg ≤ 0 ∧ P1.items Sample.a_neg !! 5 = None
  ∧ P2.size Sample.b_neg ≤ 0 ∧ P2.items Sample.b_neg !! 5 = None
  ∧ P1.size (P1.Resize (Sample.since 10) (-1) Sample.a_neg Sample.start).1.2 = -1
  ∧ (P1.Add (Sample.since 10) 5 55 Sample.a_neg Sample.start).1.1 = true
  ∧ (P2.Add (Sample.since 10) 5 55 Sample.b_neg Sample.start).1.1 = true
  ∧ (∃ gone c' w',
        P1.AddWithExp (Sample.since 10) 5 55 0 Sample.a_neg Sample.start
        = (true, c', w')
        ∧ gone ≠ []
        ∧ P1.items c'
          = dropKeys (<[5 := (pushFront 5 55 (P1.evictList Sample.a_neg)).1]>
                        (P1.items Sample.a_neg))
                     (nodeKeys (pushFront 5 55 (P1.evictList Sample.a_neg)).2
                               gone)
        ∧ env w' = [(5, 55)])
  ∧ (∃ gone c' w',
        P2.Add (Sample.since 10) 5 55 Sample.b_neg Sample.start = (true, c', w')
        ∧ length gone = 1%nat
        ∧ P2.items c'
          = dropKeys (<[5 := (pushFront 5 55 (P2.evictList Sample.b_neg)).1]>
                        (P2.items Sample.b_neg))
                     (nodeKeys (pushFront 5 55 (P2.evictList Sample.b_neg)).2
                               gone)
        ∧ env w' = [(5, 55)]).
Proof.
  assert (H1 : P1.wf Sample.a_neg) by compute_done.
  assert (H2 : P2.wf Sample.b_neg) by compute_done.
  assert (H3 : P1.size Sample.a_neg ≤ 0) by compute_done.
  assert (H4 : P1.items Sample.a_neg !! 5 = None) by compute_done.
  assert (H5 : P2.size Sample.b_neg ≤ 0) by compute_done.
  assert (H6 : P2.items Sample.b_neg !! 5 = None) by compute_done.
  repeat (split; [assumption|]).
  destruct (resize_unchecked (Sample.since 10) (-1) 5 55 0 Sample.a_neg
              Sample.b_neg Sample.start H1 H2) as (Hr1 & _ & Ha1 & Ha2).
  destruct (Ha1 H3 H4) as (Ht1 & Heq & _ & g1 & c1' & w1' & Hadd1 & Hg1
                           & Hev1 & _).
  destruct (Ha2 H5 H6) as (Ht2 & _ & g2 & c2' & w2' & Hadd2 & Hg2 & Hev2 & _).
  split; [exact Hr1|]. split; [by rewrite Heq|]. split; [exact Ht2|].
  split.
  - exists g1, c1', w1'. split; [exact Hadd1|]. split; [exact Hg1|].
    split; [apply Hev1|].
    assert (Hw : w1' = (P1.AddWithExp (Sample.since 10) 5 55 0 Sample.a_neg
                                      Sample.start).2) by (by rewrite Hadd1).
    rewrite Hw. reflexivity.
  - exists g2, c2', w2'. split; [exact Hadd2|]. split; [exact Hg2|].
    split; [apply Hev2|].
    assert (Hw : w2' = (P2.Add (Sample.since 10) 5 55 Sample.b_neg
                               Sample.start).2) by (by rewrite Hadd2).
    rewrite Hw. reflexivity.
Defined.

(** * The invariant of the cache *)

Section Invariant1.
Context `{Countable K} {V E : Type} `{!Zero K, !Zero V}.
Variable clock : nat → Z.
Implicit Types (k : K) (v : V) (w : World E) (e : ref) (c : P1.LRU K V E).

Lemma withList_moveToFront_wf1 c e :
  P1.wf c → P1.wf (P1.withList c (moveToFront e (P1.evictList c))).
Proof. intros Hwf. by apply linked_moveToFront. Qed.

Lemma AddWithExp_wf1 k v (expiry : Z) c w :
  P1.wf c → P1.wf (P1.AddWithExp clock k v expiry c w).1.2.
Proof.
  intros Hwf. destruct (P1.items c !! k) as [e|] eqn:Hk.
  - unfold P1.AddWithExp. rewrite Hk. cbn [fst snd].
    by apply linked_setValue, linked_moveToFront.
  - destruct (AddWithExp_new1 clock k v expiry c w Hwf Hk)
      as (c' & w' & -> & Hwf' & _). done.
Qed.

Lemma Get_wf1 k c w : P1.wf c → P1.wf (P1.Get clock k c w).1.2.
Proof.
  intros Hwf. unfold P1.Get. destruct (P1.items c !! k) as [e|] eqn:Hk; [|done].
  destruct (KeyHasExpired_elapsed1 clock k c w) as (w1 & -> & _).
  destruct (elapsed _ _ _); cbn [negb]; [done|].
  destruct (KeyHasExpired_elapsed1 clock k c w1) as (w2 & -> & _).
  destruct (removeElement_key1 k e c w2 Hwf Hk) as (c' & -> & _ & _ & _ & _ & Hwf').
  destruct (elapsed _ _ _); cbn [negb fst snd]; [done|].
  by apply linked_moveToFront.
Qed.

Lemma Contains_wf1 k c w : P1.wf c → P1.wf (P1.Contains clock k c w).1.2.
Proof.
  intros Hwf. unfold P1.Contains.
  destruct (P1.items c !! k) as [e|] eqn:Hk; [|done].
  destruct (KeyHasExpired_elapsed1 clock k c w) as (w1 & -> & _).
  destruct (removeElement_key1 k e c w1 Hwf Hk) as (c' & -> & _ & _ & _ & _ & Hwf').
  by destruct (elapsed _ _ _).
Qed.

Lemma Peek_wf1 k c w : P1.wf c → P1.wf (P1.Peek clock k c w).1.2.
Proof.
  intros Hwf. unfold P1.Peek.
  destruct (P1.items c !! k) as [e|] eqn:Hk; [|done].
  destruct (KeyHasExpired_elapsed1 clock k c w) as (w1 & -> & _).
  destruct (removeElement_key1 k e c w1 Hwf Hk) as (c' & -> & _ & _ & _ & _ & Hwf').
  by destruct (elapsed _ _ _).
Qed.

Lemma Remove_wf1 k c w : P1.wf c → P1.wf (P1.Remove clock k c w).1.2.
Proof.
  intros Hwf. unfold P1.Remove.
  destruct (P1.items c !! k) as [e|] eqn:Hk; [|done].
  destruct (KeyHasExpired_elapsed1 clock k c w) as (w1 & -> & _).
  by destruct (removeElement_key1 k e c w1 Hwf Hk) as (c' & -> & _ & _ & _ & _ & Hwf').
Qed.

Lemma GetOldest_wf1 c w : P1.wf c → P1.wf (P1.GetOldest clock c w).1.2.
Proof.
  intros Hwf. unfold P1.GetOldest.
  destruct (getOldest_false_spec clock c w Hwf)
    as (stale & c' & w' & -> & _ & _ & _ & _ & _ & Hwf' & _).
  by destruct (last _).
Qed.

Lemma RemoveOldest_wf1 c w : P1.wf c → P1.wf (P1.RemoveOldest clock c w).1.2.
Proof.
  intros Hwf. unfold P1.RemoveOldest.
  destruct (getOldest_false_spec clock c w Hwf)
    as (stale & c' & w' & -> & _ & _ & _ & _ & _ & Hwf' & _).
  destruct (last _) as [e|] eqn:Hb; [|done].
  destruct (removeElement_node1 e c' w' Hwf') as (c'' & w'' & -> & _ & _ & _ & _ & Hwf'').
  { apply last_Some in Hb as [l' ->]. rewrite elem_of_app. right. by left. }
  done.
Qed.

(** [removeOldest] keeps the cache well formed, its capacity, its default
    TTL and its callback, and does not make the list longer. *)
Lemma removeOldest_wf1 c w :
  P1.wf c →
  P1.wf (P1.removeOldest clock c w).1
  ∧ P1.size (P1.removeOldest clock c w).1 = P1.size c
  ∧ (length (order (P1.evictList (P1.removeOldest clock c w).1))
     ≤ length (order (P1.evictList c)))%nat.
Proof.
  intros Hwf. destruct (order (P1.evictList c)) as [|e es] eqn:Ho.
  - unfold P1.removeOldest, P1.getOldest, P1.findExpired, backToFront.
    rewrite Ho. cbn. destruct (_ && _); cbn; by rewrite ?Ho.
  - destruct (removeOldest_some1 clock c w Hwf)
      as (c' & w' & -> & Hlen & Hsz & _ & _ & Hwf'); [by rewrite Ho|].
    cbn [fst]. rewrite Ho in Hlen. split; [done|]. split; [done|]. lia.
Qed.

Lemma removeOldestTimes_wf1 n : ∀ c w,
  P1.wf c →
  P1.wf (P1.removeOldestTimes clock n c w).1
  ∧ P1.size (P1.removeOldestTimes clock n c w).1 = P1.size c.
Proof.
  induction n as [|n IH]; intros c w Hwf; [done|]. cbn [P1.removeOldestTimes].
  destruct (removeOldest_wf1 c w Hwf) as (Hwf' & Hsz & _).
  destruct (P1.removeOldest clock c w) as [c1 w1]. cbn [fst] in *.
  destruct (IH c1 w1 Hwf') as [? ?]. split; [done|congruence].
Qed.

Lemma Resize_wf1 (n : Z) c w : P1.wf c → P1.wf (P1.Resize clock n c w).1.2.
Proof.
  intros Hwf. unfold P1.Resize. destruct (P1.Len _ _ _) as [len w1].
  match goal with |- context [P1.removeOldestTimes clock ?m c w1] =>
    destruct (removeOldestTimes_wf1 m c w1 Hwf) as [Hwf' _];
    destruct (P1.removeOldestTimes clock m c w1) as [c2 w2] end.
  done.
Qed.

Lemma removeExpiredFrom_wf1 es : ∀ (n : Z) c w,
  P1.wf c → NoDup es → es ⊆ order (P1.evictList c) →
  P1.wf (P1.removeExpiredFrom clock es n c w).1.2.
Proof.
  induction es as [|e es IH]; intros n c w Hwf Hnd Hsub; [done|].
  cbn [P1.removeExpiredFrom]. apply NoDup_cons in Hnd as [Hne Hnd].
  destruct (P1.KeyHasExpired _ _ _ _) as [[] w1].
  - assert (Hin : e ∈ order (P1.evictList c)) by (apply Hsub; by left).
    destruct (linked_node _ _ _ Hwf Hin) as (ent & Hc & Hi).
    destruct (removeElement_key1 (key ent) e c w1 Hwf Hi)
      as (c' & -> & (Ho & _) & _ & _ & _ & Hwf').
    apply IH; [done|done|]. intros x Hx. rewrite Ho, filter_ne_elem.
    split; [apply Hsub; by right|]. by intros ->.
  - apply IH; [done|done|]. intros x Hx. apply Hsub. by right.
Qed.

Lemma RemoveExpired_wf1 c w :
  P1.wf c → P1.wf (P1.RemoveExpired clock c w).1.2.
Proof.
  intros Hwf. apply removeExpiredFrom_wf1; [done| |].
  - unfold backToFront. rewrite reverse_Permutation. apply Hwf.
  - intros x. unfold backToFront. by rewrite elem_of_reverse.
Qed.

Lemma ChangeExpiry_wf1 k (expiry : Z) c w :
  P1.wf c → P1.wf (P1.ChangeExpiry clock k expiry c w).1.2.
Proof.
  intros Hwf. unfold P1.ChangeExpiry.
  pose proof (Peek_wf1 k c w Hwf) as Hp.
  destruct (P1.Peek clock k c w) as [[[v ok] c1] w1]. by destruct ok.
Qed.

(** The rounds of [Purge] delete the keys they visit from the index. *)
Lemma purgeStep_items1 kvs : ∀ c w,
  P1.items (foldl P1.purgeStep (c, w) kvs).1 = dropKeys (P1.items c) kvs.*1
  ∧ P1.evictList (foldl P1.purgeStep (c, w) kvs).1 = P1.evictList c.
Proof.
  induction kvs as [|[k e] kvs IH]; intros c w; cbn [foldl].
  { by rewrite fmap_nil, dropKeys_nil. }
  destruct (P1.purgeStep (c, w) (k, e)) as [c2 w2] eqn:Hs.
  destruct (IH c2 w2) as [Hi Hl]. rewrite Hi, Hl.
  unfold P1.purgeStep in Hs. cbn [fst snd] in Hs. injection Hs as <- _.
  cbn. by rewrite dropKeys_delete.
Qed.

Lemma Purge_empty1 seed c w :
  P1.items (P1.Purge seed c w).1 = ∅
  ∧ order (P1.evictList (P1.Purge seed c w).1) = [].
Proof.
  unfold P1.Purge.
  destruct (purgeStep_items1 (rangeOrder seed (map_to_list (P1.items c))) c w)
    as [Hi Hl].
  destruct (foldl _ _ _) as [c1 w1]. cbn [fst snd] in *. split; [|done].
  unfold P1.withList. cbn. rewrite Hi. apply map_eq. intros k.
  rewrite lookup_dropKeys, lookup_empty.
  destruct (decide _) as [|Hn]; [done|].
  destruct (P1.items c !! k) as [e|] eqn:Hk; [|done].
  exfalso. apply Hn. apply list_elem_of_fmap. exists (k, e).
  split; [done|]. rewrite rangeOrder_perm. by apply elem_of_map_to_list.
Qed.

Lemma Purge_wf1 seed c w : P1.wf (P1.Purge seed c w).1.
Proof.
  destruct (Purge_empty1 seed c w) as [Hi Ho]. unfold P1.wf, linked.
  rewrite Hi, Ho. split; [constructor|].
  split; [apply map_Forall_empty|constructor].
Qed.

(** Every call keeps the cache well formed. *)
Lemma exec_wf1 op c w : P1.wf c → P1.wf (P1.exec clock op c w).1.
Proof.
  intros Hwf. destruct op; cbn [P1.exec]; try done.
  - pose proof (AddWithExp_wf1 k v 0 c w Hwf) as Hp. unfold P1.Add.
    by destruct (P1.AddWithExp _ _ _ _ _ _) as [[? ?] ?].
  - pose proof (AddWithExp_wf1 k v expiry c w Hwf) as Hp.
    by destruct (P1.AddWithExp _ _ _ _ _ _) as [[? ?] ?].
  - pose proof (Get_wf1 k c w Hwf). by destruct (P1.Get _ _ _ _) as [[? ?] ?].
  - pose proof (Contains_wf1 k c w Hwf).
    by destruct (P1.Contains _ _ _ _) as [[? ?] ?].
  - pose proof (Peek_wf1 k c w Hwf). by destruct (P1.Peek _ _ _ _) as [[? ?] ?].
  - pose proof (Remove_wf1 k c w Hwf).
    by destruct (P1.Remove _ _ _ _) as [[? ?] ?].
  - pose proof (RemoveOldest_wf1 c w Hwf).
    by destruct (P1.RemoveOldest _ _ _) as [[? ?] ?].
  - pose proof (GetOldest_wf1 c w Hwf).
    by destruct (P1.GetOldest _ _ _) as [[? ?] ?].
  - pose proof (Resize_wf1 n c w Hwf).
    by destruct (P1.Resize _ _ _ _) as [[? ?] ?].
  - pose proof (RemoveExpired_wf1 c w Hwf).
    by destruct (P1.RemoveExpired _ _ _) as [[? ?] ?].
  - pose proof (ChangeExpiry_wf1 k expiry c w Hwf).
    by destruct (P1.ChangeExpiry _ _ _ _ _) as [[? ?] ?].
  - apply Purge_wf1.
Qed.

(** Well-formedness is an invariant: it holds of the cache that the
    constructor returns and after every sequence of calls on it. *)
Lemma run_wf1 ops : ∀ c w, P1.wf c → P1.wf (P1.run clock ops c w).1.
Proof.
  unfold P1.run. induction ops as [|op ops IH]; intros c w Hwf; [done|].
  cbn [foldl fst snd]. pose proof (exec_wf1 op c w Hwf) as Hwf'.
  destruct (P1.exec clock op c w) as [c1 w1]. by apply IH.
Qed.
(** [MoveItem] keeps both caches well formed. *)
Lemma MoveItem_wf1 k (dest src : P1.LRU K V E) w :
  P1.wf dest → P1.wf src →
  P1.wf (P1.MoveItem clock k dest src w).1.1.2
  ∧ P1.wf (P1.MoveItem clock k dest src w).1.2.
Proof.
  intros Hd Hs. unfold P1.MoveItem.
  pose proof (Peek_wf1 k src w Hs) as Hp.
  destruct (P1.Peek clock k src w) as [[[val ok] src1] w1]. cbn [fst snd] in Hp.
  destruct ok; [|done].
  destruct (P1.KeyHasExpired clock k src1 w1) as [[] w2]; cbn [negb]; [done|].
  pose proof (Remove_wf1 k src1 w2 Hp) as Hr.
  destruct (P1.Remove clock k src1 w2) as [[b src2] w3]. cbn [fst snd] in Hr.
  pose proof (AddWithExp_wf1 k val (P1.ExpiryForKey k src2) dest w3 Hd) as Ha.
  by destruct (P1.AddWithExp _ _ _ _ _ _) as [[b' dest1] w4].
Qed.

(** [Keys] lists at most one key per node, so that [Len] is at most the
    length of the list. *)
Lemma keysFrom_length1 es c : ∀ w,
  (length (P1.keysFrom clock es c w).1 ≤ length es)%nat.
Proof.
  induction es as [|e es IH]; intros w; [done|]. cbn [P1.keysFrom].
  destruct (P1.KeyHasExpired _ _ _ _) as [b w1].
  specialize (IH w1). destruct (P1.keysFrom clock es c w1) as [ks w2].
  destruct b; cbn in *; lia.
Qed.

Lemma Len_le_length1 c w :
  (P1.Len clock c w).1 ≤ Z.of_nat (length (order (P1.evictList c))).
Proof.
  unfold P1.Len, P1.Keys.
  pose proof (keysFrom_length1 (backToFront (P1.evictList c)) c w) as Hl.
  destruct (P1.keysFrom _ _ _ _) as [ks w1]. cbn [fst] in *.
  unfold backToFront in Hl. rewrite length_reverse in Hl. lia.
Qed.

(** An insertion keeps the list within the capacity. *)
Lemma AddWithExp_within1 k v (expiry : Z) c w :
  P1.wf c → Z.of_nat (length (order (P1.evictList c))) ≤ P1.size c →
  P1.size (P1.AddWithExp clock k v expiry c w).1.2 = P1.size c
  ∧ Z.of_nat (length (order (P1.evictList (P1.AddWithExp clock k v expiry c w).1.2)))
    ≤ P1.size c.
Proof.
  intros Hwf Hle. destruct (P1.items c !! k) as [e|] eqn:Hk.
  - destruct (overwrite_list _ _ k v e Hwf Hk) as [(_ & Hp & _) _].
    unfold P1.AddWithExp. rewrite Hk. cbn [fst snd P1.withList P1.size P1.evictList].
    split; [done|]. by rewrite Hp.
  - destruct (AddWithExp_new1 clock k v expiry c w Hwf Hk)
      as (c' & w' & -> & _ & Hsz & _ & _ & Hlen). cbn [fst snd].
    split; [done|].
    destruct (Z.ltb_spec (P1.size c) (Z.of_nat (S (length (order (P1.evictList c))))));
      lia.
Qed.

(** On a cache built with a positive capacity (its list is empty), after
    every sequence of insertions the list holds at most as many nodes as the
    capacity, and [Len] reports at most this many. *)
Lemma adds_within_capacity1 ops : ∀ c w,
  forallb P1.isAdd ops = true →
  P1.wf c → Z.of_nat (length (order (P1.evictList c))) ≤ P1.size c →
  P1.wf (P1.run clock ops c w).1
  ∧ P1.size (P1.run clock ops c w).1 = P1.size c
  ∧ Z.of_nat (length (order (P1.evictList (P1.run clock ops c w).1))) ≤ P1.size c
  ∧ ∀ w', (P1.Len clock (P1.run clock ops c w).1 w').1 ≤ P1.size c.
Proof.
  unfold P1.run. induction ops as [|op ops IH]; intros c w Hadd Hwf Hle.
  { cbn [foldl fst]. repeat (split; [done|]). intros w'.
    pose proof (Len_le_length1 c w'). lia. }
  cbn [forallb] in Hadd. apply andb_true_iff in Hadd as [Hop Hadd].
  cbn [foldl fst snd].
  assert (Hstep : P1.wf (P1.exec clock op c w).1
                  ∧ P1.size (P1.exec clock op c w).1 = P1.size c
                  ∧ Z.of_nat (length (order (P1.evictList (P1.exec clock op c w).1)))
                    ≤ P1.size c).
  { split; [by apply exec_wf1|].
    destruct op; try done; cbn [P1.exec]; unfold P1.Add.
    - pose proof (AddWithExp_within1 k v 0 c w Hwf Hle).
      by destruct (P1.AddWithExp _ _ _ _ _ _) as [[? ?] ?].
    - pose proof (AddWithExp_within1 k v expiry c w Hwf Hle).
      by destruct (P1.AddWithExp _ _ _ _ _ _) as [[? ?] ?]. }
  destruct Hstep as (Hwf' & Hsz & Hle').
  destruct (P1.exec clock op c w) as [c1 w1]. cbn [fst snd] in *.
  rewrite <- Hsz in Hle' |- *. by apply IH.
Qed.
End Invariant1.

Section Invariant2.
Context `{Countable K} {V E : Type} `{!Zero K, !Zero V}.
Variable clock : nat → Z.
Implicit Types (k : K) (v : V) (w : World E) (e : ref) (c : P2.LRU K V E).

Lemma Add_wf2 k v c w : P2.wf c → P2.wf (P2.Add clock k v c w).1.2.
Proof.
  intros Hwf. destruct (P2.items c !! k) as [e|] eqn:Hk.
  - unfold P2.Add. rewrite Hk. cbn [fst snd].
    by apply linked_setValue, linked_moveToFront.
  - destruct (Add_new2 clock k v c w Hwf Hk) as (c' & w' & -> & Hwf' & _). done.
Qed.

Lemma Get_wf2 k c w : P2.wf c → P2.wf (P2.Get clock k c w).1.2.
Proof.
  intros Hwf. unfold P2.Get. destruct (P2.items c !! k) as [e|] eqn:Hk; [|done].
  destruct (P2.keyHasExpired clock k c w) as [[] w1]; cbn [negb fst snd]; [done|].
  by apply linked_moveToFront.
Qed.

Lemma Contains_same2 k c w : (P2.Contains clock k c w).1.2 = c.
Proof.
  unfold P2.Contains. destruct (bool_decide _); [|done].
  by destruct (P2.keyHasExpired clock k c w) as [[] w1].
Qed.

Lemma Peek_same2 k c w : (P2.Peek clock k c w).1.2 = c.
Proof.
  unfold P2.Peek. destruct (P2.items c !! k); [|done].
  by destruct (P2.keyHasExpired clock k c w) as [[] w1].
Qed.

Lemma GetOldest_same2 c w : (P2.GetOldest clock c w).1.2 = c.
Proof.
  unfold P2.GetOldest. destruct (back _); [|done].
  by destruct (P2.keyHasExpired clock zero c w) as [[] w1].
Qed.

Lemma Remove_wf2 k c w : P2.wf c → P2.wf (P2.Remove clock k c w).1.2.
Proof.
  intros Hwf. unfold P2.Remove.
  destruct (P2.items c !! k) as [e|] eqn:Hk; [|done].
  destruct (P2.keyHasExpired clock k c w) as [b w1].
  destruct (removeElement_key2 k e c w1 Hwf Hk)
    as (c' & -> & _ & _ & _ & _ & _ & Hwf').
  by destruct b.
Qed.

Lemma RemoveOldest_wf2 c w : P2.wf c → P2.wf (P2.RemoveOldest clock c w).1.2.
Proof.
  intros Hwf. unfold P2.RemoveOldest.
  destruct (back (P2.evictList c)) as [e|] eqn:Hb; [|done].
  destruct (P2.keyHasExpired clock zero c w) as [b w1].
  destruct (removeElement_node2 e c w1 Hwf (back_elem _ _ Hb))
    as (c' & w' & -> & _ & _ & _ & _ & _ & Hwf').
  by destruct b.
Qed.

(** [removeOldest] keeps the cache well formed and its capacity, and does
    not make the list longer. *)
Lemma removeOldest_wf2 c w :
  P2.wf c →
  P2.wf (P2.removeOldest clock c w).1
  ∧ P2.size (P2.removeOldest clock c w).1 = P2.size c
  ∧ (length (order (P2.evictList (P2.removeOldest clock c w).1))
     ≤ length (order (P2.evictList c)))%nat.
Proof.
  intros Hwf. destruct (order (P2.evictList c)) as [|e es] eqn:Ho.
  - unfold P2.removeOldest, P2.findExpired, backToFront, back.
    rewrite Ho. cbn. destruct (P2.expiryBasedEvict c); cbn; by rewrite ?Ho.
  - destruct (removeOldest_one2 clock c w Hwf)
      as (c' & w' & -> & Hlen & Hsz & _ & _ & _ & Hwf'); [by rewrite Ho|].
    cbn [fst]. rewrite Ho in Hlen. split; [done|]. split; [done|]. lia.
Qed.

Lemma removeOldestTimes_wf2 n : ∀ c w,
  P2.wf c →
  P2.wf (P2.removeOldestTimes clock n c w).1
  ∧ P2.size (P2.removeOldestTimes clock n c w).1 = P2.size c.
Proof.
  induction n as [|n IH]; intros c w Hwf; [done|]. cbn [P2.removeOldestTimes].
  destruct (removeOldest_wf2 c w Hwf) as (Hwf' & Hsz & _).
  destruct (P2.removeOldest clock c w) as [c1 w1]. cbn [fst] in *.
  destruct (IH c1 w1 Hwf') as [? ?]. split; [done|congruence].
Qed.

Lemma Resize_wf2 (n : Z) c w : P2.wf c → P2.wf (P2.Resize clock n c w).1.2.
Proof.
  intros Hwf. unfold P2.Resize. destruct (P2.Len _ _ _) as [len w1].
  match goal with |- context [P2.removeOldestTimes clock ?m c w1] =>
    destruct (removeOldestTimes_wf2 m c w1 Hwf) as [Hwf' _];
    destruct (P2.removeOldestTimes clock m c w1) as [c2 w2] end.
  done.
Qed.

Lemma removeExpiredFrom_wf2 es : ∀ (n : Z) c w,
  P2.wf c → NoDup es → es ⊆ order (P2.evictList c) →
  P2.wf (P2.removeExpiredFrom clock es n c w).1.2.
Proof.
  induction es as [|e es IH]; intros n c w Hwf Hnd Hsub; [done|].
  cbn [P2.removeExpiredFrom]. apply NoDup_cons in Hnd as [Hne Hnd].
  destruct (P2.keyHasExpired _ _ _ _) as [[] w1].
  - assert (Hin : e ∈ order (P2.evictList c)) by (apply Hsub; by left).
    destruct (linked_node _ _ _ Hwf Hin) as (ent & Hc & Hi).
    destruct (removeElement_key2 (key ent) e c w1 Hwf Hi)
      as (c' & -> & (Ho & _) & _ & _ & _ & _ & Hwf').
    apply IH; [done|done|]. intros x Hx. rewrite Ho, filter_ne_elem.
    split; [apply Hsub; by right|]. by intros ->.
  - apply IH; [done|done|]. intros x Hx. apply Hsub. by right.
Qed.

Lemma RemoveExpired_wf2 c w :
  P2.wf c → P2.wf (P2.RemoveExpired clock c w).1.2.
Proof.
  intros Hwf. apply removeExpiredFrom_wf2; [done| |].
  - unfold backToFront. rewrite reverse_Permutation. apply Hwf.
  - intros x. unfold backToFront. by rewrite elem_of_reverse.
Qed.

(** The rounds of [Purge] delete the keys they visit from the index. *)
Lemma purgeStep_items2 kvs : ∀ c w,
  P2.items (foldl P2.purgeStep (c, w) kvs).1 = dropKeys (P2.items c) kvs.*1
  ∧ P2.evictList (foldl P2.purgeStep (c, w) kvs).1 = P2.evictList c.
Proof.
  induction kvs as [|[k e] kvs IH]; intros c w; cbn [foldl].
  { by rewrite fmap_nil, dropKeys_nil. }
  destruct (P2.purgeStep (c, w) (k, e)) as [c2 w2] eqn:Hs.
  destruct (IH c2 w2) as [Hi Hl]. rewrite Hi, Hl.
  unfold P2.purgeStep in Hs. cbn [fst snd] in Hs. injection Hs as <- _.
  cbn. by rewrite dropKeys_delete.
Qed.

Lemma Purge_empty2 seed c w :
  P2.items (P2.Purge seed c w).1 = ∅
  ∧ order (P2.evictList (P2.Purge seed c w).1) = [].
Proof.
  unfold P2.Purge.
  destruct (purgeStep_items2 (rangeOrder seed (map_to_list (P2.items c))) c w)
    as [Hi Hl].
  destruct (foldl _ _ _) as [c1 w1]. cbn [fst snd] in *. split; [|done].
  unfold P2.withList. cbn. rewrite Hi. apply map_eq. intros k.
  rewrite lookup_dropKeys, lookup_empty.
  destruct (decide _) as [|Hn]; [done|].
  destruct (P2.items c !! k) as [e|] eqn:Hk; [|done].
  exfalso. apply Hn. apply list_elem_of_fmap. exists (k, e).
  split; [done|]. rewrite rangeOrder_perm. by apply elem_of_map_to_list.
Qed.

Lemma Purge_wf2 seed c w : P2.wf (P2.Purge seed c w).1.
Proof.
  destruct (Purge_empty2 seed c w) as [Hi Ho]. unfold P2.wf, linked.
  rewrite Hi, Ho. split; [constructor|].
  split; [apply map_Forall_empty|constructor].
Qed.

(** Every call keeps the cache well formed. *)
Lemma exec_wf2 op c w : P2.wf c → P2.wf (P2.exec clock op c w).1.
Proof.
  intros Hwf. destruct op; cbn [P2.exec]; try done.
  - pose proof (Add_wf2 k v c w Hwf). by destruct (P2.Add _ _ _ _ _) as [[? ?] ?].
  - pose proof (Get_wf2 k c w Hwf). by destruct (P2.Get _ _ _ _) as [[? ?] ?].
  - pose proof (Contains_same2 k c w).
    destruct (P2.Contains _ _ _ _) as [[? ?] ?]. cbn in *. by subst.
  - pose proof (Peek_same2 k c w).
    destruct (P2.Peek _ _ _ _) as [[? ?] ?]. cbn in *. by subst.
  - pose proof (Remove_wf2 k c w Hwf).
    by destruct (P2.Remove _ _ _ _) as [[? ?] ?].
  - pose proof (RemoveOldest_wf2 c w Hwf).
    by destruct (P2.RemoveOldest _ _ _) as [[? ?] ?].
  - pose proof (GetOldest_same2 c w).
    destruct (P2.GetOldest _ _ _) as [[? ?] ?]. cbn in *. by subst.
  - pose proof (Resize_wf2 n c w Hwf).
    by destruct (P2.Resize _ _ _ _) as [[? ?] ?].
  - pose proof (RemoveExpired_wf2 c w Hwf).
    by destruct (P2.RemoveExpired _ _ _) as [[? ?] ?].
  - apply Purge_wf2.
Qed.

(** Well-formedness is an invariant: it holds of the cache that the
    constructor returns and after every sequence of calls on it. *)
Lemma run_wf2 ops : ∀ c w, P2.wf c → P2.wf (P2.run clock ops c w).1.
Proof.
  unfold P2.run. induction ops as [|op ops IH]; intros c w Hwf; [done|].
  cbn [foldl fst snd]. pose proof (exec_wf2 op c w Hwf) as Hwf'.
  destruct (P2.exec clock op c w) as [c1 w1]. by apply IH.
Qed.

Lemma keysFrom_length2 es c : ∀ w,
  (length (P2.keysFrom clock es c w).1 ≤ length es)%nat.
Proof.
  induction es as [|e es IH]; intros w; [done|]. cbn [P2.keysFrom].
  destruct (P2.keyHasExpired _ _ _ _) as [b w1].
  specialize (IH w1). destruct (P2.keysFrom clock es c w1) as [ks w2].
  destruct b; cbn in *; lia.
Qed.

Lemma Len_le_length2 c w :
  (P2.Len clock c w).1 ≤ Z.of_nat (length (order (P2.evictList c))).
Proof.
  unfold P2.Len, P2.Keys.
  pose proof (keysFrom_length2 (backToFront (P2.evictList c)) c w) as Hl.
  destruct (P2.keysFrom _ _ _ _) as [ks w1]. cbn [fst] in *.
  unfold backToFront in Hl. rewrite length_reverse in Hl. lia.
Qed.

(** An insertion keeps the list within the capacity. *)
Lemma Add_within2 k v c w :
  P2.wf c → Z.of_nat (length (order (P2.evictList c))) ≤ P2.size c →
  P2.size (P2.Add clock k v c w).1.2 = P2.size c
  ∧ Z.of_nat (length (order (P2.evictList (P2.Add clock k v c w).1.2)))
    ≤ P2.size c.
Proof.
  intros Hwf Hle. destruct (P2.items c !! k) as [e|] eqn:Hk.
  - destruct (overwrite_list _ _ k v e Hwf Hk) as [(_ & Hp & _) _].
    unfold P2.Add. rewrite Hk. cbn [fst snd P2.withList P2.size P2.evictList].
    split; [done|]. by rewrite Hp.
  - destruct (Add_new2 clock k v c w Hwf Hk)
      as (c' & w' & -> & _ & Hsz & _ & _ & _ & Hlen). cbn [fst snd].
    split; [done|]. rewrite Hlen.
    destruct (Z.ltb_spec (P2.size c) (Z.of_nat (S (length (order (P2.evictList c))))));
      lia.
Qed.

(** On a cache built with a positive capacity (its list is empty), after
    every sequence of insertions the list holds at most as many nodes as the
    capacity, and [Len] reports at most this many. *)
Lemma adds_within_capacity2 ops : ∀ c w,
  forallb P2.isAdd ops = true →
  P2.wf c → Z.of_nat (length (order (P2.evictList c))) ≤ P2.size c →
  P2.wf (P2.run clock ops c w).1
  ∧ P2.size (P2.run clock ops c w).1 = P2.size c
  ∧ Z.of_nat (length (order (P2.evictList (P2.run clock ops c w).1))) ≤ P2.size c
  ∧ ∀ w', (P2.Len clock (P2.run clock ops c w).1 w').1 ≤ P2.size c.
Proof.
  unfold P2.run. induction ops as [|op ops IH]; intros c w Hadd Hwf Hle.
  { cbn [foldl fst]. repeat (split; [done|]). intros w'.
    pose proof (Len_le_length2 c w'). lia. }
  cbn [forallb] in Hadd. apply andb_true_iff in Hadd as [Hop Hadd].
  cbn [foldl fst snd].
  assert (Hstep : P2.wf (P2.exec clock op c w).1
                  ∧ P2.size (P2.exec clock op c w).1 = P2.size c
                  ∧ Z.of_nat (length (order (P2.evictList (P2.exec clock op c w).1)))
                    ≤ P2.size c).
  { split; [by apply exec_wf2|].
    destruct op; try done; cbn [P2.exec].
    pose proof (Add_within2 k v c w Hwf Hle).
    by destruct (P2.Add _ _ _ _ _) as [[? ?] ?]. }
  destruct Hstep as (Hwf' & Hsz & Hle').
  destruct (P2.exec clock op c w) as [c1 w1]. cbn [fst snd] in *.
  rewrite <- Hsz in Hle' |- *. by apply IH.
Qed.
End Invariant2.

(** * From the constructor on

    The caches that a client can hold: built by the constructor with a
    positive size and then used through the calls. Each of them is well
    formed, so that [Values] returns its slice on it. *)
Section Reachable.
Context `{Countable K} {V E : Type} `{!Zero K, !Zero V}.
Variable clock : nat → Z.

Lemma constructed_wf1 (n ttl : Z) (cb : option (K → V → E → E)) ops w
    (c : P1.LRU K V E) :
  P1.NewLRUWithEvictTTL n cb ttl = Some c →
  P1.wf (P1.run clock ops c w).1
  ∧ ∀ w', ∃ vs w'', P1.Values clock (P1.run clock ops c w).1 w' = (Some vs, w'').
Proof.
  unfold P1.NewLRUWithEvictTTL. destruct (n <=? 0); [done|]. intros [= <-].
  assert (Hwf : P1.wf (P1.run clock ops (P1.mkLRU n newList ∅ cb ttl ∅) w).1).
  { apply run_wf1, linked_newList. }
  split; [done|]. intros w'.
  by apply (Values_in_range clock _ (P2.mkLRU n newList ∅ cb ttl ∅ false) w').
Qed.

Lemma constructed_wf2 (n ttl : Z) (cb : option (K → V → E → E)) (flag : bool)
    ops w (c : P2.LRU K V E) :
  P2.NewLRUWithEvictTTL n cb ttl flag = Some c →
  P2.wf (P2.run clock ops c w).1
  ∧ ∀ w', ∃ vs w'', P2.Values clock (P2.run clock ops c w).1 w' = (Some vs, w'').
Proof.
  unfold P2.NewLRUWithEvictTTL. destruct (n <=? 0); [done|]. intros [= <-].
  assert (Hwf : P2.wf (P2.run clock ops (P2.mkLRU n newList ∅ cb ttl ∅ flag) w).1).
  { apply run_wf2, linked_newList. }
  split; [done|]. intros w'.
  by apply (Values_in_range clock (P1.mkLRU n newList ∅ cb ttl ∅) _ w').
Qed.

(** After the constructor and any sequence of insertions, [Len] is at most
    the capacity the cache was built with. *)
Lemma constructed_within (n ttl : Z) (cb : option (K → V → E → E)) (flag : bool)
    ops1 ops2 w (c1 : P1.LRU K V E) (c2 : P2.LRU K V E) :
  P1.NewLRUWithEvictTTL n cb ttl = Some c1 →
  P2.NewLRUWithEvictTTL n cb ttl flag = Some c2 →
  forallb P1.isAdd ops1 = true → forallb P2.isAdd ops2 = true →
  (∀ w', (P1.Len clock (P1.run clock ops1 c1 w).1 w').1 ≤ n)
  ∧ (∀ w', (P2.Len clock (P2.run clock ops2 c2 w).1 w').1 ≤ n).
Proof.
  unfold P1.NewLRUWithEvictTTL, P2.NewLRUWithEvictTTL.
  destruct (Z.leb_spec n 0); [done|]. intros [= <-] [= <-] Ha1 Ha2. split.
  - destruct (adds_within_capacity1 clock ops1
                (P1.mkLRU n newList ∅ cb ttl ∅) w Ha1) as (_ & _ & _ & Hlen);
      [apply linked_newList|cbn; lia|exact Hlen].
  - destruct (adds_within_capacity2 clock ops2
                (P2.mkLRU n newList ∅ cb ttl ∅ flag) w Ha2) as (_ & _ & _ & Hlen);
      [apply linked_newList|cbn; lia|exact Hlen].
Qed.
End Reachable.


(** * Insertions and lookups, one after the other *)

Section Lookup.
Context `{Countable K} {V E : Type} `{!Zero K, !Zero V}.
Variable clock : nat → Z.
Implicit Types (k : K) (v : V) (w : World E) (e : ref).

Lemma deref_moveToFront (l : lruList K V) e x :
  deref (moveToFront e l) x = deref l x.
Proof. unfold moveToFront, deref. by destruct (decide _). Qed.

(** X1. [Get] on a resident key whose expiry has not elapsed (in part_001:
    at neither of its two readings of the clock) returns the value with
    found = true and moves the node to the front: the other nodes keep
    their order, no node is dropped, and the index, the expiries, the
    capacity and the callback's state are as before. On an absent key it
    returns found = false and changes nothing. *)
Theorem get_hit_miss k (c1 : P1.LRU K V E) (c2 : P2.LRU K V E) w :
  P1.wf c1 → P2.wf c2 →
  match P1.items c1 !! k with
  | Some e =>
      elapsed (P1.itemExpiries c1) (clock (tick w)) k = false →
      elapsed (P1.itemExpiries c1)
              (clock (tick (P1.KeyHasExpired clock k c1 w).2)) k = false →
      ∃ c' w',
        P1.Get clock k c1 w
        = ((value (deref (P1.evictList c1) e), true), c', w')
        ∧ order (P1.evictList c')
          = e :: filter (λ x, x ≠ e) (order (P1.evictList c1))
        ∧ order (P1.evictList c') ≡ₚ order (P1.evictList c1)
        ∧ cells (P1.evictList c') = cells (P1.evictList c1)
        ∧ P1.items c' = P1.items c1
        ∧ P1.itemExpiries c' = P1.itemExpiries c1
        ∧ P1.size c' = P1.size c1
        ∧ env w' = env w
  | None => P1.Get clock k c1 w = ((zero, false), c1, w)
  end
  ∧ match P2.items c2 !! k with
    | Some e =>
        elapsed (P2.itemExpiries c2) (clock (tick w)) k = false →
        ∃ c' w',
          P2.Get clock k c2 w
          = ((value (deref (P2.evictList c2) e), true), c', w')
          ∧ order (P2.evictList c')
            = e :: filter (λ x, x ≠ e) (order (P2.evictList c2))
          ∧ order (P2.evictList c') ≡ₚ order (P2.evictList c2)
          ∧ cells (P2.evictList c') = cells (P2.evictList c2)
          ∧ P2.items c' = P2.items c2
          ∧ P2.itemExpiries c' = P2.itemExpiries c2
          ∧ P2.size c' = P2.size c2
          ∧ env w' = env w
    | None => P2.Get clock k c2 w = ((zero, false), c2, w)
    end.
Proof.
  intros Hwf1 Hwf2. split.
  - unfold P1.Get. destruct (P1.items c1 !! k) as [e|] eqn:Hk; [|done].
    intros Hx1.
    destruct (KeyHasExpired_elapsed1 clock k c1 w) as (w1 & -> & He1 & _).
    rewrite Hx1. cbn [negb snd]. intros Hx2.
    destruct (KeyHasExpired_elapsed1 clock k c1 w1) as (w2 & -> & He2 & _).
    rewrite Hx2. cbn [negb].
    destruct (moveToFront_linked _ _ _ _ Hwf1 Hk) as (Ho & Hp & Hc).
    eexists _, w2. split; [by rewrite deref_moveToFront|].
    cbn. repeat (split; [done|]). congruence.
  - unfold P2.Get. destruct (P2.items c2 !! k) as [e|] eqn:Hk; [|done].
    intros Hx1.
    destruct (keyHasExpired_elapsed2 clock k c2 w) as (w1 & -> & He1 & _).
    rewrite Hx1. cbn [negb].
    destruct (moveToFront_linked _ _ _ _ Hwf2 Hk) as (Ho & Hp & Hc).
    eexists _, w1. split; [by rewrite deref_moveToFront|].
    cbn. by repeat (split; [done|]).
Qed.

(** X2. After [Remove] of a key, the key is absent: [Contains], [Peek],
    [Get] and a second [Remove] all answer false and change nothing; and
    when the key was resident, no expiry is left for it, so that
    [ExpiryForKey] answers the zero time. *)
Theorem remove_then_absent k (c1 : P1.LRU K V E) (c2 : P2.LRU K V E) w w2 :
  P1.wf c1 → P2.wf c2 →
  (let c' := (P1.Remove clock k c1 w).1.2 in
   P1.items c' !! k = None
   ∧ P1.Contains clock k c' w2 = (false, c', w2)
   ∧ P1.Peek clock k c' w2 = ((zero, false), c', w2)
   ∧ P1.Get clock k c' w2 = ((zero, false), c', w2)
   ∧ P1.Remove clock k c' w2 = (false, c', w2)
   ∧ (is_Some (P1.items c1 !! k) →
      P1.ExpiryForKey k c' = 0
      ∧ P1.KeyHasExpired clock k c' w2 = (false, w2)))
  ∧ (let c' := (P2.Remove clock k c2 w).1.2 in
     P2.items c' !! k = None
     ∧ P2.Contains clock k c' w2 = (false, c', w2)
     ∧ P2.Peek clock k c' w2 = ((zero, false), c', w2)
     ∧ P2.Get clock k c' w2 = ((zero, false), c', w2)
     ∧ P2.Remove clock k c' w2 = (false, c', w2)
     ∧ (is_Some (P2.items c2 !! k) →
        P2.itemExpiries c' !! k = None
        ∧ P2.keyHasExpired clock k c' w2 = (false, w2))).
Proof.
  intros Hwf1 Hwf2. split.
  - assert (Hi : P1.items (P1.Remove clock k c1 w).1.2 !! k = None
                 ∧ (is_Some (P1.items c1 !! k) →
                    P1.itemExpiries (P1.Remove clock k c1 w).1.2 !! k = None)).
    { unfold P1.Remove. destruct (P1.items c1 !! k) as [e|] eqn:Hk.
      - destruct (KeyHasExpired_elapsed1 clock k c1 w) as (w1 & -> & _).
        destruct (removeElement_key1 k e c1 w1 Hwf1 Hk)
          as (c' & -> & (_ & _ & _ & Hi & Hx) & _).
        cbn [fst snd]. by rewrite Hi, Hx, !lookup_delete_eq.
      - split; [done|]. by intros [? ?]. }
    destruct Hi as [Hi Hx]. cbn zeta.
    set (c' := (P1.Remove clock k c1 w).1.2) in *.
    unfold P1.Contains, P1.Peek, P1.Get, P1.Remove, P1.ExpiryForKey,
      P1.KeyHasExpired. rewrite Hi. repeat (split; [done|]).
    intros Hs. by rewrite (Hx Hs).
  - assert (Hi : P2.items (P2.Remove clock k c2 w).1.2 !! k = None
                 ∧ (is_Some (P2.items c2 !! k) →
                    P2.itemExpiries (P2.Remove clock k c2 w).1.2 !! k = None)).
    { unfold P2.Remove. destruct (P2.items c2 !! k) as [e|] eqn:Hk.
      - destruct (keyHasExpired_elapsed2 clock k c2 w) as (w1 & -> & _).
        destruct (removeElement_key2 k e c2 w1 Hwf2 Hk)
          as (c' & -> & (_ & _ & _ & Hi & Hx) & _).
        destruct (elapsed _ _ _); cbn [negb fst snd];
          by rewrite Hi, Hx, !lookup_delete_eq.
      - split; [done|]. by intros [? ?]. }
    destruct Hi as [Hi Hx]. cbn zeta.
    set (c' := (P2.Remove clock k c2 w).1.2) in *.
    unfold P2.Contains, P2.Peek, P2.Get, P2.Remove, P2.keyHasExpired.
    rewrite Hi. rewrite bool_decide_eq_false_2 by by intros [? ?].
    repeat (split; [done|]).
    intros Hs. by rewrite (Hx Hs).
Qed.

(** The node that [pushFront] allocates, and the nodes that were there. *)
Lemma deref_pushFront (l : lruList K V) k v x :
  deref (pushFront k v l).2 x
  = if decide (x = length (cells l)) then mkEntry k v
    else if decide (x < length (cells l))%nat then deref l x
    else mkEntry zero zero.
Proof.
  unfold deref. cbn. destruct (decide (x = _)) as [->|Hne].
  - by rewrite lookup_app_r, Nat.sub_diag.
  - destruct (decide (x < length (cells l))%nat) as [Hlt|Hge].
    + by rewrite lookup_app_l.
    + rewrite lookup_ge_None_2; [done|]. rewrite length_app. cbn. lia.
Qed.

(** [AddWithExp] of a key that is not present into a list shorter than the
    capacity: nothing is evicted. *)
Lemma AddWithExp_fits1 k v (expiry : Z) (c : P1.LRU K V E) w :
  P1.items c !! k = None →
  Z.of_nat (length (order (P1.evictList c))) < P1.size c →
  ∃ c' w',
    P1.AddWithExp clock k v expiry c w = (false, c', w')
    ∧ P1.evictList c' = (pushFront k v (P1.evictList c)).2
    ∧ P1.items c' = <[k := length (cells (P1.evictList c))]> (P1.items c)
    ∧ P1.itemExpiries c'
      = (if IsZero expiry
         then if 0 <? P1.itemTTL c
              then <[k := clock (tick w) + P1.itemTTL c]> (P1.itemExpiries c)
              else P1.itemExpiries c
         else <[k := expiry]> (P1.itemExpiries c))
    ∧ P1.size c' = P1.size c
    ∧ env w' = env w.
Proof.
  intros Hk Hlt. unfold P1.AddWithExp. rewrite Hk. cbn [pushFront].
  unfold llen. cbn [P1.evictList order length].
  assert (Hnlt : (P1.size c <? Z.of_nat (S (length (order (P1.evictList c)))))
                 = false) by (apply Z.ltb_ge; lia).
  destruct (IsZero expiry); cbn [negb]; [destruct (0 <? P1.itemTTL c)|];
    cbn [timeNow]; rewrite Hnlt; by eexists _, _.
Qed.

Lemma Add_fits2 k v (c : P2.LRU K V E) w :
  P2.items c !! k = None →
  Z.of_nat (length (order (P2.evictList c))) < P2.size c →
  ∃ c' w',
    P2.Add clock k v c w = (false, c', w')
    ∧ P2.evictList c' = (pushFront k v (P2.evictList c)).2
    ∧ P2.items c' = <[k := length (cells (P2.evictList c))]> (P2.items c)
    ∧ P2.itemExpiries c'
      = (if 0 <? P2.itemTTL c
         then <[k := clock (tick w) + P2.itemTTL c]> (P2.itemExpiries c)
         else P2.itemExpiries c)
    ∧ P2.size c' = P2.size c
    ∧ env w' = env w.
Proof.
  intros Hk Hlt. unfold P2.Add. rewrite Hk. cbn [pushFront].
  unfold llen. cbn [P2.evictList order length].
  assert (Hnlt : (P2.size c <? Z.of_nat (S (length (order (P2.evictList c)))))
                 = false) by (apply Z.ltb_ge; lia).
  destruct (0 <? P2.itemTTL c); cbn [timeNow]; rewrite Hnlt; by eexists _, _.
Qed.

(** X3. An insertion that needs no eviction (the key is present, or the
    list is shorter than the capacity) returns false, and the key can be
    read back: as long as its expiry has not elapsed, [Peek] returns the
    inserted value with found = true and [Contains] returns true, the cache
    unchanged. For a key that was not present, the expiry recorded is the
    explicit expiry when it is not the zero time, else the instant of the
    insertion plus the default TTL when this is positive, else no record is
    written. *)
Theorem add_then_lookup k v (expiry : Z)
    (c1 : P1.LRU K V E) (c2 : P2.LRU K V E) w w2 :
  P1.wf c1 → P2.wf c2 →
  is_Some (P1.items c1 !! k)
    ∨ Z.of_nat (length (order (P1.evictList c1))) < P1.size c1 →
  is_Some (P2.items c2 !! k)
    ∨ Z.of_nat (length (order (P2.evictList c2))) < P2.size c2 →
  (let c' := (P1.AddWithExp clock k v expiry c1 w).1.2 in
   (P1.AddWithExp clock k v expiry c1 w).1.1 = false
   ∧ (elapsed (P1.itemExpiries c') (clock (tick w2)) k = false →
      (P1.Peek clock k c' w2).1 = ((v, true), c')
      ∧ (P1.Contains clock k c' w2).1 = (true, c'))
   ∧ (P1.items c1 !! k = None →
      P1.itemExpiries c' !! k
      = if IsZero expiry
        then if 0 <? P1.itemTTL c1
             then Some (clock (tick w) + P1.itemTTL c1)
             else P1.itemExpiries c1 !! k
        else Some expiry))
  ∧ (let c' := (P2.Add clock k v c2 w).1.2 in
     (P2.Add clock k v c2 w).1.1 = false
     ∧ (elapsed (P2.itemExpiries c') (clock (tick w2)) k = false →
        (P2.Peek clock k c' w2).1 = ((v, true), c')
        ∧ (P2.Contains clock k c' w2).1 = (true, c'))
     ∧ (P2.items c2 !! k = None →
        P2.itemExpiries c' !! k
        = if 0 <? P2.itemTTL c2
          then Some (clock (tick w) + P2.itemTTL c2)
          else P2.itemExpiries c2 !! k)).
Proof.
  intros Hwf1 Hwf2 Hroom1 Hroom2. split.
  - assert (Hadd : ∃ e c' w',
      P1.AddWithExp clock k v expiry c1 w = (false, c', w')
      ∧ P1.items c' !! k = Some e
      ∧ deref (P1.evictList c') e = mkEntry k v
      ∧ (P1.items c1 !! k = None →
         P1.itemExpiries c' !! k
         = if IsZero expiry
           then if 0 <? P1.itemTTL c1
                then Some (clock (tick w) + P1.itemTTL c1)
                else P1.itemExpiries c1 !! k
           else Some expiry)).
    { destruct (P1.items c1 !! k) as [e|] eqn:Hk.
      - destruct (overwrite_list _ _ k v e Hwf1 Hk) as [(_ & _ & Hd & _) _].
        unfold P1.AddWithExp. rewrite Hk.
        eexists e, _, _. split; [reflexivity|]. cbn. by split.
      - destruct Hroom1 as [[? ?]|Hlt]; [done|].
        destruct (AddWithExp_fits1 k v expiry c1 w Hk Hlt)
          as (c' & w' & -> & Hl & Hi & Hx & _).
        exists (length (cells (P1.evictList c1))), c', w'.
        split; [done|]. rewrite Hi, Hl, Hx.
        split; [by rewrite lookup_insert_eq|].
        split; [by rewrite (deref_pushFront _ k v), decide_True|].
        intros _. destruct (IsZero expiry); [destruct (0 <? P1.itemTTL c1)|];
          by rewrite ?lookup_insert_eq. }
    destruct Hadd as (e & c' & w' & Ha & Hi & Hd & Hx).
    rewrite Ha. cbn [fst snd]. split; [done|]. split; [|done].
    intros Hel. unfold P1.Peek, P1.Contains. rewrite Hi.
    destruct (KeyHasExpired_elapsed1 clock k c' w2) as (w3 & -> & _).
    rewrite Hel. cbn [negb fst]. by rewrite Hd.
  - assert (Hadd : ∃ e c' w',
      P2.Add clock k v c2 w = (false, c', w')
      ∧ P2.items c' !! k = Some e
      ∧ deref (P2.evictList c') e = mkEntry k v
      ∧ (P2.items c2 !! k = None →
         P2.itemExpiries c' !! k
         = if 0 <? P2.itemTTL c2
           then Some (clock (tick w) + P2.itemTTL c2)
           else P2.itemExpiries c2 !! k)).
    { destruct (P2.items c2 !! k) as [e|] eqn:Hk.
      - destruct (overwrite_list _ _ k v e Hwf2 Hk) as [(_ & _ & Hd & _) _].
        unfold P2.Add. rewrite Hk.
        eexists e, _, _. split; [reflexivity|]. cbn. by split.
      - destruct Hroom2 as [[? ?]|Hlt]; [done|].
        destruct (Add_fits2 k v c2 w Hk Hlt)
          as (c' & w' & -> & Hl & Hi & Hx & _).
        exists (length (cells (P2.evictList c2))), c', w'.
        split; [done|]. rewrite Hi, Hl, Hx.
        split; [by rewrite lookup_insert_eq|].
        split; [by rewrite (deref_pushFront _ k v), decide_True|].
        intros _. destruct (0 <? P2.itemTTL c2); by rewrite ?lookup_insert_eq. }
    destruct Hadd as (e & c' & w' & Ha & Hi & Hd & Hx).
    rewrite Ha. cbn [fst snd]. split; [done|]. split; [|done].
    intros Hel. unfold P2.Peek, P2.Contains. rewrite Hi.
    rewrite bool_decide_eq_true_2 by by eexists.
    destruct (keyHasExpired_elapsed2 clock k c' w2) as (w3 & -> & _).
    rewrite Hel. cbn [negb fst]. by rewrite Hd.
Qed.
End Lookup.

(** * Which entry an overflow evicts *)

Section Eviction.
Context `{Countable K} {V E : Type} `{!Zero K, !Zero V}.
Variable clock : nat → Z.
Implicit Types (k : K) (v : V) (w : World E) (e : ref).

(** The scan of [findExpired]: the nodes [pre] it passes have not expired at
    their reading, the node it stops at has. The cache and the callback's
    state are not touched. *)
Lemma findExpiredFrom_spec2 es (c : P2.LRU K V E) : ∀ w,
  ∃ pre rest w',
    es = pre ++ rest
    ∧ P2.findExpiredFrom clock es c w = (head rest, w')
    ∧ Forall (alive clock (tick w) (P2.itemExpiries c))
             (nodeKeys (P2.evictList c) pre)
    ∧ (∀ e, head rest = Some e →
            lapsed clock (tick w) (P2.itemExpiries c)
                   (key (deref (P2.evictList c) e)))
    ∧ (tick w ≤ tick w')%nat ∧ env w' = env w.
Proof.
  induction es as [|e es IH]; intros w.
  { exists [], [], w. split; [done|]. split; [done|]. split; [constructor|].
    split; [by intros ? [=]|]. by split. }
  cbn [P2.findExpiredFrom].
  destruct (keyHasExpired_elapsed2 clock (key (deref (P2.evictList c) e)) c w)
    as (w1 & -> & Henv & Htick).
  destruct (elapsed _ _ _) eqn:Hel.
  - exists [], (e :: es), w1. split; [done|]. split; [done|].
    split; [constructor|]. split; [|split; [lia|done]].
    intros e' [= <-]. unfold elapsed, Before in Hel.
    destruct (P2.itemExpiries c !! _) as [x|] eqn:Hx; [|done].
    exists x, (tick w). split; [done|]. split; [done|]. lia.
  - destruct (IH w1) as (pre & rest & w' & -> & -> & Ha & Hl & Ht & He).
    exists (e :: pre), rest, w'. split; [done|]. split; [done|].
    split; [|split; [|split; [lia|congruence]]].
    + cbn. constructor.
      * intros x Hx. unfold elapsed, Before in Hel. rewrite Hx in Hel.
        exists (tick w). split; [done|]. lia.
      * eapply Forall_impl; [exact Ha|]. intros k Hk x Hx.
        destruct (Hk x Hx) as (t & Ht' & Hle). exists t. split; [lia|done].
    + intros e' He'. destruct (Hl e' He') as (x & t & Hx & Ht' & Hlt).
      exists x, t. split; [done|]. split; [lia|done].
Qed.

(** X5. The eviction policy of part_002 on a list that is not empty: one
    node is removed (with its index entry and its expiry record, and the
    callback is called for it). With the flag [expiryBasedEvict] unset it
    is the node at the back. With the flag set it is the first node from
    the back whose expiry has elapsed, every node behind it being alive, or
    the node at the back when the scan finds every node alive. *)
Theorem eviction_policy (c : P2.LRU K V E) w :
  P2.wf c → order (P2.evictList c) ≠ [] →
  ∃ e c' w',
    P2.removeOldest clock c w = (c', w')
    ∧ unlinks (key (deref (P2.evictList c) e)) e
              (P2.evictList c) (P2.evictList c')
              (P2.items c) (P2.items c')
              (P2.itemExpiries c) (P2.itemExpiries c')
    ∧ env w' = notify (P2.onEvict c) (key (deref (P2.evictList c) e))
                      (value (deref (P2.evictList c) e)) (env w)
    ∧ if P2.expiryBasedEvict c
      then (∃ front behind,
               order (P2.evictList c) = front ++ e :: behind
               ∧ lapsed clock (tick w) (P2.itemExpiries c)
                        (key (deref (P2.evictList c) e))
               ∧ Forall (alive clock (tick w) (P2.itemExpiries c))
                        (nodeKeys (P2.evictList c) behind))
           ∨ (back (P2.evictList c) = Some e
              ∧ Forall (alive clock (tick w) (P2.itemExpiries c))
                       (nodeKeys (P2.evictList c) (order (P2.evictList c))))
      else back (P2.evictList c) = Some e.
Proof.
  intros Hwf Hne.
  assert (Hrm : ∀ e w1, e ∈ order (P2.evictList c) → env w1 = env w →
    ∃ c' w', P2.removeElement e c w1 = (c', w')
      ∧ unlinks (key (deref (P2.evictList c) e)) e
                (P2.evictList c) (P2.evictList c')
                (P2.items c) (P2.items c')
                (P2.itemExpiries c) (P2.itemExpiries c')
      ∧ env w' = notify (P2.onEvict c) (key (deref (P2.evictList c) e))
                        (value (deref (P2.evictList c) e)) (env w)).
  { intros e w1 Hin Henv.
    destruct (linked_node _ _ _ Hwf Hin) as (ent & Hc & Hi).
    destruct (removeElement_key2 (key ent) e c w1 Hwf Hi) as (c' & Hr & Hu & _).
    rewrite (deref_cell _ _ _ Hc) in *.
    eexists c', _. split; [exact Hr|]. split; [done|].
    destruct (env_fire (P2.onEvict c) (key ent) (value ent) w1) as [-> _].
    by rewrite Henv. }
  destruct (back (P2.evictList c)) as [b|] eqn:Hb;
    [|by apply last_None in Hb].
  unfold P2.removeOldest. rewrite Hb. destruct (P2.expiryBasedEvict c).
  - unfold P2.findExpired.
    destruct (findExpiredFrom_spec2 (backToFront (P2.evictList c)) c w)
      as (pre & rest & w1 & Hes & -> & Ha & Hl & _ & Henv).
    destruct rest as [|e rest]; cbn [head].
    + destruct (Hrm b w1 (back_elem _ _ Hb) Henv) as (c' & w' & Hr & Hu & He).
      exists b, c', w'. split; [done|]. split; [done|]. split; [done|].
      right. split; [done|]. rewrite app_nil_r in Hes. subst pre.
      unfold backToFront in Ha. by rewrite nodeKeys_reverse, Forall_reverse in Ha.
    + assert (Hord : order (P2.evictList c) = reverse rest ++ e :: reverse pre).
      { rewrite <- (reverse_involutive (order (P2.evictList c))).
        fold (backToFront (P2.evictList c)). rewrite Hes, reverse_app, reverse_cons.
        by rewrite <- app_assoc. }
      destruct (Hrm e w1) as (c' & w' & Hr & Hu & He); [|done|].
      { rewrite Hord, elem_of_app. right. by left. }
      exists e, c', w'. split; [done|]. split; [done|]. split; [done|].
      left. exists (reverse rest), (reverse pre). split; [done|].
      split; [by apply Hl|]. by rewrite nodeKeys_reverse, Forall_reverse.
  - destruct (Hrm b w (back_elem _ _ Hb) eq_refl) as (c' & w' & Hr & Hu & He).
    by exists b, c', w'.
Qed.

(** [removeOldest] of part_001 when no default TTL is set and no expiry is
    recorded for the key at the back: the node at the back is removed. *)
Lemma removeOldest_tail1 (c : P1.LRU K V E) w rest e :
  (0 <? P1.itemTTL c) = false →
  order (P1.evictList c) = rest ++ [e] →
  P1.itemExpiries c !! key (deref (P1.evictList c) e) = None →
  P1.removeOldest clock c w = P1.removeElement e c w.
Proof.
  intros Httl Ho Hx. unfold P1.removeOldest, P1.getOldest, backToFront.
  rewrite Httl, Ho, reverse_snoc. cbn [andb P1.getOldestFrom].
  unfold P1.KeyHasExpired. by rewrite Hx.
Qed.

(** X4. Least recently used: when the list is not empty and at least as
    long as the capacity, the insertion of a key that is not present
    returns true and evicts exactly the entry at the back of the list; the
    new key is at the front, the other entries keep their order, and the
    callback is called once, with the evicted key and value. This
    holds in part_002 when the flag [expiryBasedEvict] is unset, and in
    part_001 when no default TTL is set and the entry at the back has no
    expiry. *)
Theorem overflow_evicts_tail k v (expiry : Z)
    (c1 : P1.LRU K V E) (c2 : P2.LRU K V E) w rest1 e1 rest2 e2 :
  P1.wf c1 → P2.wf c2 →
  P1.items c1 !! k = None → P2.items c2 !! k = None →
  order (P1.evictList c1) = rest1 ++ [e1] →
  order (P2.evictList c2) = rest2 ++ [e2] →
  P1.size c1 ≤ Z.of_nat (length (order (P1.evictList c1))) →
  P2.size c2 ≤ Z.of_nat (length (order (P2.evictList c2))) →
  P1.itemTTL c1 ≤ 0 →
  P1.itemExpiries c1 !! key (deref (P1.evictList c1) e1) = None →
  P2.expiryBasedEvict c2 = false →
  (∃ c' w',
      P1.AddWithExp clock k v expiry c1 w = (true, c', w')
      ∧ order (P1.evictList c') = length (cells (P1.evictList c1)) :: rest1
      ∧ P1.items c'
        = delete (key (deref (P1.evictList c1) e1))
                 (<[k := length (cells (P1.evictList c1))]> (P1.items c1))
      ∧ P1.items c' !! k = Some (length (cells (P1.evictList c1)))
      ∧ deref (P1.evictList c') (length (cells (P1.evictList c1))) = mkEntry k v
      ∧ env w' = notify (P1.onEvict c1) (key (deref (P1.evictList c1) e1))
                        (value (deref (P1.evictList c1) e1)) (env w))
  ∧ (∃ c' w',
      P2.Add clock k v c2 w = (true, c', w')
      ∧ order (P2.evictList c') = length (cells (P2.evictList c2)) :: rest2
      ∧ P2.items c'
        = delete (key (deref (P2.evictList c2) e2))
                 (<[k := length (cells (P2.evictList c2))]> (P2.items c2))
      ∧ P2.items c' !! k = Some (length (cells (P2.evictList c2)))
      ∧ deref (P2.evictList c') (length (cells (P2.evictList c2))) = mkEntry k v
      ∧ env w' = notify (P2.onEvict c2) (key (deref (P2.evictList c2) e2))
                        (value (deref (P2.evictList c2) e2)) (env w)).
Proof.
  intros Hwf1 Hwf2 Hk1 Hk2 Ho1 Ho2 Hsz1 Hsz2 Httl Hx1 Hfl.
  (* what both engines share: the tail of the list after the push *)
  assert (Htail : ∀ (l : lruList K V) (m : gmap K ref) rest e,
    linked l m → m !! k = None → order l = rest ++ [e] →
    e ∈ order l
    ∧ deref (pushFront k v l).2 e = deref l e
    ∧ key (deref l e) ≠ k
    ∧ <[k := length (cells l)]> m !! key (deref l e) = Some e
    ∧ filter (λ y, y ≠ e) (order (pushFront k v l).2) = length (cells l) :: rest).
  { intros l m rest e Hl Hk Ho.
    assert (Hin : e ∈ order l) by (rewrite Ho, elem_of_app; right; by left).
    destruct (linked_node _ _ _ Hl Hin) as (ent & Hc & Hi).
    pose proof (linked_fresh _ _ _ Hl Hin) as Hlt.
    assert (Hne : key (deref l e) ≠ k).
    { rewrite (deref_cell _ _ _ Hc). intros <-. congruence. }
    split; [done|]. split.
    { rewrite deref_pushFront, decide_False by lia. by rewrite decide_True. }
    split; [done|]. split.
    { rewrite lookup_insert_ne by done. by rewrite (deref_cell _ _ _ Hc). }
    cbn [pushFront snd order]. rewrite filter_cons, decide_True by lia.
    f_equal. rewrite Ho. apply filter_ne_snoc. rewrite <- Ho. apply Hl. }
  split.
  - destruct (Htail _ _ rest1 e1 Hwf1 Hk1 Ho1) as (Hin & Hd & Hne & Hi & Hf).
    unfold P1.AddWithExp. rewrite Hk1.
    assert (Hgen : ∀ (exps : gmap K Z) w1,
      exps !! key (deref (P1.evictList c1) e1) = None → env w1 = env w →
      ∃ c' w',
        (let c1' := P1.mkLRU (P1.size c1) (pushFront k v (P1.evictList c1)).2
                      (<[k := length (cells (P1.evictList c1))]> (P1.items c1))
                      (P1.onEvict c1) (P1.itemTTL c1) exps in
         if P1.size c1 <? llen (P1.evictList c1')
         then let '(c2', w2) := P1.removeOldest clock c1' w1 in (true, c2', w2)
         else (false, c1', w1)) = (true, c', w')
        ∧ order (P1.evictList c') = length (cells (P1.evictList c1)) :: rest1
        ∧ P1.items c'
          = delete (key (deref (P1.evictList c1) e1))
                   (<[k := length (cells (P1.evictList c1))]> (P1.items c1))
        ∧ P1.items c' !! k = Some (length (cells (P1.evictList c1)))
        ∧ deref (P1.evictList c') (length (cells (P1.evictList c1))) = mkEntry k v
        ∧ env w' = notify (P1.onEvict c1) (key (deref (P1.evictList c1) e1))
                          (value (deref (P1.evictList c1) e1)) (env w)).
    { intros exps w1 Hx Henv. cbn zeta.
      assert (Hlt : (P1.size c1 <? llen (pushFront k v (P1.evictList c1)).2) = true).
      { apply Z.ltb_lt. unfold llen. cbn. lia. }
      cbn [P1.evictList]. rewrite Hlt.
      rewrite (removeOldest_tail1 _ w1 (length (cells (P1.evictList c1)) :: rest1) e1);
        [|cbn; apply Z.ltb_ge; lia|cbn; by rewrite Ho1|cbn -[pushFront]; by rewrite Hd].
      unfold P1.removeElement. cbn -[pushFront]. rewrite Hd.
      eexists _, _. split; [reflexivity|]. cbn -[pushFront].
      split; [exact Hf|]. split; [done|].
      split; [by rewrite lookup_delete_ne, lookup_insert_eq|].
      split.
      { unfold deref. cbn. by rewrite lookup_app_r, Nat.sub_diag. }
      destruct (env_fire (P1.onEvict c1) (key (deref (P1.evictList c1) e1))
                  (value (deref (P1.evictList c1) e1)) w1) as [-> _].
      by rewrite Henv. }
    destruct (pushFront k v (P1.evictList c1)) as [ent l1] eqn:Hp.
    assert (Hl1 : l1 = (pushFront k v (P1.evictList c1)).2) by by rewrite Hp.
    assert (Hent : ent = length (cells (P1.evictList c1)))
      by (unfold pushFront in Hp; by injection Hp as <- _).
    subst ent l1.
    destruct (negb (IsZero expiry)); [|destruct (0 <? P1.itemTTL c1) eqn:Ht].
    + apply Hgen; [by rewrite lookup_insert_ne|done].
    + apply Z.ltb_lt in Ht. lia.
    + by apply Hgen.
  - destruct (Htail _ _ rest2 e2 Hwf2 Hk2 Ho2) as (Hin & Hd & Hne & Hi & Hf).
    unfold P2.Add. rewrite Hk2.
    assert (Hgen : ∀ (exps : gmap K Z) w1, env w1 = env w →
      ∃ c' w',
        (let c1' := P2.mkLRU (P2.size c2) (pushFront k v (P2.evictList c2)).2
                      (<[k := length (cells (P2.evictList c2))]> (P2.items c2))
                      (P2.onEvict c2) (P2.itemTTL c2) exps
                      (P2.expiryBasedEvict c2) in
         if P2.size c2 <? llen (P2.evictList c1')
         then let '(c2', w2) := P2.removeOldest clock c1' w1 in (true, c2', w2)
         else (false, c1', w1)) = (true, c', w')
        ∧ order (P2.evictList c') = length (cells (P2.evictList c2)) :: rest2
        ∧ P2.items c'
          = delete (key (deref (P2.evictList c2) e2))
                   (<[k := length (cells (P2.evictList c2))]> (P2.items c2))
        ∧ P2.items c' !! k = Some (length (cells (P2.evictList c2)))
        ∧ deref (P2.evictList c') (length (cells (P2.evictList c2))) = mkEntry k v
        ∧ env w' = notify (P2.onEvict c2) (key (deref (P2.evictList c2) e2))
                          (value (deref (P2.evictList c2) e2)) (env w)).
    { intros exps w1 Henv. cbn zeta.
      assert (Hlt : (P2.size c2 <? llen (pushFront k v (P2.evictList c2)).2) = true).
      { apply Z.ltb_lt. unfold llen. cbn. lia. }
      cbn [P2.evictList]. rewrite Hlt.
      unfold P2.removeOldest. cbn [P2.expiryBasedEvict P2.evictList]. rewrite Hfl.
      assert (Hb : back (pushFront k v (P2.evictList c2)).2 = Some e2).
      { unfold back. cbn. rewrite Ho2.
        change (last ((length (cells (P2.evictList c2)) :: rest2) ++ [e2]) = Some e2).
        apply last_snoc. }
      rewrite Hb. unfold P2.removeElement. cbn -[pushFront]. rewrite Hd.
      eexists _, _. split; [reflexivity|]. cbn -[pushFront].
      split; [exact Hf|]. split; [done|].
      split; [by rewrite lookup_delete_ne, lookup_insert_eq|].
      split.
      { unfold deref. cbn. by rewrite lookup_app_r, Nat.sub_diag. }
      destruct (env_fire (P2.onEvict c2) (key (deref (P2.evictList c2) e2))
                  (value (deref (P2.evictList c2) e2)) w1) as [-> _].
      by rewrite Henv. }
    destruct (pushFront k v (P2.evictList c2)) as [ent l1] eqn:Hp.
    assert (Hl1 : l1 = (pushFront k v (P2.evictList c2)).2) by by rewrite Hp.
    assert (Hent : ent = length (cells (P2.evictList c2)))
      by (unfold pushFront in Hp; by injection Hp as <- _).
    subst ent l1.
    destruct (0 <? P2.itemTTL c2); by apply Hgen.
Qed.

(** The scan of [findExpired] of part_001. *)
Lemma findExpiredFrom_spec1 es (c : P1.LRU K V E) : ∀ w,
  ∃ pre rest w',
    es = pre ++ rest
    ∧ P1.findExpiredFrom clock es c w = (head rest, w')
    ∧ Forall (alive clock (tick w) (P1.itemExpiries c))
             (nodeKeys (P1.evictList c) pre)
    ∧ (∀ e, head rest = Some e →
            lapsed clock (tick w) (P1.itemExpiries c)
                   (key (deref (P1.evictList c) e)))
    ∧ (tick w ≤ tick w')%nat ∧ env w' = env w.
Proof.
  induction es as [|e es IH]; intros w.
  { exists [], [], w. split; [done|]. split; [done|]. split; [constructor|].
    split; [by intros ? [=]|]. by split. }
  cbn [P1.findExpiredFrom].
  destruct (KeyHasExpired_elapsed1 clock (key (deref (P1.evictList c) e)) c w)
    as (w1 & -> & Henv & Htick).
  destruct (elapsed _ _ _) eqn:Hel.
  - exists [], (e :: es), w1. split; [done|]. split; [done|].
    split; [constructor|]. split; [|split; [lia|done]].
    intros e' [= <-]. unfold elapsed, Before in Hel.
    destruct (P1.itemExpiries c !! _) as [x|] eqn:Hx; [|done].
    exists x, (tick w). split; [done|]. split; [done|]. lia.
  - destruct (IH w1) as (pre & rest & w' & -> & -> & Ha & Hl & Ht & He).
    exists (e :: pre), rest, w'. split; [done|]. split; [done|].
    split; [|split; [|split; [lia|congruence]]].
    + cbn. constructor.
      * intros x Hx. unfold elapsed, Before in Hel. rewrite Hx in Hel.
        exists (tick w). split; [done|]. lia.
      * eapply Forall_impl; [exact Ha|]. intros k Hk x Hx.
        destruct (Hk x Hx) as (t & Ht' & Hle). exists t. split; [lia|done].
    + intros e' He'. destruct (Hl e' He') as (x & t & Hx & Ht' & Hlt).
      exists x, t. split; [done|]. split; [lia|done].
Qed.

(** X15. The eviction of part_001 on a list that is not empty. With a
    positive default TTL the list is first scanned from the back for a node
    whose expiry has elapsed, and when one is found it alone is removed.
    Only when there is no positive default TTL, or when the scan has found
    every node alive, is the list walked from the back: every node whose
    expiry is found elapsed is removed, and so is the first node [e] found
    alive, at which the walk stops; when the walk finds every node expired
    it ends at the front, where the list as modelled has no node before,
    and the list is left empty. The callback is called for each node removed,
    in the order of the walk, and the nodes in front of [e] stay, in their
    order. *)
Theorem eviction_sweeps_stale (c : P1.LRU K V E) w :
  P1.wf c → order (P1.evictList c) ≠ [] →
  ∃ c' w',
    P1.removeOldest clock c w = (c', w')
    ∧ P1.wf c'
    ∧ ((0 < P1.itemTTL c
        ∧ ∃ e front behind,
            order (P1.evictList c) = front ++ e :: behind
            ∧ lapsed clock (tick w) (P1.itemExpiries c)
                     (key (deref (P1.evictList c) e))
            ∧ Forall (alive clock (tick w) (P1.itemExpiries c))
                     (nodeKeys (P1.evictList c) behind)
            ∧ unlinks (key (deref (P1.evictList c) e)) e
                      (P1.evictList c) (P1.evictList c')
                      (P1.items c) (P1.items c')
                      (P1.itemExpiries c) (P1.itemExpiries c')
            ∧ env w' = notify (P1.onEvict c) (key (deref (P1.evictList c) e))
                              (value (deref (P1.evictList c) e)) (env w))
       ∨ ((P1.itemTTL c ≤ 0
           ∨ Forall (alive clock (tick w) (P1.itemExpiries c))
                    (nodeKeys (P1.evictList c) (order (P1.evictList c))))
          ∧ ∃ e stale,
            order (P1.evictList c) = order (P1.evictList c') ++ e :: stale
            ∧ P1.items c'
              = dropKeys (P1.items c) (nodeKeys (P1.evictList c) (e :: stale))
            ∧ P1.itemExpiries c'
              = dropKeys (P1.itemExpiries c)
                         (nodeKeys (P1.evictList c) (e :: stale))
            ∧ env w' = notifyAll (P1.onEvict c) (P1.evictList c)
                                 (reverse (e :: stale)) (env w)
            ∧ Forall (lapsed clock (tick w) (P1.itemExpiries c))
                     (nodeKeys (P1.evictList c) stale)
            ∧ (alive clock (tick w) (P1.itemExpiries c)
                     (key (deref (P1.evictList c) e))
               ∨ (lapsed clock (tick w) (P1.itemExpiries c)
                         (key (deref (P1.evictList c) e))
                  ∧ order (P1.evictList c') = [])))).
Proof.
  intros Hwf Hne.
  assert (Hwalk : ∀ w1, (tick w ≤ tick w1)%nat → env w1 = env w →
    ∃ c' w',
      match P1.getOldestFrom clock (backToFront (P1.evictList c)) c w1 with
      | (Some ent, c1, w2) => P1.removeElement ent c1 w2
      | (None, c1, w2) => (c1, w2)
      end = (c', w')
      ∧ P1.wf c'
      ∧ ∃ e stale,
          order (P1.evictList c) = order (P1.evictList c') ++ e :: stale
          ∧ P1.items c'
            = dropKeys (P1.items c) (nodeKeys (P1.evictList c) (e :: stale))
          ∧ P1.itemExpiries c'
            = dropKeys (P1.itemExpiries c)
                       (nodeKeys (P1.evictList c) (e :: stale))
          ∧ env w' = notifyAll (P1.onEvict c) (P1.evictList c)
                               (reverse (e :: stale)) (env w)
          ∧ Forall (lapsed clock (tick w) (P1.itemExpiries c))
                   (nodeKeys (P1.evictList c) stale)
          ∧ (alive clock (tick w) (P1.itemExpiries c)
                   (key (deref (P1.evictList c) e))
             ∨ (lapsed clock (tick w) (P1.itemExpiries c)
                       (key (deref (P1.evictList c) e))
                ∧ order (P1.evictList c') = []))).
  { intros w1 Ht1 He1.
    destruct (getOldestFrom_spec clock (backToFront (P1.evictList c)) c w1 Hwf)
      as (purged & kept & c1 & w2 & Hes & -> & Ho & Hcs & Hit & Hex
          & (Hsz & Hcb & Httl) & Hwf1 & Htick & Henv & Hlap & Hal).
    { unfold backToFront. by rewrite reverse_involutive. }
    assert (Hord : order (P1.evictList c) = reverse kept ++ reverse purged).
    { rewrite <- (reverse_involutive (order (P1.evictList c))).
      fold (backToFront (P1.evictList c)). by rewrite Hes, reverse_app. }
    assert (Hlap' : Forall (lapsed clock (tick w) (P1.itemExpiries c))
                           (nodeKeys (P1.evictList c) purged)).
    { eapply Forall_impl; [exact Hlap|]. intros k (x & t & Hk & Ht & Hlt).
      exists x, t. split; [done|]. split; [lia|done]. }
    destruct kept as [|e kept]; cbn [head].
    - (* every node had expired *)
      rewrite reverse_nil in Ho. rewrite reverse_nil, app_nil_l in Hord.
      destruct (reverse purged) as [|e stale] eqn:Hrp; [done|].
      exists c1, w2. split; [done|]. split; [done|].
      exists e, stale. rewrite Ho. cbn [app]. split; [done|].
      assert (Hperm : ∀ k, k ∈ nodeKeys (P1.evictList c) purged
                           ↔ k ∈ nodeKeys (P1.evictList c) (e :: stale)).
      { intros k. by rewrite <- Hrp, nodeKeys_reverse, elem_of_reverse. }
      split; [rewrite Hit; by apply dropKeys_perm|].
      split; [rewrite Hex; by apply dropKeys_perm|].
      split; [by rewrite Henv, He1, <- Hrp, reverse_involutive|].
      assert (Hall : Forall (lapsed clock (tick w) (P1.itemExpiries c))
                            (nodeKeys (P1.evictList c) (e :: stale))).
      { rewrite <- Hrp, nodeKeys_reverse. by apply Forall_reverse. }
      unfold nodeKeys in Hall. rewrite fmap_cons in Hall.
      apply Forall_cons in Hall as [Hh Htl].
      split; [done|]. right. by split.
    - (* [e] is the first node found alive *)
      assert (Hnd1 : NoDup (reverse kept ++ [e])).
      { rewrite <- reverse_cons, <- Ho. apply Hwf1. }
      assert (Hin1 : e ∈ order (P1.evictList c1)).
      { rewrite Ho, elem_of_reverse. by left. }
      destruct (linked_node _ _ _ Hwf1 Hin1) as (ent & Hc & Hi).
      destruct (removeElement_key1 (key ent) e c1 w2 Hwf1 Hi)
        as (c' & -> & Hu & _ & _ & _ & Hwf').
      destruct Hu as (Ho' & _ & Hcs' & Hi' & Hx').
      pose proof (deref_cell _ _ _ Hc) as Hd1.
      assert (Hd : deref (P1.evictList c) e = ent).
      { unfold deref in *. by rewrite <- Hcs. }
      eexists c', _. split; [done|]. split; [done|].
      exists e, (reverse purged).
      assert (Hperm : ∀ k, k ∈ key ent :: nodeKeys (P1.evictList c) purged
                ↔ k ∈ nodeKeys (P1.evictList c) (e :: reverse purged)).
      { intros k. unfold nodeKeys at 2. rewrite fmap_cons, Hd.
        fold (nodeKeys (P1.evictList c) (reverse purged)).
        by rewrite nodeKeys_reverse, !elem_of_cons, elem_of_reverse. }
      split.
      { rewrite Ho', Ho, reverse_cons, (filter_ne_snoc _ _ Hnd1).
        by rewrite Hord, reverse_cons, <- app_assoc. }
      split; [rewrite Hi', Hit, delete_dropKeys; by apply dropKeys_perm|].
      split; [rewrite Hx', Hex, delete_dropKeys; by apply dropKeys_perm|].
      split.
      { destruct (env_fire (P1.onEvict c1) (key ent)
                    (value (deref (P1.evictList c1) e)) w2) as [-> _].
        rewrite reverse_cons, reverse_involutive. unfold notifyAll.
        rewrite foldl_app. cbn [foldl].
        fold (notifyAll (P1.onEvict c) (P1.evictList c) purged (env w)).
        by rewrite Hcb, Hd1, Hd, Henv, He1. }
      split; [rewrite nodeKeys_reverse; by apply Forall_reverse|].
      left. intros x Hx. rewrite Hd in Hx. 
      destruct (Hal e eq_refl x) as (t & Ht & Hle); [by rewrite Hd|].
      exists t. split; [lia|done]. }
  unfold P1.removeOldest, P1.getOldest. rewrite andb_true_r.
  destruct (0 <? P1.itemTTL c) eqn:Httl.
  - unfold P1.findExpired.
    destruct (findExpiredFrom_spec1 (backToFront (P1.evictList c)) c w)
      as (pre & rest & w1 & Hes & -> & Ha & Hl & Ht & Henv).
    destruct rest as [|e rest]; cbn [head].
    + destruct (Hwalk w1 Ht Henv) as (c' & w' & Hr & Hwf' & Hst).
      exists c', w'. split; [exact Hr|]. split; [done|]. right.
      split; [|done]. right. rewrite app_nil_r in Hes. subst pre.
      unfold backToFront in Ha.
      by rewrite nodeKeys_reverse, Forall_reverse in Ha.
    + assert (Hord : order (P1.evictList c) = reverse rest ++ e :: reverse pre).
      { rewrite <- (reverse_involutive (order (P1.evictList c))).
        fold (backToFront (P1.evictList c)).
        rewrite Hes, reverse_app, reverse_cons. by rewrite <- app_assoc. }
      assert (Hin : e ∈ order (P1.evictList c)).
      { rewrite Hord, elem_of_app. right. by left. }
      destruct (linked_node _ _ _ Hwf Hin) as (ent & Hc & Hi).
      destruct (removeElement_key1 (key ent) e c w1 Hwf Hi)
        as (c' & -> & Hu & _ & _ & _ & Hwf').
      pose proof (deref_cell _ _ _ Hc) as Hd.
      eexists c', _. split; [done|]. split; [done|]. left.
      split; [by apply Z.ltb_lt|].
      exists e, (reverse rest), (reverse pre). split; [done|].
      split; [by apply Hl|].
      split; [by rewrite nodeKeys_reverse, Forall_reverse|].
      rewrite Hd. split; [done|].
      destruct (env_fire (P1.onEvict c) (key ent) (value ent) w1) as [-> _].
      by rewrite Henv.
  - destruct (Hwalk w (le_n _) eq_refl) as (c' & w' & Hr & Hwf' & Hst).
    exists c', w'. split; [exact Hr|]. split; [done|]. right.
    split; [|done]. left. by apply Z.ltb_ge.
Qed.
End Eviction.

(** * Removing the expired entries, listing the live ones *)

Section Sweep.
Context `{Countable K} {V E : Type} `{!Zero K, !Zero V}.
Variable clock : nat → Z.
Implicit Types (k : K) (v : V) (w : World E) (e : ref).

Lemma sublist_elem (xs ys : list ref) x : sublist xs ys → x ∈ xs → x ∈ ys.
Proof.
  induction 1 as [|a xs ys _ IH|a xs ys _ IH]; [done| |].
  - rewrite !elem_of_cons. intros [->|Hx]; [by left|right; by apply IH].
  - intros Hx. right. by apply IH.
Qed.

(** The loop of [RemoveExpired] of part_001 on the nodes [es] still to visit:
    the nodes [gone] are removed, in the order of the visit; their expiries
    had elapsed, those of the nodes that stay had not. *)
Lemma removeExpiredFrom_spec1 es : ∀ (n : Z) (c : P1.LRU K V E) w,
  P1.wf c → NoDup es → es ⊆ order (P1.evictList c) →
  ∃ gone c' w',
    P1.removeExpiredFrom clock es n c w = (n + Z.of_nat (length gone), c', w')
    ∧ sublist gone es
    ∧ sublist (order (P1.evictList c')) (order (P1.evictList c))
    ∧ (∀ x, x ∈ order (P1.evictList c')
            ↔ x ∈ order (P1.evictList c) ∧ x ∉ gone)
    ∧ (length (order (P1.evictList c')) + length gone
       = length (order (P1.evictList c)))%nat
    ∧ cells (P1.evictList c') = cells (P1.evictList c)
    ∧ P1.items c' = dropKeys (P1.items c) (nodeKeys (P1.evictList c) gone)
    ∧ P1.itemExpiries c'
      = dropKeys (P1.itemExpiries c) (nodeKeys (P1.evictList c) gone)
    ∧ (P1.size c' = P1.size c ∧ P1.onEvict c' = P1.onEvict c)
    ∧ P1.wf c'
    ∧ (tick w ≤ tick w')%nat
    ∧ env w' = notifyAll (P1.onEvict c) (P1.evictList c) gone (env w)
    ∧ Forall (lapsed clock (tick w) (P1.itemExpiries c))
             (nodeKeys (P1.evictList c) gone)
    ∧ (∀ e, e ∈ es → e ∉ gone →
            alive clock (tick w) (P1.itemExpiries c)
                  (key (deref (P1.evictList c) e))).
Proof.
  induction es as [|e es IH]; intros n c w Hwf Hnd Hsub.
  { exists [], c, w. cbn [P1.removeExpiredFrom length].
    change (nodeKeys (P1.evictList c) []) with (@nil K). rewrite !dropKeys_nil.
    split; [f_equal; f_equal; lia|]. split; [done|]. split; [done|].
    split; [intros x; rewrite elem_of_nil; tauto|]. split; [lia|].
    split; [done|]. split; [done|]. split; [done|]. split; [done|].
    split; [done|]. split; [done|]. split; [done|]. split; [constructor|].
    by intros e ?%elem_of_nil. }
  apply NoDup_cons in Hnd as [Hne Hnd].
  assert (Hin : e ∈ order (P1.evictList c)) by (apply Hsub; by left).
  assert (Hsub' : es ⊆ order (P1.evictList c)).
  { intros x Hx. apply Hsub. by right. }
  destruct (linked_node _ _ _ Hwf Hin) as (ent & Hc & Hi).
  pose proof (deref_cell _ _ _ Hc) as Hd.
  cbn [P1.removeExpiredFrom]. rewrite Hd.
  destruct (KeyHasExpired_elapsed1 clock (key ent) c w) as (w1 & -> & Henv1 & Htick1).
  destruct (elapsed _ _ _) eqn:Hel.
  - destruct (removeElement_key1 (key ent) e c w1 Hwf Hi)
      as (c2 & -> & Hu & Hsz & Hcb & _ & Hwf2).
    destruct Hu as (Ho2 & Hlen2 & Hc2 & Hi2 & Hx2).
    set (w2 := fire (P1.onEvict c) (key ent)
                    (value (deref (P1.evictList c) e)) w1).
    destruct (env_fire (P1.onEvict c) (key ent)
                (value (deref (P1.evictList c) e)) w1) as [Hfe Hft].
    fold w2 in Hfe, Hft.
    destruct (IH (n + 1) c2 w2 Hwf2 Hnd)
      as (gone & c' & w' & -> & Hsg & Hso & Hmem & Hlen & Hcs & Hit & Hex
          & (Hsz' & Hcb') & Hwf' & Htick & Henv & Hlapsed & Halive).
    { intros x Hx. rewrite Ho2, filter_ne_elem. split; [by apply Hsub'|].
      by intros ->. }
    rewrite (nodeKeys_cells _ _ _ Hc2) in Hit, Hex, Hlapsed.
    exists (e :: gone), c', w'.
    split; [f_equal; f_equal; cbn [length]; lia|].
    split; [by apply sublist_skip|].
    split.
    { etrans; [exact Hso|]. rewrite Ho2. apply sublist_filter. }
    split.
    { intros x. rewrite Hmem, Ho2, filter_ne_elem, not_elem_of_cons. tauto. }
    split; [cbn [length]; lia|].
    split; [by rewrite Hcs|].
    split; [by rewrite Hit, Hi2, dropKeys_delete; cbn; rewrite Hd|].
    split; [by rewrite Hex, Hx2, dropKeys_delete; cbn; rewrite Hd|].
    split; [split; congruence|]. split; [done|].
    split; [rewrite Hft in Htick; lia|].
    split.
    { rewrite Henv, Hcb, (notifyAll_cells _ _ _ _ _ Hc2), Hfe, Henv1.
      cbn. by rewrite Hd. }
    split.
    { cbn. rewrite Hd. constructor.
      - unfold elapsed, Before in Hel.
        destruct (P1.itemExpiries c !! key ent) as [x|] eqn:Hx; [|done].
        exists x, (tick w). split; [done|]. split; [done|]. lia.
      - eapply Forall_impl; [exact Hlapsed|]. intros k (x & t & Hk & Ht & Hlt).
        rewrite Hx2 in Hk. apply lookup_delete_Some in Hk as [_ Hk].
        exists x, t. split; [done|]. split; [|done]. rewrite Hft in Ht. lia. }
    intros e' He' Hng x Hx. apply not_elem_of_cons in Hng as [Hne' Hng].
    apply elem_of_cons in He' as [->|He']; [done|].
    assert (Hkne : key (deref (P1.evictList c) e') ≠ key ent).
    { rewrite <- Hd. intros Hk.
      apply (linked_key_inj _ _ _ _ Hwf) in Hk; [done|by apply Hsub'|done]. }
    destruct (Halive e' He' Hng x) as (t & Ht & Hle).
    { unfold deref. rewrite Hc2. fold (deref (P1.evictList c) e').
      rewrite Hx2. by rewrite lookup_delete_ne. }
    exists t. split; [|done]. rewrite Hft in Ht. lia.
  - destruct (IH n c w1 Hwf Hnd Hsub')
      as (gone & c' & w' & -> & Hsg & Hso & Hmem & Hlen & Hcs & Hit & Hex
          & Hf & Hwf' & Htick & Henv & Hlapsed & Halive).
    exists gone, c', w'. split; [done|]. split; [by apply sublist_cons|].
    split; [done|]. split; [done|]. split; [done|]. split; [done|].
    split; [done|]. split; [done|]. split; [done|]. split; [done|].
    split; [lia|]. split; [by rewrite Henv, Henv1|].
    split.
    { eapply Forall_impl; [exact Hlapsed|]. intros k (x & t & Hk & Ht & Hlt).
      exists x, t. split; [done|]. split; [lia|done]. }
    intros e' He' Hng x Hx. apply elem_of_cons in He' as [->|He'].
    + rewrite Hd in Hx. unfold elapsed, Before in Hel. rewrite Hx in Hel.
      exists (tick w). split; [done|]. lia.
    + destruct (Halive e' He' Hng x Hx) as (t & Ht & Hle).
      exists t. split; [lia|done].
Qed.

(** The loop of [RemoveExpired] of part_002 on the nodes [es] still to visit:
    the nodes [gone] are removed, in the order of the visit; their expiries
    had elapsed, those of the nodes that stay had not. *)
Lemma removeExpiredFrom_spec2 es : ∀ (n : Z) (c : P2.LRU K V E) w,
  P2.wf c → NoDup es → es ⊆ order (P2.evictList c) →
  ∃ gone c' w',
    P2.removeExpiredFrom clock es n c w = (n + Z.of_nat (length gone), c', w')
    ∧ sublist gone es
    ∧ sublist (order (P2.evictList c')) (order (P2.evictList c))
    ∧ (∀ x, x ∈ order (P2.evictList c')
            ↔ x ∈ order (P2.evictList c) ∧ x ∉ gone)
    ∧ (length (order (P2.evictList c')) + length gone
       = length (order (P2.evictList c)))%nat
    ∧ cells (P2.evictList c') = cells (P2.evictList c)
    ∧ P2.items c' = dropKeys (P2.items c) (nodeKeys (P2.evictList c) gone)
    ∧ P2.itemExpiries c'
      = dropKeys (P2.itemExpiries c) (nodeKeys (P2.evictList c) gone)
    ∧ (P2.size c' = P2.size c ∧ P2.onEvict c' = P2.onEvict c)
    ∧ P2.wf c'
    ∧ (tick w ≤ tick w')%nat
    ∧ env w' = notifyAll (P2.onEvict c) (P2.evictList c) gone (env w)
    ∧ Forall (lapsed clock (tick w) (P2.itemExpiries c))
             (nodeKeys (P2.evictList c) gone)
    ∧ (∀ e, e ∈ es → e ∉ gone →
            alive clock (tick w) (P2.itemExpiries c)
                  (key (deref (P2.evictList c) e))).
Proof.
  induction es as [|e es IH]; intros n c w Hwf Hnd Hsub.
  { exists [], c, w. cbn [P2.removeExpiredFrom length].
    change (nodeKeys (P2.evictList c) []) with (@nil K). rewrite !dropKeys_nil.
    split; [f_equal; f_equal; lia|]. split; [done|]. split; [done|].
    split; [intros x; rewrite elem_of_nil; tauto|]. split; [lia|].
    split; [done|]. split; [done|]. split; [done|]. split; [done|].
    split; [done|]. split; [done|]. split; [done|]. split; [constructor|].
    by intros e ?%elem_of_nil. }
  apply NoDup_cons in Hnd as [Hne Hnd].
  assert (Hin : e ∈ order (P2.evictList c)) by (apply Hsub; by left).
  assert (Hsub' : es ⊆ order (P2.evictList c)).
  { intros x Hx. apply Hsub. by right. }
  destruct (linked_node _ _ _ Hwf Hin) as (ent & Hc & Hi).
  pose proof (deref_cell _ _ _ Hc) as Hd.
  cbn [P2.removeExpiredFrom]. rewrite Hd.
  destruct (keyHasExpired_elapsed2 clock (key ent) c w) as (w1 & -> & Henv1 & Htick1).
  destruct (elapsed _ _ _) eqn:Hel.
  - destruct (removeElement_key2 (key ent) e c w1 Hwf Hi)
      as (c2 & -> & Hu & Hsz & Hcb & _ & _ & Hwf2).
    destruct Hu as (Ho2 & Hlen2 & Hc2 & Hi2 & Hx2).
    set (w2 := fire (P2.onEvict c) (key ent)
                    (value (deref (P2.evictList c) e)) w1).
    destruct (env_fire (P2.onEvict c) (key ent)
                (value (deref (P2.evictList c) e)) w1) as [Hfe Hft].
    fold w2 in Hfe, Hft.
    destruct (IH (n + 1) c2 w2 Hwf2 Hnd)
      as (gone & c' & w' & -> & Hsg & Hso & Hmem & Hlen & Hcs & Hit & Hex
          & (Hsz' & Hcb') & Hwf' & Htick & Henv & Hlapsed & Halive).
    { intros x Hx. rewrite Ho2, filter_ne_elem. split; [by apply Hsub'|].
      by intros ->. }
    rewrite (nodeKeys_cells _ _ _ Hc2) in Hit, Hex, Hlapsed.
    exists (e :: gone), c', w'.
    split; [f_equal; f_equal; cbn [length]; lia|].
    split; [by apply sublist_skip|].
    split.
    { etrans; [exact Hso|]. rewrite Ho2. apply sublist_filter. }
    split.
    { intros x. rewrite Hmem, Ho2, filter_ne_elem, not_elem_of_cons. tauto. }
    split; [cbn [length]; lia|].
    split; [by rewrite Hcs|].
    split; [by rewrite Hit, Hi2, dropKeys_delete; cbn; rewrite Hd|].
    split; [by rewrite Hex, Hx2, dropKeys_delete; cbn; rewrite Hd|].
    split; [split; congruence|]. split; [done|].
    split; [rewrite Hft in Htick; lia|].
    split.
    { rewrite Henv, Hcb, (notifyAll_cells _ _ _ _ _ Hc2), Hfe, Henv1.
      cbn. by rewrite Hd. }
    split.
    { cbn. rewrite Hd. constructor.
      - unfold elapsed, Before in Hel.
        destruct (P2.itemExpiries c !! key ent) as [x|] eqn:Hx; [|done].
        exists x, (tick w). split; [done|]. split; [done|]. lia.
      - eapply Forall_impl; [exact Hlapsed|]. intros k (x & t & Hk & Ht & Hlt).
        rewrite Hx2 in Hk. apply lookup_delete_Some in Hk as [_ Hk].
        exists x, t. split; [done|]. split; [|done]. rewrite Hft in Ht. lia. }
    intros e' He' Hng x Hx. apply not_elem_of_cons in Hng as [Hne' Hng].
    apply elem_of_cons in He' as [->|He']; [done|].
    assert (Hkne : key (deref (P2.evictList c) e') ≠ key ent).
    { rewrite <- Hd. intros Hk.
      apply (linked_key_inj _ _ _ _ Hwf) in Hk; [done|by apply Hsub'|done]. }
    destruct (Halive e' He' Hng x) as (t & Ht & Hle).
    { unfold deref. rewrite Hc2. fold (deref (P2.evictList c) e').
      rewrite Hx2. by rewrite lookup_delete_ne. }
    exists t. split; [|done]. rewrite Hft in Ht. lia.
  - destruct (IH n c w1 Hwf Hnd Hsub')
      as (gone & c' & w' & -> & Hsg & Hso & Hmem & Hlen & Hcs & Hit & Hex
          & Hf & Hwf' & Htick & Henv & Hlapsed & Halive).
    exists gone, c', w'. split; [done|]. split; [by apply sublist_cons|].
    split; [done|]. split; [done|]. split; [done|]. split; [done|].
    split; [done|]. split; [done|]. split; [done|]. split; [done|].
    split; [lia|]. split; [by rewrite Henv, Henv1|].
    split.
    { eapply Forall_impl; [exact Hlapsed|]. intros k (x & t & Hk & Ht & Hlt).
      exists x, t. split; [done|]. split; [lia|done]. }
    intros e' He' Hng x Hx. apply elem_of_cons in He' as [->|He'].
    + rewrite Hd in Hx. unfold elapsed, Before in Hel. rewrite Hx in Hel.
      exists (tick w). split; [done|]. lia.
    + destruct (Halive e' He' Hng x Hx) as (t & Ht & Hle).
      exists t. split; [lia|done].
Qed.

(** The loops of [Keys] and of [Values] of part_001, started in the same world,
    read the clock alike and keep the same nodes [vis]: those whose expiry
    has not elapsed at their reading. *)
Lemma keysValues_spec1 es (c : P1.LRU K V E) : ∀ w,
  ∃ vis w',
    P1.keysFrom clock es c w = (nodeKeys (P1.evictList c) vis, w')
    ∧ sublist vis es
    ∧ Forall (alive clock (tick w) (P1.itemExpiries c))
             (nodeKeys (P1.evictList c) vis)
    ∧ (∀ e, e ∈ es → e ∉ vis →
            lapsed clock (tick w) (P1.itemExpiries c)
                   (key (deref (P1.evictList c) e)))
    ∧ env w' = env w
    ∧ ∀ (values : list V) (i : nat),
        (i + length es ≤ length values)%nat →
        ∃ vals,
          P1.valuesFrom clock es values i c w
          = (Some (vals, (i + length vis)%nat), w')
          ∧ take (i + length vis) vals
            = take i values ++ nodeValues (P1.evictList c) vis.
Proof.
  induction es as [|e es IH]; intros w.
  { exists [], w. split; [done|]. split; [done|]. split; [constructor|].
    split; [by intros e ?%elem_of_nil|]. split; [done|].
    intros values i _. exists values. cbn. rewrite Nat.add_0_r, app_nil_r.
    done. }
  cbn [P1.keysFrom P1.valuesFrom].
  destruct (KeyHasExpired_elapsed1 clock (key (deref (P1.evictList c) e)) c w)
    as (w1 & -> & Henv1 & Htick1).
  destruct (IH w1) as (vis & w' & -> & Hsub & Ha & Hl & Henv & Hvals).
  destruct (elapsed _ _ _) eqn:Hel; cbn [negb].
  - exists vis, w'. split; [done|]. split; [by apply sublist_cons|].
    split.
    { eapply Forall_impl; [exact Ha|]. intros k Hk x Hx.
      destruct (Hk x Hx) as (t & Ht & Hle). exists t. split; [lia|done]. }
    split.
    { intros e' He' Hnv. apply elem_of_cons in He' as [->|He'].
      - unfold elapsed, Before in Hel.
        destruct (P1.itemExpiries c !! _) as [x|] eqn:Hx; [|done].
        exists x, (tick w). split; [done|]. split; [done|]. lia.
      - destruct (Hl e' He' Hnv) as (x & t & Hx & Ht & Hlt).
        exists x, t. split; [done|]. split; [lia|done]. }
    split; [congruence|].
    intros values i Hle. cbn [length] in Hle. apply Hvals. lia.
  - exists (e :: vis), w'. split; [done|]. split; [by apply sublist_skip|].
    split.
    { cbn. constructor.
      - intros x Hx. unfold elapsed, Before in Hel. rewrite Hx in Hel.
        exists (tick w). split; [done|]. lia.
      - eapply Forall_impl; [exact Ha|]. intros k Hk x Hx.
        destruct (Hk x Hx) as (t & Ht & Hle). exists t. split; [lia|done]. }
    split.
    { intros e' He' Hnv. apply not_elem_of_cons in Hnv as [Hne Hnv].
      apply elem_of_cons in He' as [->|He']; [done|].
      destruct (Hl e' He' Hnv) as (x & t & Hx & Ht & Hlt).
      exists x, t. split; [done|]. split; [lia|done]. }
    split; [congruence|].
    intros values i Hle. cbn [length] in Hle. rewrite decide_True by lia.
    destruct (Hvals (<[i := value (deref (P1.evictList c) e)]> values) (S i))
      as (vals & -> & Ht).
    { rewrite length_insert. lia. }
    exists vals. cbn [length]. rewrite Nat.add_succ_r. split; [done|].
    cbn [plus] in Ht. rewrite Ht.
    rewrite (take_S_r _ _ (value (deref (P1.evictList c) e)))
      by (apply list_lookup_insert_eq; lia).
    rewrite take_insert_ge by lia. cbn. by rewrite <- app_assoc.
Qed.

(** The loops of [Keys] and of [Values] of part_002, started in the same world,
    read the clock alike and keep the same nodes [vis]: those whose expiry
    has not elapsed at their reading. *)
Lemma keysValues_spec2 es (c : P2.LRU K V E) : ∀ w,
  ∃ vis w',
    P2.keysFrom clock es c w = (nodeKeys (P2.evictList c) vis, w')
    ∧ sublist vis es
    ∧ Forall (alive clock (tick w) (P2.itemExpiries c))
             (nodeKeys (P2.evictList c) vis)
    ∧ (∀ e, e ∈ es → e ∉ vis →
            lapsed clock (tick w) (P2.itemExpiries c)
                   (key (deref (P2.evictList c) e)))
    ∧ env w' = env w
    ∧ ∀ (values : list V) (i : nat),
        (i + length es ≤ length values)%nat →
        ∃ vals,
          P2.valuesFrom clock es values i c w
          = (Some (vals, (i + length vis)%nat), w')
          ∧ take (i + length vis) vals
            = take i values ++ nodeValues (P2.evictList c) vis.
Proof.
  induction es as [|e es IH]; intros w.
  { exists [], w. split; [done|]. split; [done|]. split; [constructor|].
    split; [by intros e ?%elem_of_nil|]. split; [done|].
    intros values i _. exists values. cbn. rewrite Nat.add_0_r, app_nil_r.
    done. }
  cbn [P2.keysFrom P2.valuesFrom].
  destruct (keyHasExpired_elapsed2 clock (key (deref (P2.evictList c) e)) c w)
    as (w1 & -> & Henv1 & Htick1).
  destruct (IH w1) as (vis & w' & -> & Hsub & Ha & Hl & Henv & Hvals).
  destruct (elapsed _ _ _) eqn:Hel; cbn [negb].
  - exists vis, w'. split; [done|]. split; [by apply sublist_cons|].
    split.
    { eapply Forall_impl; [exact Ha|]. intros k Hk x Hx.
      destruct (Hk x Hx) as (t & Ht & Hle). exists t. split; [lia|done]. }
    split.
    { intros e' He' Hnv. apply elem_of_cons in He' as [->|He'].
      - unfold elapsed, Before in Hel.
        destruct (P2.itemExpiries c !! _) as [x|] eqn:Hx; [|done].
        exists x, (tick w). split; [done|]. split; [done|]. lia.
      - destruct (Hl e' He' Hnv) as (x & t & Hx & Ht & Hlt).
        exists x, t. split; [done|]. split; [lia|done]. }
    split; [congruence|].
    intros values i Hle. cbn [length] in Hle. apply Hvals. lia.
  - exists (e :: vis), w'. split; [done|]. split; [by apply sublist_skip|].
    split.
    { cbn. constructor.
      - intros x Hx. unfold elapsed, Before in Hel. rewrite Hx in Hel.
        exists (tick w). split; [done|]. lia.
      - eapply Forall_impl; [exact Ha|]. intros k Hk x Hx.
        destruct (Hk x Hx) as (t & Ht & Hle). exists t. split; [lia|done]. }
    split.
    { intros e' He' Hnv. apply not_elem_of_cons in Hnv as [Hne Hnv].
      apply elem_of_cons in He' as [->|He']; [done|].
      destruct (Hl e' He' Hnv) as (x & t & Hx & Ht & Hlt).
      exists x, t. split; [done|]. split; [lia|done]. }
    split; [congruence|].
    intros values i Hle. cbn [length] in Hle. rewrite decide_True by lia.
    destruct (Hvals (<[i := value (deref (P2.evictList c) e)]> values) (S i))
      as (vals & -> & Ht).
    { rewrite length_insert. lia. }
    exists vals. cbn [length]. rewrite Nat.add_succ_r. split; [done|].
    cbn [plus] in Ht. rewrite Ht.
    rewrite (take_S_r _ _ (value (deref (P2.evictList c) e)))
      by (apply list_lookup_insert_eq; lia).
    rewrite take_insert_ge by lia. cbn. by rewrite <- app_assoc.
Qed.

(** X6. [RemoveExpired] walks the list from the back to the front and
    removes the nodes whose expiry it finds elapsed, each with its index
    entry and its expiry record, calling the callback for each in the order
    of the walk. It returns their number. The nodes that stay keep their
    order, and the expiry of none of them had elapsed at its reading. *)
Theorem remove_expired (c1 : P1.LRU K V E) (c2 : P2.LRU K V E) w :
  P1.wf c1 → P2.wf c2 →
  (∃ gone c' w',
      P1.RemoveExpired clock c1 w = (Z.of_nat (length gone), c', w')
      ∧ sublist gone (reverse (order (P1.evictList c1)))
      ∧ sublist (order (P1.evictList c')) (order (P1.evictList c1))
      ∧ (∀ x, x ∈ order (P1.evictList c')
              ↔ x ∈ order (P1.evictList c1) ∧ x ∉ gone)
      ∧ (length (order (P1.evictList c')) + length gone
         = length (order (P1.evictList c1)))%nat
      ∧ P1.items c'
        = dropKeys (P1.items c1) (nodeKeys (P1.evictList c1) gone)
      ∧ P1.itemExpiries c'
        = dropKeys (P1.itemExpiries c1) (nodeKeys (P1.evictList c1) gone)
      ∧ env w' = notifyAll (P1.onEvict c1) (P1.evictList c1) gone (env w)
      ∧ Forall (lapsed clock (tick w) (P1.itemExpiries c1))
               (nodeKeys (P1.evictList c1) gone)
      ∧ Forall (alive clock (tick w) (P1.itemExpiries c1))
               (nodeKeys (P1.evictList c1) (order (P1.evictList c')))
      ∧ P1.wf c')
  ∧ (∃ gone c' w',
      P2.RemoveExpired clock c2 w = (Z.of_nat (length gone), c', w')
      ∧ sublist gone (reverse (order (P2.evictList c2)))
      ∧ sublist (order (P2.evictList c')) (order (P2.evictList c2))
      ∧ (∀ x, x ∈ order (P2.evictList c')
              ↔ x ∈ order (P2.evictList c2) ∧ x ∉ gone)
      ∧ (length (order (P2.evictList c')) + length gone
         = length (order (P2.evictList c2)))%nat
      ∧ P2.items c'
        = dropKeys (P2.items c2) (nodeKeys (P2.evictList c2) gone)
      ∧ P2.itemExpiries c'
        = dropKeys (P2.itemExpiries c2) (nodeKeys (P2.evictList c2) gone)
      ∧ env w' = notifyAll (P2.onEvict c2) (P2.evictList c2) gone (env w)
      ∧ Forall (lapsed clock (tick w) (P2.itemExpiries c2))
               (nodeKeys (P2.evictList c2) gone)
      ∧ Forall (alive clock (tick w) (P2.itemExpiries c2))
               (nodeKeys (P2.evictList c2) (order (P2.evictList c')))
      ∧ P2.wf c').
Proof.
  intros Hwf1 Hwf2. split.
  - destruct (removeExpiredFrom_spec1 (backToFront (P1.evictList c1)) 0 c1 w Hwf1)
      as (gone & c' & w' & Hr & Hsg & Hso & Hmem & Hlen & _ & Hit & Hex & _
          & Hwf' & _ & Henv & Hl & Ha).
    { unfold backToFront. rewrite reverse_Permutation. apply Hwf1. }
    { intros x. unfold backToFront. by rewrite elem_of_reverse. }
    exists gone, c', w'. unfold P1.RemoveExpired. rewrite Hr.
    split; [done|]. split; [done|]. split; [done|]. split; [done|].
    split; [done|]. split; [done|]. split; [done|]. split; [done|].
    split; [done|]. split; [|done].
    apply Forall_fmap, Forall_forall. intros x Hx. apply Hmem in Hx as [Hx Hng].
    apply Ha; [|done]. unfold backToFront. by rewrite elem_of_reverse.
  - destruct (removeExpiredFrom_spec2 (backToFront (P2.evictList c2)) 0 c2 w Hwf2)
      as (gone & c' & w' & Hr & Hsg & Hso & Hmem & Hlen & _ & Hit & Hex & _
          & Hwf' & _ & Henv & Hl & Ha).
    { unfold backToFront. rewrite reverse_Permutation. apply Hwf2. }
    { intros x. unfold backToFront. by rewrite elem_of_reverse. }
    exists gone, c', w'. unfold P2.RemoveExpired. rewrite Hr.
    split; [done|]. split; [done|]. split; [done|]. split; [done|].
    split; [done|]. split; [done|]. split; [done|]. split; [done|].
    split; [done|]. split; [|done].
    apply Forall_fmap, Forall_forall. intros x Hx. apply Hmem in Hx as [Hx Hng].
    apply Ha; [|done]. unfold backToFront. by rewrite elem_of_reverse.
Qed.

(** X7. [Keys] and [Values], called in the same state, list the same
    entries in the same order, oldest first: the keys, and the values, of
    the nodes whose expiry has not elapsed at its reading; the nodes left
    out are those whose expiry has elapsed. The keys are pairwise distinct,
    [Values] stays within its slice, and [Len] (like [ItemCount] and
    [ActualLen]) is the number of these nodes, not the number of nodes of
    the list. The callback is not called. *)
Theorem keys_values (c1 : P1.LRU K V E) (c2 : P2.LRU K V E) w :
  P1.wf c1 → P2.wf c2 →
  (∃ vis w',
      P1.Keys clock c1 w = (nodeKeys (P1.evictList c1) vis, w')
      ∧ P1.Values clock c1 w = (Some (nodeValues (P1.evictList c1) vis), w')
      ∧ P1.Len clock c1 w = (Z.of_nat (length vis), w')
      ∧ P1.ItemCount clock c1 w = (Z.of_nat (length vis), w')
      ∧ sublist vis (reverse (order (P1.evictList c1)))
      ∧ Forall (alive clock (tick w) (P1.itemExpiries c1))
               (nodeKeys (P1.evictList c1) vis)
      ∧ (∀ e, e ∈ order (P1.evictList c1) → e ∉ vis →
              lapsed clock (tick w) (P1.itemExpiries c1)
                     (key (deref (P1.evictList c1) e)))
      ∧ NoDup (nodeKeys (P1.evictList c1) vis)
      ∧ env w' = env w)
  ∧ (∃ vis w',
      P2.Keys clock c2 w = (nodeKeys (P2.evictList c2) vis, w')
      ∧ P2.Values clock c2 w = (Some (nodeValues (P2.evictList c2) vis), w')
      ∧ P2.Len clock c2 w = (Z.of_nat (length vis), w')
      ∧ P2.ActualLen clock c2 w = (Z.of_nat (length vis), w')
      ∧ sublist vis (reverse (order (P2.evictList c2)))
      ∧ Forall (alive clock (tick w) (P2.itemExpiries c2))
               (nodeKeys (P2.evictList c2) vis)
      ∧ (∀ e, e ∈ order (P2.evictList c2) → e ∉ vis →
              lapsed clock (tick w) (P2.itemExpiries c2)
                     (key (deref (P2.evictList c2) e)))
      ∧ NoDup (nodeKeys (P2.evictList c2) vis)
      ∧ env w' = env w).
Proof.
  intros Hwf1 Hwf2. split.
  - destruct (keysValues_spec1 (backToFront (P1.evictList c1)) c1 w)
      as (vis & w' & Hk & Hsub & Ha & Hl & Henv & Hvals).
    unfold backToFront in Hsub.
    destruct (Hvals (replicate (size (P1.items c1)) zero) 0%nat)
      as (vals & Hv & Ht).
    { rewrite length_replicate, (linked_size _ _ Hwf1).
      unfold backToFront. rewrite length_reverse. lia. }
    exists vis, w'. unfold P1.Len, P1.ItemCount, P1.Keys, P1.Values.
    rewrite Hk, Hv. cbn [plus] in Ht. cbn [plus]. rewrite Ht, take_0. cbn [app].
    assert (Hlk : length (nodeKeys (P1.evictList c1) vis) = length vis)
      by apply length_fmap.
    rewrite Hlk.
    split; [done|]. split; [done|]. split; [done|]. split; [done|].
    split; [done|]. split; [done|].
    split.
    { intros e He. apply Hl. unfold backToFront. by rewrite elem_of_reverse. }
    split; [|done].
    apply NoDup_fmap_2_strong.
    + intros x y Hx Hy Heq.
      apply (sublist_elem _ _ _ Hsub) in Hx, Hy.
      rewrite elem_of_reverse in Hx, Hy.
      by apply (linked_key_inj _ _ _ _ Hwf1).
    + eapply sublist_NoDup; [|exact Hsub].
      rewrite reverse_Permutation. apply Hwf1.
  - destruct (keysValues_spec2 (backToFront (P2.evictList c2)) c2 w)
      as (vis & w' & Hk & Hsub & Ha & Hl & Henv & Hvals).
    unfold backToFront in Hsub.
    destruct (Hvals (replicate (size (P2.items c2)) zero) 0%nat)
      as (vals & Hv & Ht).
    { rewrite length_replicate, (linked_size _ _ Hwf2).
      unfold backToFront. rewrite length_reverse. lia. }
    exists vis, w'. unfold P2.Len, P2.ActualLen, P2.Keys, P2.Values.
    rewrite Hk, Hv. cbn [plus] in Ht. cbn [plus]. rewrite Ht, take_0. cbn [app].
    assert (Hlk : length (nodeKeys (P2.evictList c2) vis) = length vis)
      by apply length_fmap.
    rewrite Hlk.
    split; [done|]. split; [done|]. split; [done|]. split; [done|].
    split; [done|]. split; [done|].
    split.
    { intros e He. apply Hl. unfold backToFront. by rewrite elem_of_reverse. }
    split; [|done].
    apply NoDup_fmap_2_strong.
    + intros x y Hx Hy Heq.
      apply (sublist_elem _ _ _ Hsub) in Hx, Hy.
      rewrite elem_of_reverse in Hx, Hy.
      by apply (linked_key_inj _ _ _ _ Hwf2).
    + eapply sublist_NoDup; [|exact Hsub].
      rewrite reverse_Permutation. apply Hwf2.
Qed.
End Sweep.

(** * Clearing, resizing, changing an expiry, moving a key *)

Section Rest.
Context `{Countable K} {V E : Type} `{!Zero K, !Zero V}.
Variable clock : nat → Z.
Implicit Types (k : K) (v : V) (w : World E) (e : ref).

(** The rounds of [Purge] of part_001 over the pairs [kvs] of the index. *)
Lemma purge_fold1 kvs : ∀ (c : P1.LRU K V E) w,
  let s := foldl P1.purgeStep (c, w) kvs in
  P1.items s.1 = dropKeys (P1.items c) kvs.*1
  ∧ P1.itemExpiries s.1 = dropKeys (P1.itemExpiries c) kvs.*1
  ∧ P1.evictList s.1 = P1.evictList c
  ∧ (P1.size s.1 = P1.size c ∧ P1.onEvict s.1 = P1.onEvict c
     ∧ P1.itemTTL s.1 = P1.itemTTL c)
  ∧ tick s.2 = tick w
  ∧ env s.2
    = foldl (λ x kv, notify (P1.onEvict c) kv.1
                            (value (deref (P1.evictList c) kv.2)) x)
            (env w) kvs.
Proof.
  induction kvs as [|[k e] kvs IH]; intros c w; cbn [foldl].
  { cbn zeta. by rewrite fmap_nil, !dropKeys_nil. }
  destruct (P1.purgeStep (c, w) (k, e)) as [c2 w2] eqn:Hs.
  destruct (IH c2 w2) as (Hi & Hx & Hl & (Hsz & Hcb & Httl) & Ht & He).
  unfold P1.purgeStep in Hs. cbn [fst snd] in Hs. injection Hs as <- <-.
  destruct (env_fire (P1.onEvict c) k (value (deref (P1.evictList c) e)) w)
    as [Hfe Hft].
  cbn zeta. rewrite Hi, Hx, Hl, Hsz, Hcb, Httl, Ht, He, Hft, Hfe. cbn.
  by rewrite !dropKeys_delete.
Qed.

(** The rounds of [Purge] of part_002 over the pairs [kvs] of the index. *)
Lemma purge_fold2 kvs : ∀ (c : P2.LRU K V E) w,
  let s := foldl P2.purgeStep (c, w) kvs in
  P2.items s.1 = dropKeys (P2.items c) kvs.*1
  ∧ P2.itemExpiries s.1 = dropKeys (P2.itemExpiries c) kvs.*1
  ∧ P2.evictList s.1 = P2.evictList c
  ∧ (P2.size s.1 = P2.size c ∧ P2.onEvict s.1 = P2.onEvict c
     ∧ P2.itemTTL s.1 = P2.itemTTL c)
  ∧ tick s.2 = tick w
  ∧ env s.2
    = foldl (λ x kv, notify (P2.onEvict c) kv.1
                            (value (deref (P2.evictList c) kv.2)) x)
            (env w) kvs.
Proof.
  induction kvs as [|[k e] kvs IH]; intros c w; cbn [foldl].
  { cbn zeta. by rewrite fmap_nil, !dropKeys_nil. }
  destruct (P2.purgeStep (c, w) (k, e)) as [c2 w2] eqn:Hs.
  destruct (IH c2 w2) as (Hi & Hx & Hl & (Hsz & Hcb & Httl) & Ht & He).
  unfold P2.purgeStep in Hs. cbn [fst snd] in Hs. injection Hs as <- <-.
  destruct (env_fire (P2.onEvict c) k (value (deref (P2.evictList c) e)) w)
    as [Hfe Hft].
  cbn zeta. rewrite Hi, Hx, Hl, Hsz, Hcb, Httl, Ht, He, Hft, Hfe. cbn.
  by rewrite !dropKeys_delete.
Qed.

(** [Purge] of part_001 when the loop visits the index in the order of
    [seed]. *)
Lemma Purge_spec1 seed (c : P1.LRU K V E) w :
  let c' := (P1.Purge seed c w).1 in
  P1.items c' = ∅
  ∧ order (P1.evictList c') = []
  ∧ P1.itemExpiries c'
    = dropKeys (P1.itemExpiries c) (map_to_list (P1.items c)).*1
  ∧ (∀ k, is_Some (P1.items c !! k) → P1.itemExpiries c' !! k = None)
  ∧ (P1.size c' = P1.size c ∧ P1.onEvict c' = P1.onEvict c
     ∧ P1.itemTTL c' = P1.itemTTL c)
  ∧ (P1.Purge seed c w).2
    = mkWorld (tick w)
        (foldl (λ x kv, notify (P1.onEvict c) kv.1
                               (value (deref (P1.evictList c) kv.2)) x)
               (env w) (rangeOrder seed (map_to_list (P1.items c))))
  ∧ (∀ w2, P1.Keys clock c' w2 = ([], w2) ∧ P1.Len clock c' w2 = (0, w2)).
Proof.
  pose proof (purge_fold1 (rangeOrder seed (map_to_list (P1.items c))) c w)
    as Hf.
  cbn zeta in Hf. unfold P1.Purge. cbn zeta.
  destruct (foldl P1.purgeStep (c, w) _) as [c' w'].
  cbn [fst snd] in *. destruct Hf as (Hi & Hx & Hl & Hf & Ht & He).
  unfold P1.withList. cbn.
  assert (Hkeys : ∀ k, k ∈ (rangeOrder seed (map_to_list (P1.items c))).*1
                       ↔ k ∈ (map_to_list (P1.items c)).*1).
  { intros k. by rewrite rangeOrder_perm. }
  assert (Hin : ∀ k e, P1.items c !! k = Some e
                       → k ∈ (map_to_list (P1.items c)).*1).
  { intros k e Hk. apply list_elem_of_fmap. exists (k, e).
    split; [done|]. by apply elem_of_map_to_list. }
  rewrite (dropKeys_perm _ _ _ Hkeys) in Hi.
  rewrite (dropKeys_perm _ _ _ Hkeys) in Hx.
  assert (Hiempty : P1.items c' = ∅).
  { rewrite Hi. apply map_eq. intros k. rewrite lookup_dropKeys, lookup_empty.
    destruct (decide _) as [|Hn]; [done|].
    destruct (P1.items c !! k) as [e|] eqn:Hk; [|done].
    exfalso. by eapply Hn, Hin. }
  split; [done|]. split; [done|]. split; [done|].
  split.
  { intros k [e Hk]. rewrite Hx, lookup_dropKeys, decide_True; [done|].
    by eapply Hin. }
  split; [done|].
  split; [destruct w'; cbn in *; by subst|].
  intros w2. unfold P1.Len, P1.Keys, backToFront. by cbn.
Qed.

(** [Purge] of part_002 when the loop visits the index in the order of
    [seed]. *)
Lemma Purge_spec2 seed (c : P2.LRU K V E) w :
  let c' := (P2.Purge seed c w).1 in
  P2.items c' = ∅
  ∧ order (P2.evictList c') = []
  ∧ P2.itemExpiries c'
    = dropKeys (P2.itemExpiries c) (map_to_list (P2.items c)).*1
  ∧ (∀ k, is_Some (P2.items c !! k) → P2.itemExpiries c' !! k = None)
  ∧ (P2.size c' = P2.size c ∧ P2.onEvict c' = P2.onEvict c
     ∧ P2.itemTTL c' = P2.itemTTL c)
  ∧ (P2.Purge seed c w).2
    = mkWorld (tick w)
        (foldl (λ x kv, notify (P2.onEvict c) kv.1
                               (value (deref (P2.evictList c) kv.2)) x)
               (env w) (rangeOrder seed (map_to_list (P2.items c))))
  ∧ (∀ w2, P2.Keys clock c' w2 = ([], w2) ∧ P2.Len clock c' w2 = (0, w2)).
Proof.
  pose proof (purge_fold2 (rangeOrder seed (map_to_list (P2.items c))) c w)
    as Hf.
  cbn zeta in Hf. unfold P2.Purge. cbn zeta.
  destruct (foldl P2.purgeStep (c, w) _) as [c' w'].
  cbn [fst snd] in *. destruct Hf as (Hi & Hx & Hl & Hf & Ht & He).
  unfold P2.withList. cbn.
  assert (Hkeys : ∀ k, k ∈ (rangeOrder seed (map_to_list (P2.items c))).*1
                       ↔ k ∈ (map_to_list (P2.items c)).*1).
  { intros k. by rewrite rangeOrder_perm. }
  assert (Hin : ∀ k e, P2.items c !! k = Some e
                       → k ∈ (map_to_list (P2.items c)).*1).
  { intros k e Hk. apply list_elem_of_fmap. exists (k, e).
    split; [done|]. by apply elem_of_map_to_list. }
  rewrite (dropKeys_perm _ _ _ Hkeys) in Hi.
  rewrite (dropKeys_perm _ _ _ Hkeys) in Hx.
  assert (Hiempty : P2.items c' = ∅).
  { rewrite Hi. apply map_eq. intros k. rewrite lookup_dropKeys, lookup_empty.
    destruct (decide _) as [|Hn]; [done|].
    destruct (P2.items c !! k) as [e|] eqn:Hk; [|done].
    exfalso. by eapply Hn, Hin. }
  split; [done|]. split; [done|]. split; [done|].
  split.
  { intros k [e Hk]. rewrite Hx, lookup_dropKeys, decide_True; [done|].
    by eapply Hin. }
  split; [done|].
  split; [destruct w'; cbn in *; by subst|].
  intros w2. unfold P2.Len, P2.Keys, backToFront. by cbn.
Qed.

(** X8. [Purge] empties the cache, in whatever order its loop visits the
    index: the index and the list are empty afterwards, so that [Keys] is
    empty and [Len] is 0, and no expiry is left for a key that was in the
    index. The callback (when one is set) is called once for each pair of
    the index, with the key and the value of its node, in the order of
    the visit: this order is a permutation of the pairs of the index, and
    every permutation of them is the order of some run. The clock is not
    read. The capacity, the default TTL and the callback stay. *)
Theorem purge_clears (c1 : P1.LRU K V E) (c2 : P2.LRU K V E) w :
  (∀ seed,
     let c' := (P1.Purge seed c1 w).1 in
     P1.items c' = ∅
     ∧ order (P1.evictList c') = []
     ∧ P1.itemExpiries c'
       = dropKeys (P1.itemExpiries c1) (map_to_list (P1.items c1)).*1
     ∧ (∀ k, is_Some (P1.items c1 !! k) → P1.itemExpiries c' !! k = None)
     ∧ (P1.size c' = P1.size c1 ∧ P1.onEvict c' = P1.onEvict c1
        ∧ P1.itemTTL c' = P1.itemTTL c1)
     ∧ (∃ visit,
          visit ≡ₚ map_to_list (P1.items c1)
          ∧ (P1.Purge seed c1 w).2
            = mkWorld (tick w)
                (foldl (λ x kv, notify (P1.onEvict c1) kv.1
                                  (value (deref (P1.evictList c1) kv.2)) x)
                       (env w) visit))
     ∧ (∀ w2, P1.Keys clock c' w2 = ([], w2) ∧ P1.Len clock c' w2 = (0, w2)))
  ∧ (∀ visit, visit ≡ₚ map_to_list (P1.items c1) →
       ∃ seed,
         (P1.Purge seed c1 w).2
         = mkWorld (tick w)
             (foldl (λ x kv, notify (P1.onEvict c1) kv.1
                               (value (deref (P1.evictList c1) kv.2)) x)
                    (env w) visit))
  ∧ (∀ seed,
     let c' := (P2.Purge seed c2 w).1 in
     P2.items c' = ∅
     ∧ order (P2.evictList c') = []
     ∧ P2.itemExpiries c'
       = dropKeys (P2.itemExpiries c2) (map_to_list (P2.items c2)).*1
     ∧ (∀ k, is_Some (P2.items c2 !! k) → P2.itemExpiries c' !! k = None)
     ∧ (P2.size c' = P2.size c2 ∧ P2.onEvict c' = P2.onEvict c2
        ∧ P2.itemTTL c' = P2.itemTTL c2)
     ∧ (∃ visit,
          visit ≡ₚ map_to_list (P2.items c2)
          ∧ (P2.Purge seed c2 w).2
            = mkWorld (tick w)
                (foldl (λ x kv, notify (P2.onEvict c2) kv.1
                                  (value (deref (P2.evictList c2) kv.2)) x)
                       (env w) visit))
     ∧ (∀ w2, P2.Keys clock c' w2 = ([], w2) ∧ P2.Len clock c' w2 = (0, w2)))
  ∧ (∀ visit, visit ≡ₚ map_to_list (P2.items c2) →
       ∃ seed,
         (P2.Purge seed c2 w).2
         = mkWorld (tick w)
             (foldl (λ x kv, notify (P2.onEvict c2) kv.1
                               (value (deref (P2.evictList c2) kv.2)) x)
                    (env w) visit)).
Proof.
  split; [|split; [|split]].
  - intros seed. pose proof (Purge_spec1 seed c1 w) as Hp. cbn zeta in *.
    destruct Hp as (Hi & Ho & Hx & Hn & Hf & Hw & Hk).
    split; [done|]. split; [done|]. split; [done|]. split; [done|].
    split; [done|]. split; [|done].
    exists (rangeOrder seed (map_to_list (P1.items c1))).
    split; [apply rangeOrder_perm|done].
  - intros visit Hv. destruct (rangeOrder_any visit _ Hv) as [seed Hs].
    exists seed. pose proof (Purge_spec1 seed c1 w) as Hp. cbn zeta in Hp.
    destruct Hp as (_ & _ & _ & _ & _ & Hw & _). by rewrite Hw, Hs.
  - intros seed. pose proof (Purge_spec2 seed c2 w) as Hp. cbn zeta in *.
    destruct Hp as (Hi & Ho & Hx & Hn & Hf & Hw & Hk).
    split; [done|]. split; [done|]. split; [done|]. split; [done|].
    split; [done|]. split; [|done].
    exists (rangeOrder seed (map_to_list (P2.items c2))).
    split; [apply rangeOrder_perm|done].
  - intros visit Hv. destruct (rangeOrder_any visit _ Hv) as [seed Hs].
    exists seed. pose proof (Purge_spec2 seed c2 w) as Hp. cbn zeta in Hp.
    destruct Hp as (_ & _ & _ & _ & _ & Hw & _). by rewrite Hw, Hs.
Qed.

(** [removeOldest] of part_002 repeated [n] times removes [n] nodes, or all
    of them when there are fewer. *)
Lemma removeOldestTimes_length2 n : ∀ (c : P2.LRU K V E) w,
  P2.wf c →
  length (order (P2.evictList (P2.removeOldestTimes clock n c w).1))
  = (length (order (P2.evictList c)) - n)%nat.
Proof.
  induction n as [|n IH]; intros c w Hwf; cbn [P2.removeOldestTimes].
  { cbn [fst]. lia. }
  destruct (order (P2.evictList c)) as [|x xs] eqn:Ho.
  - destruct (removeOldest_wf2 clock c w Hwf) as (Hwf' & _ & Hlen).
    destruct (P2.removeOldest clock c w) as [c1 w1]. cbn [fst] in *.
    rewrite (IH c1 w1 Hwf'). rewrite Ho in Hlen. cbn in *. lia.
  - destruct (removeOldest_one2 clock c w Hwf)
      as (c1 & w1 & -> & Hlen & _ & _ & _ & _ & Hwf'); [by rewrite Ho|].
    rewrite (IH c1 w1 Hwf'). rewrite Ho in Hlen. cbn in *. lia.
Qed.

(** [removeOldest] of part_001 repeated [n] times removes at least [n]
    nodes, or all of them when there are fewer. *)
Lemma removeOldestTimes_length1 n : ∀ (c : P1.LRU K V E) w,
  P1.wf c →
  (length (order (P1.evictList (P1.removeOldestTimes clock n c w).1))
   ≤ length (order (P1.evictList c)) - n)%nat.
Proof.
  induction n as [|n IH]; intros c w Hwf; cbn [P1.removeOldestTimes].
  { cbn [fst]. lia. }
  destruct (order (P1.evictList c)) as [|x xs] eqn:Ho.
  - destruct (removeOldest_wf1 clock c w Hwf) as (Hwf' & _ & Hlen).
    destruct (P1.removeOldest clock c w) as [c1 w1]. cbn [fst] in *.
    specialize (IH c1 w1 Hwf'). rewrite Ho in Hlen. cbn in *. lia.
  - destruct (removeOldest_some1 clock c w Hwf)
      as (c1 & w1 & -> & Hlen & _ & _ & _ & Hwf'); [by rewrite Ho|].
    specialize (IH c1 w1 Hwf'). rewrite Ho in Hlen. cbn in *. lia.
Qed.

(** [Keys], and so [Len], leave the callback's state alone. *)
Lemma keysFrom_env1 es (c : P1.LRU K V E) : ∀ w,
  env (P1.keysFrom clock es c w).2 = env w.
Proof.
  induction es as [|e es IH]; intros w; [done|]. cbn [P1.keysFrom].
  destruct (KeyHasExpired_elapsed1 clock (key (deref (P1.evictList c) e)) c w)
    as (w1 & -> & Henv & _).
  specialize (IH w1). destruct (P1.keysFrom clock es c w1) as [ks w2].
  cbn [snd] in IH. destruct (negb _); cbn [snd]; congruence.
Qed.

Lemma keysFrom_env2 es (c : P2.LRU K V E) : ∀ w,
  env (P2.keysFrom clock es c w).2 = env w.
Proof.
  induction es as [|e es IH]; intros w; [done|]. cbn [P2.keysFrom].
  destruct (keyHasExpired_elapsed2 clock (key (deref (P2.evictList c) e)) c w)
    as (w1 & -> & Henv & _).
  specialize (IH w1). destruct (P2.keysFrom clock es c w1) as [ks w2].
  cbn [snd] in IH. destruct (negb _); cbn [snd]; congruence.
Qed.

(** X9. [Resize] counts with [Len] the entries that have not expired, runs
    [removeOldest] as many times as this number exceeds the new capacity,
    sets the capacity to the argument and returns the number of rounds
    (zero when [Len] is within the new capacity: nothing is then removed
    and only the capacity changes); the difference is taken on 64-bit
    integers, it is assumed here not to overflow. The nodes removed
    ([gone]) are unlinked with their entries of the index and their expiry
    records, the callback is called for each in the order of their
    removal, and the other nodes keep their order. In part_002 each round
    removes one node as long as the list is not empty; in part_001 at
    least one. The callback and the default TTL stay. *)
Theorem resize_evicts (n : Z) (c1 : P1.LRU K V E) (c2 : P2.LRU K V E) w :
  P1.wf c1 → P2.wf c2 →
  int64 ((P1.Len clock c1 w).1 - n) → int64 ((P2.Len clock c2 w).1 - n) →
  (let evicted := Z.max 0 ((P1.Len clock c1 w).1 - n) in
   let rounds := P1.removeOldestTimes clock (Z.to_nat evicted) c1
                                      (P1.Len clock c1 w).2 in
   P1.Resize clock n c1 w = (evicted, P1.withSize rounds.1 n, rounds.2)
   ∧ P1.size (P1.Resize clock n c1 w).1.2 = n
   ∧ (P1.onEvict (P1.Resize clock n c1 w).1.2 = P1.onEvict c1
      ∧ P1.itemTTL (P1.Resize clock n c1 w).1.2 = P1.itemTTL c1)
   ∧ (∃ gone,
        evicts gone (P1.evictList c1)
               (P1.evictList (P1.Resize clock n c1 w).1.2)
               (P1.items c1) (P1.items (P1.Resize clock n c1 w).1.2)
               (P1.itemExpiries c1)
               (P1.itemExpiries (P1.Resize clock n c1 w).1.2)
        ∧ env (P1.Resize clock n c1 w).2
          = notifyAll (P1.onEvict c1) (P1.evictList c1) gone (env w)
        ∧ (Nat.min (Z.to_nat evicted) (length (order (P1.evictList c1)))
           ≤ length gone)%nat)
   ∧ (length (order (P1.evictList (P1.Resize clock n c1 w).1.2))
      ≤ length (order (P1.evictList c1)) - Z.to_nat evicted)%nat
   ∧ ((P1.Len clock c1 w).1 ≤ n →
      (P1.Resize clock n c1 w).1.2 = P1.withSize c1 n)
   ∧ P1.wf (P1.Resize clock n c1 w).1.2)
  ∧ (let evicted := Z.max 0 ((P2.Len clock c2 w).1 - n) in
     let rounds := P2.removeOldestTimes clock (Z.to_nat evicted) c2
                                        (P2.Len clock c2 w).2 in
     P2.Resize clock n c2 w = (evicted, P2.withSize rounds.1 n, rounds.2)
     ∧ P2.size (P2.Resize clock n c2 w).1.2 = n
     ∧ (P2.onEvict (P2.Resize clock n c2 w).1.2 = P2.onEvict c2
        ∧ P2.itemTTL (P2.Resize clock n c2 w).1.2 = P2.itemTTL c2
        ∧ P2.expiryBasedEvict (P2.Resize clock n c2 w).1.2
          = P2.expiryBasedEvict c2)
     ∧ (∃ gone,
          evicts gone (P2.evictList c2)
                 (P2.evictList (P2.Resize clock n c2 w).1.2)
                 (P2.items c2) (P2.items (P2.Resize clock n c2 w).1.2)
                 (P2.itemExpiries c2)
                 (P2.itemExpiries (P2.Resize clock n c2 w).1.2)
          ∧ env (P2.Resize clock n c2 w).2
            = notifyAll (P2.onEvict c2) (P2.evictList c2) gone (env w)
          ∧ length gone
            = Nat.min (Z.to_nat evicted) (length (order (P2.evictList c2))))
     ∧ length (order (P2.evictList (P2.Resize clock n c2 w).1.2))
       = (length (order (P2.evictList c2)) - Z.to_nat evicted)%nat
     ∧ ((P2.Len clock c2 w).1 ≤ n →
        (P2.Resize clock n c2 w).1.2 = P2.withSize c2 n)
     ∧ P2.wf (P2.Resize clock n c2 w).1.2).
Proof.
  intros Hwf1 Hwf2 Hr1 Hr2. split.
  - assert (Hle : env (P1.Len clock c1 w).2 = env w).
    { unfold P1.Len, P1.Keys.
      pose proof (keysFrom_env1 (backToFront (P1.evictList c1)) c1 w) as Hk.
      by destruct (P1.keysFrom _ _ _ _). }
    unfold P1.Resize. destruct (P1.Len clock c1 w) as [len w1].
    cbn [fst snd] in *. rewrite (wrap64_int64 _ Hr1).
    assert (Hd : (if len - n <? 0 then 0 else len - n) = Z.max 0 (len - n))
      by (destruct (Z.ltb_spec (len - n) 0); lia).
    rewrite Hd. cbn zeta.
    assert (Hz : len ≤ n → P1.removeOldestTimes clock
                   (Z.to_nat (Z.max 0 (len - n))) c1 w1 = (c1, w1)).
    { intros Hlen. by replace (Z.max 0 (len - n)) with 0 by lia. }
    destruct (removeOldestTimes_gone1 clock (Z.to_nat (Z.max 0 (len - n)))
                c1 w1 Hwf1)
      as (gone & c' & w' & Hrm & Hwf' & (Hsz & Hcb & Httl) & Hev & Hen & Hl).
    rewrite Hrm in *. cbn [fst snd]. unfold P1.withSize at 2 3 4 5 6 7 8 9.
    cbn [P1.size P1.onEvict P1.itemTTL P1.evictList P1.items P1.itemExpiries].
    split; [done|]. split; [done|]. split; [done|].
    split; [exists gone; by rewrite Hen, Hle|].
    split.
    { destruct Hev as (_ & _ & _ & Hlen & _). lia. }
    split; [|done]. intros Hlen. by injection (Hz Hlen) as -> _.
  - assert (Hle : env (P2.Len clock c2 w).2 = env w).
    { unfold P2.Len, P2.Keys.
      pose proof (keysFrom_env2 (backToFront (P2.evictList c2)) c2 w) as Hk.
      by destruct (P2.keysFrom _ _ _ _). }
    unfold P2.Resize. destruct (P2.Len clock c2 w) as [len w1].
    cbn [fst snd] in *. rewrite (wrap64_int64 _ Hr2).
    assert (Hd : (if len - n <? 0 then 0 else len - n) = Z.max 0 (len - n))
      by (destruct (Z.ltb_spec (len - n) 0); lia).
    rewrite Hd. cbn zeta.
    assert (Hz : len ≤ n → P2.removeOldestTimes clock
                   (Z.to_nat (Z.max 0 (len - n))) c2 w1 = (c2, w1)).
    { intros Hlen. by replace (Z.max 0 (len - n)) with 0 by lia. }
    destruct (removeOldestTimes_gone2 clock (Z.to_nat (Z.max 0 (len - n)))
                c2 w1 Hwf2)
      as (gone & c' & w' & Hrm & Hwf' & (Hsz & Hcb & Httl & Hfl) & Hev & Hen
          & Hl).
    rewrite Hrm in *. cbn [fst snd]. unfold P2.withSize at 2 3 4 5 6 7 8 9 10.
    cbn [P2.size P2.onEvict P2.itemTTL P2.evictList P2.items P2.itemExpiries
         P2.expiryBasedEvict].
    split; [done|]. split; [done|]. split; [done|].
    split; [exists gone; by rewrite Hen, Hle|].
    split.
    { destruct Hev as (_ & _ & _ & Hlen & _). lia. }
    split; [|done]. intros Hlen. by injection (Hz Hlen) as -> _.
Qed.

(** X10. [ChangeExpiry] on an absent key returns false and changes nothing.
    On a resident key whose expiry has not elapsed it returns true and
    records the new expiry, which [ExpiryForKey] then answers; the list,
    the index and the other expiries are as before. On a resident key
    whose expiry has elapsed, the [Peek] it starts with removes the entry
    and hands back its flag set: [ChangeExpiry] returns true and records
    the new expiry for the key, which is in the index no more. *)
Theorem change_expiry k (expiry : Z) (c : P1.LRU K V E) w :
  P1.wf c →
  match P1.items c !! k with
  | None => P1.ChangeExpiry clock k expiry c w = (false, c, w)
  | Some e =>
      if elapsed (P1.itemExpiries c) (clock (tick w)) k
      then ∃ c' w',
          P1.ChangeExpiry clock k expiry c w = (true, c', w')
          ∧ P1.items c' = delete k (P1.items c)
          ∧ order (P1.evictList c')
            = filter (λ y, y ≠ e) (order (P1.evictList c))
          ∧ P1.itemExpiries c' = <[k := expiry]> (P1.itemExpiries c)
          ∧ P1.wf c'
      else ∃ w',
          P1.ChangeExpiry clock k expiry c w
          = (true, P1.withExpiries c (<[k := expiry]> (P1.itemExpiries c)), w')
          ∧ P1.ExpiryForKey k
              (P1.withExpiries c (<[k := expiry]> (P1.itemExpiries c)))
            = expiry
          ∧ env w' = env w
  end.
Proof.
  intros Hwf. unfold P1.ChangeExpiry, P1.Peek.
  destruct (P1.items c !! k) as [e|] eqn:Hk; [|done].
  destruct (KeyHasExpired_elapsed1 clock k c w) as (w1 & -> & Henv & _).
  destruct (removeElement_key1 k e c w1 Hwf Hk)
    as (c' & -> & (Ho & _ & _ & Hi & Hx) & _ & _ & _ & Hwf').
  destruct (elapsed _ _ _); cbn [negb].
  - eexists _, _. split; [reflexivity|]. cbn.
    split; [done|]. split; [done|].
    split; [by rewrite Hx, insert_delete_eq|]. exact Hwf'.
  - exists w1. split; [done|]. split; [|done].
    unfold P1.ExpiryForKey. cbn. by rewrite lookup_insert_eq.
Qed.

(** X11. [MoveItem] on a key that is absent from [src] returns moved =
    false and changes neither cache. On a key that is resident in [src]
    and whose expiry has elapsed at neither of the two readings made before
    the removal, it returns the value with moved = true, removes the key
    from [src] (index entry, expiry record, callback of [src]) and inserts
    the key with this value into [dest] by [AddWithExp]. Both caches stay
    well formed. *)
Theorem move_item_cases k (dest src : P1.LRU K V E) w :
  P1.wf dest → P1.wf src →
  P1.wf (P1.MoveItem clock k dest src w).1.1.2
  ∧ P1.wf (P1.MoveItem clock k dest src w).1.2
  ∧ match P1.items src !! k with
    | None => P1.MoveItem clock k dest src w = ((zero, false), dest, src, w)
    | Some e =>
        elapsed (P1.itemExpiries src) (clock (tick w)) k = false →
        elapsed (P1.itemExpiries src)
                (clock (tick (P1.KeyHasExpired clock k src w).2)) k = false →
        ∃ src' w3,
          P1.MoveItem clock k dest src w
          = ((value (deref (P1.evictList src) e), true),
             (P1.AddWithExp clock k (value (deref (P1.evictList src) e)) 0
                            dest w3).1.2,
             src',
             (P1.AddWithExp clock k (value (deref (P1.evictList src) e)) 0
                            dest w3).2)
          ∧ unlinks k e (P1.evictList src) (P1.evictList src')
                    (P1.items src) (P1.items src')
                    (P1.itemExpiries src) (P1.itemExpiries src')
          ∧ env w3 = notify (P1.onEvict src) k
                            (value (deref (P1.evictList src) e)) (env w)
    end.
Proof.
  intros Hd Hs. destruct (MoveItem_wf1 clock k dest src w Hd Hs) as [Hw1 Hw2].
  split; [done|]. split; [done|].
  unfold P1.MoveItem, P1.Peek, P1.Remove, P1.ExpiryForKey.
  destruct (P1.items src !! k) as [e|] eqn:Hk; [|done].
  intros Hx1.
  destruct (KeyHasExpired_elapsed1 clock k src w) as (w1 & -> & He1 & _).
  rewrite Hx1. cbn [negb snd]. intros Hx2.
  destruct (KeyHasExpired_elapsed1 clock k src w1) as (w2 & -> & He2 & _).
  rewrite Hx2, Hk. cbn [negb].
  destruct (KeyHasExpired_elapsed1 clock k src w2) as (w3 & -> & He3 & _).
  destruct (removeElement_key1 k e src w3 Hs Hk)
    as (src' & -> & Hu & _).
  pose proof Hu as (_ & _ & _ & _ & Hx).
  rewrite Hx, lookup_delete_eq. cbn [default].
  destruct (P1.AddWithExp clock k _ 0 dest _) as [[b d'] w4] eqn:Ha.
  eexists src', _. rewrite Ha. cbn [fst snd].
  split; [reflexivity|]. split; [done|].
  destruct (env_fire (P1.onEvict src) k (value (deref (P1.evictList src) e)) w3)
    as [-> _]. congruence.
Qed.
End Rest.

(** * What holds after every sequence of calls *)

Section Always.
Context `{Countable K} {V E : Type} `{!Zero K, !Zero V}.
Variable clock : nat → Z.
Implicit Types (k : K) (v : V) (w : World E) (e : ref).

(** What a well-formed cache says of its keys. *)
Lemma linked_keys (l : lruList K V) (m : gmap K ref) :
  linked l m →
  size m = length (order l)
  ∧ NoDup (nodeKeys l (order l))
  ∧ ∀ k, is_Some (m !! k) ↔ k ∈ nodeKeys l (order l).
Proof.
  intros Hl. split; [by apply linked_size|]. split.
  - apply NoDup_fmap_2_strong; [|apply Hl].
    intros x y Hx Hy. by apply (linked_key_inj _ _ _ _ Hl).
  - intros k. unfold nodeKeys. rewrite list_elem_of_fmap. split.
    + intros [e Hk]. destruct (linked_lookup _ _ _ _ Hl Hk) as [Hin [v Hv]].
      exists e. by rewrite (deref_cell _ _ _ Hv).
    + intros (e & -> & Hin).
      destruct (linked_node _ _ _ Hl Hin) as (ent & Hc & Hi).
      rewrite (deref_cell _ _ _ Hc). by eexists.
Qed.

(** X12. The index and the list stay in step: on a cache built by the
    constructor, after every sequence of calls, the index has as many
    entries as the list has nodes, the nodes carry pairwise distinct keys,
    and the keys of the index are the keys of the nodes. *)
Theorem index_in_step (n ttl : Z) (cb : option (K → V → E → E)) (flag : bool)
    (ops1 : list (P1.call K V)) (ops2 : list (P2.call K V)) w
    (c1 : P1.LRU K V E) (c2 : P2.LRU K V E) :
  P1.NewLRUWithEvictTTL n cb ttl = Some c1 →
  P2.NewLRUWithEvictTTL n cb ttl flag = Some c2 →
  (let c := (P1.run clock ops1 c1 w).1 in
   size (P1.items c) = length (order (P1.evictList c))
   ∧ NoDup (nodeKeys (P1.evictList c) (order (P1.evictList c)))
   ∧ ∀ k, is_Some (P1.items c !! k)
          ↔ k ∈ nodeKeys (P1.evictList c) (order (P1.evictList c)))
  ∧ (let c := (P2.run clock ops2 c2 w).1 in
     size (P2.items c) = length (order (P2.evictList c))
     ∧ NoDup (nodeKeys (P2.evictList c) (order (P2.evictList c)))
     ∧ ∀ k, is_Some (P2.items c !! k)
            ↔ k ∈ nodeKeys (P2.evictList c) (order (P2.evictList c))).
Proof.
  unfold P1.NewLRUWithEvictTTL, P2.NewLRUWithEvictTTL.
  destruct (n <=? 0); [done|]. intros [= <-] [= <-]. split.
  - apply linked_keys, (run_wf1 clock ops1), linked_newList.
  - apply linked_keys, (run_wf2 clock ops2), linked_newList.
Qed.

(** X13. Within the capacity: on a cache built by the constructor with
    the size [n], after every sequence of insertions the list has at most
    [n] nodes, and [Len] reports at most [n]. *)
Theorem insertions_within_capacity (n ttl : Z) (cb : option (K → V → E → E))
    (flag : bool) (ops1 : list (P1.call K V)) (ops2 : list (P2.call K V)) w
    (c1 : P1.LRU K V E) (c2 : P2.LRU K V E) :
  P1.NewLRUWithEvictTTL n cb ttl = Some c1 →
  P2.NewLRUWithEvictTTL n cb ttl flag = Some c2 →
  forallb P1.isAdd ops1 = true → forallb P2.isAdd ops2 = true →
  (let c := (P1.run clock ops1 c1 w).1 in
   P1.size c = n
   ∧ Z.of_nat (length (order (P1.evictList c))) ≤ n
   ∧ ∀ w', 0 ≤ (P1.Len clock c w').1 ≤ n)
  ∧ (let c := (P2.run clock ops2 c2 w).1 in
     P2.size c = n
     ∧ Z.of_nat (length (order (P2.evictList c))) ≤ n
     ∧ ∀ w', 0 ≤ (P2.Len clock c w').1 ≤ n).
Proof.
  unfold P1.NewLRUWithEvictTTL, P2.NewLRUWithEvictTTL.
  destruct (Z.leb_spec n 0); [done|]. intros [= <-] [= <-] Ha1 Ha2.
  assert (Hpos1 : ∀ (c : P1.LRU K V E) w', 0 ≤ (P1.Len clock c w').1).
  { intros c w'. unfold P1.Len. destruct (P1.Keys clock c w'). cbn. lia. }
  assert (Hpos2 : ∀ (c : P2.LRU K V E) w', 0 ≤ (P2.Len clock c w').1).
  { intros c w'. unfold P2.Len. destruct (P2.Keys clock c w'). cbn. lia. }
  split.
  - destruct (adds_within_capacity1 clock ops1
                (P1.mkLRU n newList ∅ cb ttl ∅) w Ha1) as (_ & Hsz & Hl & Hlen);
      [apply linked_newList|cbn; lia|].
    cbn zeta. split; [done|]. split; [done|]. intros w'. split; [done|].
    apply Hlen.
  - destruct (adds_within_capacity2 clock ops2
                (P2.mkLRU n newList ∅ cb ttl ∅ flag) w Ha2) as (_ & Hsz & Hl & Hlen);
      [apply linked_newList|cbn; lia|].
    cbn zeta. split; [done|]. split; [done|]. intros w'. split; [done|].
    apply Hlen.
Qed.
End Always.

(** * part_002: the expiries follow the index *)

Section Tracking.
Context `{Countable K} {V E : Type} `{!Zero K, !Zero V}.
Variable clock : nat → Z.
Implicit Types (k : K) (v : V) (w : World E) (e : ref) (c : P2.LRU K V E).

Lemma tracks_delete (ttl : Z) (m : gmap K ref) (x : gmap K Z) k :
  tracks ttl m x → tracks ttl (delete k m) (delete k x).
Proof.
  unfold tracks. destruct (0 <? ttl).
  - intros Ht k'. destruct (decide (k = k')) as [->|Hne].
    + rewrite !lookup_delete_eq. split; intros [? ?]; done.
    + rewrite !lookup_delete_ne by done. apply Ht.
  - intros ->. apply delete_empty.
Qed.

Lemma tracks_dropKeys (ttl : Z) ks : ∀ (m : gmap K ref) (x : gmap K Z),
  tracks ttl m x → tracks ttl (dropKeys m ks) (dropKeys x ks).
Proof.
  induction ks as [|k ks IH]; intros m x Ht.
  - by rewrite !dropKeys_nil.
  - rewrite <- !dropKeys_delete. by apply IH, tracks_delete.
Qed.

(** The cache [c'] has the default TTL of [c] and its expiries follow its
    index. *)
Lemma removeElement_tracked2 e c w :
  P2.tracked c →
  P2.tracked (P2.removeElement e c w).1
  ∧ P2.itemTTL (P2.removeElement e c w).1 = P2.itemTTL c.
Proof.
  intros Ht. split; [|done]. unfold P2.tracked, P2.removeElement. cbn.
  by apply tracks_delete.
Qed.

Lemma removeOldest_tracked2 c w :
  P2.tracked c →
  P2.tracked (P2.removeOldest clock c w).1
  ∧ P2.itemTTL (P2.removeOldest clock c w).1 = P2.itemTTL c.
Proof.
  intros Ht. unfold P2.removeOldest.
  destruct (if P2.expiryBasedEvict c then _ else _) as [[e|] w1].
  - by apply removeElement_tracked2.
  - destruct (back _) as [e|]; [by apply removeElement_tracked2|done].
Qed.

Lemma removeOldestTimes_tracked2 n : ∀ c w,
  P2.tracked c →
  P2.tracked (P2.removeOldestTimes clock n c w).1
  ∧ P2.itemTTL (P2.removeOldestTimes clock n c w).1 = P2.itemTTL c.
Proof.
  induction n as [|n IH]; intros c w Ht; [done|]. cbn [P2.removeOldestTimes].
  destruct (removeOldest_tracked2 c w Ht) as [Ht1 Hl1].
  destruct (P2.removeOldest clock c w) as [c1 w1]. cbn [fst] in *.
  destruct (IH c1 w1 Ht1) as [Ht2 Hl2]. split; [done|congruence].
Qed.

Lemma removeExpiredFrom_tracked2 es : ∀ (n : Z) c w,
  P2.tracked c →
  P2.tracked (P2.removeExpiredFrom clock es n c w).1.2
  ∧ P2.itemTTL (P2.removeExpiredFrom clock es n c w).1.2 = P2.itemTTL c.
Proof.
  induction es as [|e es IH]; intros n c w Ht; [done|].
  cbn [P2.removeExpiredFrom].
  destruct (P2.keyHasExpired _ _ _ _) as [[|] w1]; [|by apply IH].
  destruct (removeElement_tracked2 e c w1 Ht) as [Ht1 Hl1].
  destruct (P2.removeElement e c w1) as [c2 w2]. cbn [fst] in *.
  destruct (IH (n + 1) c2 w2 Ht1) as [Ht2 Hl2]. split; [done|congruence].
Qed.

Lemma Add_tracked2 k v c w :
  P2.tracked c →
  P2.tracked (P2.Add clock k v c w).1.2
  ∧ P2.itemTTL (P2.Add clock k v c w).1.2 = P2.itemTTL c.
Proof.
  intros Ht. unfold P2.Add. destruct (P2.items c !! k) as [e|] eqn:Hk; [done|].
  destruct (pushFront k v (P2.evictList c)) as [ent l1].
  assert (Ht1 : ∀ x w',
    (if 0 <? P2.itemTTL c
     then let '(now, w') := timeNow clock w in
          (<[k := now + P2.itemTTL c]> (P2.itemExpiries c), w')
     else (P2.itemExpiries c, w)) = (x, w') →
    tracks (P2.itemTTL c) (<[k := ent]> (P2.items c)) x).
  { intros x w' Hx. unfold P2.tracked, tracks in *.
    destruct (0 <? P2.itemTTL c).
    - cbn in Hx. injection Hx as <- _. intros k'.
      destruct (decide (k = k')) as [->|Hne].
      + rewrite !lookup_insert_eq. split; by eexists.
      + rewrite !lookup_insert_ne by done. apply Ht.
    - by injection Hx as <- _. }
  destruct (if 0 <? P2.itemTTL c then _ else _) as [exps w1] eqn:Hx.
  specialize (Ht1 exps w1 eq_refl).
  destruct (P2.size c <? llen l1).
  - match goal with
    | |- context [P2.removeOldest clock ?c2 w1] =>
        destruct (removeOldest_tracked2 c2 w1 Ht1) as [Ht2 Hl2];
        by destruct (P2.removeOldest clock c2 w1) as [c3 w3]
    end.
  - done.
Qed.

Lemma Get_tracked2 k c w :
  P2.tracked c →
  P2.tracked (P2.Get clock k c w).1.2
  ∧ P2.itemTTL (P2.Get clock k c w).1.2 = P2.itemTTL c.
Proof.
  intros Ht. unfold P2.Get. destruct (P2.items c !! k) as [e|]; [|done].
  by destruct (P2.keyHasExpired _ _ _ _) as [[|] w1].
Qed.

Lemma Remove_tracked2 k c w :
  P2.tracked c →
  P2.tracked (P2.Remove clock k c w).1.2
  ∧ P2.itemTTL (P2.Remove clock k c w).1.2 = P2.itemTTL c.
Proof.
  intros Ht. unfold P2.Remove. destruct (P2.items c !! k) as [e|]; [|done].
  destruct (P2.keyHasExpired _ _ _ _) as [[|] w1]; cbn [negb];
    pose proof (removeElement_tracked2 e c w1 Ht);
    by destruct (P2.removeElement e c w1).
Qed.

Lemma RemoveOldest_tracked2 c w :
  P2.tracked c →
  P2.tracked (P2.RemoveOldest clock c w).1.2
  ∧ P2.itemTTL (P2.RemoveOldest clock c w).1.2 = P2.itemTTL c.
Proof.
  intros Ht. unfold P2.RemoveOldest. destruct (back _) as [e|]; [|done].
  destruct (P2.keyHasExpired _ _ _ _) as [[|] w1]; cbn [negb];
    pose proof (removeElement_tracked2 e c w1 Ht);
    by destruct (P2.removeElement e c w1).
Qed.

Lemma Resize_tracked2 (n : Z) c w :
  P2.tracked c →
  P2.tracked (P2.Resize clock n c w).1.2
  ∧ P2.itemTTL (P2.Resize clock n c w).1.2 = P2.itemTTL c.
Proof.
  intros Ht. unfold P2.Resize. destruct (P2.Len clock c w) as [len w1].
  set (d := Z.to_nat _).
  pose proof (removeOldestTimes_tracked2 d c w1 Ht).
  by destruct (P2.removeOldestTimes clock d c w1).
Qed.

Lemma Purge_tracked2 seed c w :
  P2.tracked c →
  P2.tracked (P2.Purge seed c w).1
  ∧ P2.itemTTL (P2.Purge seed c w).1 = P2.itemTTL c.
Proof.
  intros Ht. unfold P2.Purge.
  destruct (purge_fold2 (rangeOrder seed (map_to_list (P2.items c))) c w)
    as (Hi & Hx & _ & (_ & _ & Httl) & _).
  destruct (foldl _ _ _) as [c1 w1]. cbn [fst snd] in *.
  split; [|done]. unfold P2.tracked, P2.withList. cbn.
  rewrite Hi, Hx, Httl. by apply tracks_dropKeys.
Qed.

(** Every call keeps the default TTL, and the expiries following the
    index. *)
Lemma exec_tracked2 (op : P2.call K V) c w :
  P2.tracked c →
  P2.tracked (P2.exec clock op c w).1
  ∧ P2.itemTTL (P2.exec clock op c w).1 = P2.itemTTL c.
Proof.
  intros Ht. destruct op; cbn [P2.exec]; try done.
  - pose proof (Add_tracked2 k v c w Ht).
    by destruct (P2.Add _ _ _ _ _) as [[? ?] ?].
  - pose proof (Get_tracked2 k c w Ht).
    by destruct (P2.Get _ _ _ _) as [[? ?] ?].
  - pose proof (Contains_same2 clock k c w).
    destruct (P2.Contains _ _ _ _) as [[? ?] ?]. cbn in *. by subst.
  - pose proof (Peek_same2 clock k c w).
    destruct (P2.Peek _ _ _ _) as [[? ?] ?]. cbn in *. by subst.
  - pose proof (Remove_tracked2 k c w Ht).
    by destruct (P2.Remove _ _ _ _) as [[? ?] ?].
  - pose proof (RemoveOldest_tracked2 c w Ht).
    by destruct (P2.RemoveOldest _ _ _) as [[? ?] ?].
  - pose proof (GetOldest_same2 clock c w).
    destruct (P2.GetOldest _ _ _) as [[? ?] ?]. cbn in *. by subst.
  - pose proof (Resize_tracked2 n c w Ht).
    by destruct (P2.Resize _ _ _ _) as [[? ?] ?].
  - pose proof (removeExpiredFrom_tracked2
                  (backToFront (P2.evictList c)) 0 c w Ht) as Hr.
    unfold P2.RemoveExpired.
    by destruct (P2.removeExpiredFrom _ _ _ _ _) as [[? ?] ?].
  - by apply Purge_tracked2.
Qed.

Lemma run_tracked2 (ops : list (P2.call K V)) : ∀ c w,
  P2.tracked c →
  P2.tracked (P2.run clock ops c w).1
  ∧ P2.itemTTL (P2.run clock ops c w).1 = P2.itemTTL c.
Proof.
  unfold P2.run. induction ops as [|op ops IH]; intros c w Ht; [done|].
  cbn [foldl fst snd]. destruct (exec_tracked2 op c w Ht) as [Ht1 Hl1].
  destruct (P2.exec clock op c w) as [c1 w1]. cbn [fst] in *.
  destruct (IH c1 w1 Ht1) as [Ht2 Hl2]. split; [done|congruence].
Qed.

(** With no expiry recorded, [Keys] lists the key of every node. *)
Lemma keysFrom_all2 es c : ∀ w,
  P2.itemExpiries c = ∅ →
  P2.keysFrom clock es c w = (nodeKeys (P2.evictList c) es, w).
Proof.
  induction es as [|e es IH]; intros w Hx; [done|]. cbn [P2.keysFrom].
  unfold P2.keyHasExpired at 1. rewrite Hx, lookup_empty.
  by rewrite (IH w Hx).
Qed.

(** X14. part_002, the expiries follow the index: on a cache built by the
    constructor, after every sequence of calls, the default TTL is the one
    given to the constructor; when it is positive the keys with an expiry
    are exactly the keys of the index; when it is not, no expiry is
    recorded, so that no key is ever found expired, the clock is never read
    for it, and [Keys] lists the key of every node, oldest first. *)
Theorem expiries_follow_index (n ttl : Z) (cb : option (K → V → E → E))
    (flag : bool) (ops : list (P2.call K V)) w (c0 : P2.LRU K V E) :
  P2.NewLRUWithEvictTTL n cb ttl flag = Some c0 →
  let c := (P2.run clock ops c0 w).1 in
  P2.itemTTL c = ttl
  ∧ (0 < ttl →
     ∀ k, is_Some (P2.itemExpiries c !! k) ↔ is_Some (P2.items c !! k))
  ∧ (ttl ≤ 0 →
     P2.itemExpiries c = ∅
     ∧ (∀ k w', P2.keyHasExpired clock k c w' = (false, w'))
     ∧ ∀ w', P2.Keys clock c w'
             = (nodeKeys (P2.evictList c) (backToFront (P2.evictList c)), w')).
Proof.
  unfold P2.NewLRUWithEvictTTL. destruct (n <=? 0); [done|]. intros [= <-].
  set (c0 := P2.mkLRU _ _ _ _ _ _ _).
  assert (Ht0 : P2.tracked c0).
  { unfold P2.tracked, tracks. cbn. destruct (0 <? ttl); [|done].
    intros k. by rewrite !lookup_empty. }
  destruct (run_tracked2 ops c0 w Ht0) as [Ht Httl]. cbn zeta.
  set (c := (P2.run clock ops c0 w).1) in *. cbn in Httl.
  split; [done|]. unfold P2.tracked, tracks in Ht. rewrite Httl in Ht.
  split.
  - intros Hpos. apply Z.ltb_lt in Hpos. by rewrite Hpos in Ht.
  - intros Hle. apply Z.ltb_ge in Hle. rewrite Hle in Ht.
    split; [done|]. split.
    + intros k w'. unfold P2.keyHasExpired. by rewrite Ht, lookup_empty.
    + intros w'. by apply keysFrom_all2.
Qed.
End Tracking.

(** * The properties on the sample caches *)

(** X1 on the sample caches: key 1 of [a2] (expiry 50) is read at the
    instant 10 and comes to the front; key 9 is absent. *)
Lemma get_hit_miss_witness :
  P1.wf Sample.a2 ∧ P2.wf Sample.b2
  ∧ order (P1.evictList Sample.a2) = [1; 0]%nat
  ∧ (∃ c' w',
        P1.Get (Sample.since 10) 1 Sample.a2 Sample.start = ((11, true), c', w')
        ∧ order (P1.evictList c') = [0; 1]%nat
        ∧ P1.items c' = P1.items Sample.a2)
  ∧ (∃ c' w',
        P2.Get (Sample.since 10) 2 Sample.b2 Sample.start = ((22, true), c', w')
        ∧ P2.items c' = P2.items Sample.b2).
Proof.
  assert (H1 : P1.wf Sample.a2) by compute_done.
  assert (H2 : P2.wf Sample.b2) by compute_done.
  assert (Hk1 : P1.items Sample.a2 !! 1 = Some 0%nat) by compute_done.
  assert (Hk2 : P2.items Sample.b2 !! 2 = Some 1%nat) by compute_done.
  destruct (get_hit_miss (Sample.since 10) 1 Sample.a2 Sample.b2 Sample.start
              H1 H2) as [Ha _].
  destruct (get_hit_miss (Sample.since 10) 2 Sample.a2 Sample.b2 Sample.start
              H1 H2) as [_ Hb].
  rewrite Hk1 in Ha. rewrite Hk2 in Hb.
  destruct Ha as (c1 & w1 & Hg1 & Ho1 & _ & _ & Hi1 & _);
    [compute_done|compute_done|].
  destruct Hb as (c2 & w2 & Hg2 & _ & _ & _ & Hi2 & _); [compute_done|].
  split; [exact H1|]. split; [exact H2|]. split; [compute_done|]. split.
  - exists c1, w1. split; [exact Hg1|]. split; [|exact Hi1].
    rewrite Ho1. reflexivity.
  - exists c2, w2. split; [exact Hg2|exact Hi2].
Defined.

(** X2 on the sample caches: key 1 is removed from [a2] and from [b3]. *)
Lemma remove_then_absent_witness :
  P1.wf Sample.a2 ∧ P2.wf Sample.b3
  ∧ P1.ExpiryForKey 1 Sample.a2 = 50
  ∧ (let c' := (P1.Remove (Sample.since 10) 1 Sample.a2 Sample.start).1.2 in
     P1.Contains (Sample.since 10) 1 c' Sample.start = (false, c', Sample.start)
     ∧ P1.Get (Sample.since 10) 1 c' Sample.start = ((0, false), c', Sample.start)
     ∧ P1.ExpiryForKey 1 c' = 0)
  ∧ (let c' := (P2.Remove (Sample.since 10) 1 Sample.b3 Sample.start).1.2 in
     P2.Peek (Sample.since 10) 1 c' Sample.start = ((0, false), c', Sample.start)
     ∧ P2.Remove (Sample.since 10) 1 c' Sample.start = (false, c', Sample.start)).
Proof.
  assert (H1 : P1.wf Sample.a2) by compute_done.
  assert (H2 : P2.wf Sample.b3) by compute_done.
  pose proof (remove_then_absent (Sample.since 10) 1 Sample.a2 Sample.b3
                Sample.start Sample.start H1 H2) as Ht.
  cbn zeta in Ht.
  destruct Ht as [(_ & Hc & _ & Hg & _ & Hx) (_ & _ & Hp & _ & Hr & _)].
  destruct Hx as [Hx _]; [compute_done|].
  split; [exact H1|]. split; [exact H2|]. split; [compute_done|].
  cbn zeta. split.
  - split; [exact Hc|]. split; [exact Hg|exact Hx].
  - split; [exact Hp|exact Hr].
Defined.

(** X3 on the sample caches: key 3 is added at the instant 10 to [a1] and
    to [b1], which hold one entry for the capacity 2. *)
Lemma add_then_lookup_witness :
  P1.wf Sample.a1 ∧ P2.wf Sample.b1
  ∧ (is_Some (P1.items Sample.a1 !! 3)
     ∨ Z.of_nat (length (order (P1.evictList Sample.a1))) < P1.size Sample.a1)
  ∧ (is_Some (P2.items Sample.b1 !! 3)
     ∨ Z.of_nat (length (order (P2.evictList Sample.b1))) < P2.size Sample.b1)
  ∧ (let c' := (P1.AddWithExp (Sample.since 10) 3 33 70 Sample.a1
                              Sample.start).1.2 in
     (P1.AddWithExp (Sample.since 10) 3 33 70 Sample.a1 Sample.start).1.1 = false
     ∧ (P1.Peek (Sample.since 10) 3 c' Sample.start).1 = ((33, true), c')
     ∧ P1.itemExpiries c' !! 3 = Some 70)
  ∧ (let c' := (P2.Add (Sample.since 10) 3 33 Sample.b1 Sample.start).1.2 in
     (P2.Add (Sample.since 10) 3 33 Sample.b1 Sample.start).1.1 = false
     ∧ (P2.Contains (Sample.since 10) 3 c' Sample.start).1 = (true, c')
     ∧ P2.itemExpiries c' !! 3 = Some 20).
Proof.
  assert (H1 : P1.wf Sample.a1) by compute_done.
  assert (H2 : P2.wf Sample.b1) by compute_done.
  assert (H3 : is_Some (P1.items Sample.a1 !! 3)
     ∨ Z.of_nat (length (order (P1.evictList Sample.a1))) < P1.size Sample.a1)
    by (right; compute_done).
  assert (H4 : is_Some (P2.items Sample.b1 !! 3)
     ∨ Z.of_nat (length (order (P2.evictList Sample.b1))) < P2.size Sample.b1)
    by (right; compute_done).
  pose proof (add_then_lookup (Sample.since 10) 3 33 70 Sample.a1 Sample.b1
                Sample.start Sample.start H1 H2 H3 H4) as Ht.
  cbn zeta in Ht. destruct Ht as [(Ha1 & Hl1 & Hx1) (Ha2 & Hl2 & Hx2)].
  destruct Hl1 as [Hp1 _]; [compute_done|].
  destruct Hl2 as [_ Hc2]; [compute_done|].
  split; [exact H1|]. split; [exact H2|]. split; [exact H3|].
  split; [exact H4|]. cbn zeta. split.
  - split; [exact Ha1|]. split; [exact Hp1|].
    rewrite Hx1 by compute_done. reflexivity.
  - split; [exact Ha2|]. split; [exact Hc2|].
    rewrite Hx2 by compute_done. reflexivity.
Defined.

(** X4 on the sample caches: [a12] and [d2] hold the keys 1 and 2 for the
    capacity 2, key 1 at the back; the insertion of key 3 evicts key 1. *)
Lemma overflow_evicts_tail_witness :
  P1.wf Sample.a12 ∧ P2.wf Sample.d2
  ∧ P1.items Sample.a12 !! 3 = None ∧ P2.items Sample.d2 !! 3 = None
  ∧ order (P1.evictList Sample.a12) = [1%nat] ++ [0%nat]
  ∧ order (P2.evictList Sample.d2) = [1%nat] ++ [0%nat]
  ∧ P1.size Sample.a12 ≤ Z.of_nat (length (order (P1.evictList Sample.a12)))
  ∧ P2.size Sample.d2 ≤ Z.of_nat (length (order (P2.evictList Sample.d2)))
  ∧ P1.itemTTL Sample.a12 ≤ 0
  ∧ P1.itemExpiries Sample.a12
      !! key (deref (P1.evictList Sample.a12) 0%nat) = None
  ∧ P2.expiryBasedEvict Sample.d2 = false
  ∧ (∃ c' w',
        P1.AddWithExp (Sample.since 10) 3 33 0 Sample.a12 Sample.start
        = (true, c', w')
        ∧ order (P1.evictList c') = [2; 1]%nat
        ∧ env w' = [(1, 11)])
  ∧ (∃ c' w',
        P2.Add (Sample.since 10) 3 33 Sample.d2 Sample.start = (true, c', w')
        ∧ order (P2.evictList c') = [2; 1]%nat
        ∧ env w' = [(1, 11)]).
Proof.
  assert (H1 : P1.wf Sample.a12) by compute_done.
  assert (H2 : P2.wf Sample.d2) by compute_done.
  assert (H3 : P1.items Sample.a12 !! 3 = None) by compute_done.
  assert (H4 : P2.items Sample.d2 !! 3 = None) by compute_done.
  assert (H5 : order (P1.evictList Sample.a12) = [1%nat] ++ [0%nat])
    by compute_done.
  assert (H6 : order (P2.evictList Sample.d2) = [1%nat] ++ [0%nat])
    by compute_done.
  assert (H7 : P1.size Sample.a12
               ≤ Z.of_nat (length (order (P1.evictList Sample.a12))))
    by compute_done.
  assert (H8 : P2.size Sample.d2
               ≤ Z.of_nat (length (order (P2.evictList Sample.d2))))
    by compute_done.
  assert (H9 : P1.itemTTL Sample.a12 ≤ 0) by compute_done.
  assert (H10 : P1.itemExpiries Sample.a12
                  !! key (deref (P1.evictList Sample.a12) 0%nat) = None)
    by compute_done.
  assert (H11 : P2.expiryBasedEvict Sample.d2 = false) by compute_done.
  destruct (overflow_evicts_tail (Sample.since 10) 3 33 0 Sample.a12 Sample.d2
              Sample.start [1%nat] 0%nat [1%nat] 0%nat
              H1 H2 H3 H4 H5 H6 H7 H8 H9 H10 H11)
    as [(c1 & w1 & Ha1 & Ho1 & _ & _ & _ & He1)
        (c2 & w2 & Ha2 & Ho2 & _ & _ & _ & He2)].
  split; [exact H1|]. split; [exact H2|]. split; [exact H3|].
  split; [exact H4|]. split; [exact H5|]. split; [exact H6|].
  split; [exact H7|]. split; [exact H8|]. split; [exact H9|].
  split; [exact H10|]. split; [exact H11|]. split.
  - exists c1, w1. split; [exact Ha1|]. split.
    + rewrite Ho1. reflexivity.
    + rewrite He1. reflexivity.
  - exists c2, w2. split; [exact Ha2|]. split.
    + rewrite Ho2. reflexivity.
    + rewrite He2. reflexivity.
Defined.

(** X5 on the sample cache [b3], whose flag is set: key 2 (expiry 15) is at
    the back and key 1 (expiry 10), read last, at the front. At the instant
    12 the scan finds key 2 alive and the expiry of key 1 elapsed: the node
    removed is the one of key 1, at the front, and the callback is called
    with the pair (1, 11). *)
Lemma eviction_policy_witness :
  P2.wf Sample.b3 ∧ order (P2.evictList Sample.b3) ≠ []
  ∧ nodeKeys (P2.evictList Sample.b3) (order (P2.evictList Sample.b3)) = [1; 2]
  ∧ ∃ e c' w',
      P2.removeOldest (Sample.since 12) Sample.b3 Sample.start = (c', w')
      ∧ order (P2.evictList c')
        = filter (λ y, y ≠ e) (order (P2.evictList Sample.b3))
      ∧ env w' = [(1, 11)].
Proof.
  assert (H1 : P2.wf Sample.b3) by compute_done.
  assert (H2 : order (P2.evictList Sample.b3) ≠ []) by compute_done.
  destruct (eviction_policy (Sample.since 12) Sample.b3 Sample.start H1 H2)
    as (e & c' & w' & Hr & (Ho & _) & He & _).
  split; [exact H1|]. split; [exact H2|]. split; [compute_done|].
  exists e, c', w'. split; [exact Hr|]. split; [exact Ho|].
  assert (Hw : w' = (P2.removeOldest (Sample.since 12) Sample.b3
                                     Sample.start).2) by (by rewrite Hr).
  rewrite Hw. reflexivity.
Defined.

(** X6 on the sample caches at the instant 100: the expiry 50 of key 1 of
    [a2] has elapsed and key 2 has none; both expiries of [b3] have
    elapsed. *)
Lemma remove_expired_witness :
  P1.wf Sample.a2 ∧ P2.wf Sample.b3
  ∧ (∃ gone c' w',
        P1.RemoveExpired (Sample.since 100) Sample.a2 Sample.start
        = (Z.of_nat (length gone), c', w')
        ∧ Z.of_nat (length gone) = 1
        ∧ P1.items c'
          = dropKeys (P1.items Sample.a2) (nodeKeys (P1.evictList Sample.a2) gone)
        ∧ P1.wf c')
  ∧ (∃ gone c' w',
        P2.RemoveExpired (Sample.since 100) Sample.b3 Sample.start
        = (Z.of_nat (length gone), c', w')
        ∧ Z.of_nat (length gone) = 2
        ∧ P2.items c'
          = dropKeys (P2.items Sample.b3) (nodeKeys (P2.evictList Sample.b3) gone)
        ∧ P2.wf c').
Proof.
  assert (H1 : P1.wf Sample.a2) by compute_done.
  assert (H2 : P2.wf Sample.b3) by compute_done.
  destruct (remove_expired (Sample.since 100) Sample.a2 Sample.b3 Sample.start
              H1 H2)
    as [(g1 & c1 & w1 & Hr1 & _ & _ & _ & _ & Hi1 & _ & _ & _ & _ & Hw1)
        (g2 & c2 & w2 & Hr2 & _ & _ & _ & _ & Hi2 & _ & _ & _ & _ & Hw2)].
  split; [exact H1|]. split; [exact H2|]. split.
  - exists g1, c1, w1. split; [exact Hr1|]. split; [|by split].
    assert (Hn : Z.of_nat (length g1)
                 = (P1.RemoveExpired (Sample.since 100) Sample.a2
                                     Sample.start).1.1) by (by rewrite Hr1).
    rewrite Hn. reflexivity.
  - exists g2, c2, w2. split; [exact Hr2|]. split; [|by split].
    assert (Hn : Z.of_nat (length g2)
                 = (P2.RemoveExpired (Sample.since 100) Sample.b3
                                     Sample.start).1.1) by (by rewrite Hr2).
    rewrite Hn. reflexivity.
Defined.

(** X7 on the sample caches at the instant 100: [a2] has two nodes, of
    which key 1 has expired; [Keys] and [Values] list key 2 alone and [Len]
    is 1. Both entries of [b3] have expired and [Len] is 0. *)
Lemma keys_values_witness :
  P1.wf Sample.a2 ∧ P2.wf Sample.b3
  ∧ length (order (P1.evictList Sample.a2)) = 2%nat
  ∧ length (order (P2.evictList Sample.b3)) = 2%nat
  ∧ (∃ vis w',
        P1.Keys (Sample.since 100) Sample.a2 Sample.start
        = (nodeKeys (P1.evictList Sample.a2) vis, w')
        ∧ P1.Values (Sample.since 100) Sample.a2 Sample.start
          = (Some (nodeValues (P1.evictList Sample.a2) vis), w')
        ∧ P1.Len (Sample.since 100) Sample.a2 Sample.start
          = (Z.of_nat (length vis), w')
        ∧ Z.of_nat (length vis) = 1)
  ∧ (∃ vis w',
        P2.Keys (Sample.since 100) Sample.b3 Sample.start
        = (nodeKeys (P2.evictList Sample.b3) vis, w')
        ∧ P2.Values (Sample.since 100) Sample.b3 Sample.start
          = (Some (nodeValues (P2.evictList Sample.b3) vis), w')
        ∧ P2.Len (Sample.since 100) Sample.b3 Sample.start
          = (Z.of_nat (length vis), w')
        ∧ Z.of_nat (length vis) = 0).
Proof.
  assert (H1 : P1.wf Sample.a2) by compute_done.
  assert (H2 : P2.wf Sample.b3) by compute_done.
  destruct (keys_values (Sample.since 100) Sample.a2 Sample.b3 Sample.start
              H1 H2)
    as [(v1 & w1 & Hk1 & Hv1 & Hl1 & _) (v2 & w2 & Hk2 & Hv2 & Hl2 & _)].
  split; [exact H1|]. split; [exact H2|].
  split; [compute_done|]. split; [compute_done|]. split.
  - exists v1, w1. split; [exact Hk1|]. split; [exact Hv1|].
    split; [exact Hl1|].
    assert (Hn : Z.of_nat (length v1)
                 = (P1.Len (Sample.since 100) Sample.a2 Sample.start).1)
      by (by rewrite Hl1).
    rewrite Hn. reflexivity.
  - exists v2, w2. split; [exact Hk2|]. split; [exact Hv2|].
    split; [exact Hl2|].
    assert (Hn : Z.of_nat (length v2)
                 = (P2.Len (Sample.since 100) Sample.b3 Sample.start).1)
      by (by rewrite Hl2).
    rewrite Hn. reflexivity.
Defined.

(** X8 on the sample cache [a2], which holds the keys 1 and 2: one run of
    [Purge] calls the callback for key 1 and then for key 2, another for
    key 2 and then for key 1. *)
Lemma purge_clears_witness :
  ∃ seed seed',
    env (P1.Purge seed Sample.a2 Sample.start).2 = [(1, 11); (2, 22)]
    ∧ env (P1.Purge seed' Sample.a2 Sample.start).2 = [(2, 22); (1, 11)].
Proof.
  assert (Hm : map_to_list (P1.items Sample.a2) = [(2, 1%nat); (1, 0%nat)])
    by (vm_compute; reflexivity).
  destruct (purge_clears (Sample.since 0) Sample.a2 Sample.b3 Sample.start)
    as (_ & Hany & _).
  destruct (Hany [(1, 0%nat); (2, 1%nat)]) as [s1 H1].
  { rewrite Hm. apply perm_swap. }
  destruct (Hany [(2, 1%nat); (1, 0%nat)]) as [s2 H2]; [by rewrite Hm|].
  exists s1, s2. rewrite H1, H2. split; reflexivity.
Defined.

(** X9 on the sample caches at the instant 0, where no expiry has elapsed:
    both hold two entries, and [Resize] to the capacity 1 evicts the one at
    the back, key 1 in [a2] and key 2 in [b3]. *)
Lemma resize_evicts_witness :
  P1.wf Sample.a2 ∧ P2.wf Sample.b3
  ∧ int64 ((P1.Len (Sample.since 0) Sample.a2 Sample.start).1 - 1)
  ∧ int64 ((P2.Len (Sample.since 0) Sample.b3 Sample.start).1 - 1)
  ∧ (P1.Resize (Sample.since 0) 1 Sample.a2 Sample.start).1.1 = 1
  ∧ P1.size (P1.Resize (Sample.since 0) 1 Sample.a2 Sample.start).1.2 = 1
  ∧ env (P1.Resize (Sample.since 0) 1 Sample.a2 Sample.start).2 = [(1, 11)]
  ∧ (P2.Resize (Sample.since 0) 1 Sample.b3 Sample.start).1.1 = 1
  ∧ P2.size (P2.Resize (Sample.since 0) 1 Sample.b3 Sample.start).1.2 = 1
  ∧ env (P2.Resize (Sample.since 0) 1 Sample.b3 Sample.start).2 = [(2, 22)]
  ∧ length (order (P2.evictList
              (P2.Resize (Sample.since 0) 1 Sample.b3 Sample.start).1.2))
    = 1%nat.
Proof.
  assert (H1 : P1.wf Sample.a2) by compute_done.
  assert (H2 : P2.wf Sample.b3) by compute_done.
  assert (H3 : int64 ((P1.Len (Sample.since 0) Sample.a2 Sample.start).1 - 1))
    by (unfold int64; compute_done).
  assert (H4 : int64 ((P2.Len (Sample.since 0) Sample.b3 Sample.start).1 - 1))
    by (unfold int64; compute_done).
  pose proof (resize_evicts (Sample.since 0) 1 Sample.a2 Sample.b3 Sample.start
                H1 H2 H3 H4) as Ht.
  cbn zeta in Ht.
  destruct Ht as [(Hr1 & Hs1 & _) (Hr2 & Hs2 & _ & _ & Hn2 & _)].
  split; [exact H1|]. split; [exact H2|]. split; [exact H3|].
  split; [exact H4|].
  split; [rewrite Hr1; reflexivity|]. split; [exact Hs1|].
  split; [rewrite Hr1; reflexivity|].
  split; [rewrite Hr2; reflexivity|]. split; [exact Hs2|].
  split; [rewrite Hr2; reflexivity|].
  rewrite Hn2. reflexivity.
Defined.

(** X10 on the sample cache [a2] at the instant 100, where the expiry 50
    of key 1 has elapsed: [ChangeExpiry] returns true, key 1 is in the
    index no more and the expiry 900 is recorded for it. On the absent key
    9 it returns false. *)
Lemma change_expiry_witness :
  P1.wf Sample.a2
  ∧ elapsed (P1.itemExpiries Sample.a2) 100 1 = true
  ∧ (∃ c' w',
        P1.ChangeExpiry (Sample.since 100) 1 900 Sample.a2 Sample.start
        = (true, c', w')
        ∧ P1.items c' !! 1 = None
        ∧ P1.itemExpiries c' !! 1 = Some 900)
  ∧ P1.ChangeExpiry (Sample.since 100) 9 900 Sample.a2 Sample.start
    = (false, Sample.a2, Sample.start).
Proof.
  assert (H1 : P1.wf Sample.a2) by compute_done.
  assert (Hk : P1.items Sample.a2 !! 1 = Some 0%nat) by compute_done.
  assert (Hn : P1.items Sample.a2 !! 9 = None) by compute_done.
  assert (He : elapsed (P1.itemExpiries Sample.a2)
                 (Sample.since 100 (tick Sample.start)) 1 = true)
    by compute_done.
  pose proof (change_expiry (Sample.since 100) 1 900 Sample.a2 Sample.start H1)
    as Ha.
  pose proof (change_expiry (Sample.since 100) 9 900 Sample.a2 Sample.start H1)
    as Hb.
  rewrite Hk, He in Ha. rewrite Hn in Hb.
  destruct Ha as (c' & w' & Hc & Hi & _ & Hx & _).
  split; [exact H1|]. split; [exact He|]. split; [|exact Hb].
  exists c', w'. split; [exact Hc|]. split.
  - rewrite Hi. apply lookup_delete_eq.
  - rewrite Hx. apply lookup_insert_eq.
Defined.

(** X11 on the sample caches at the instant 100: key 7 of [a7] (expiry
    500) moves to the empty cache [a0]; key 9 is absent from [a7]. *)
Lemma move_item_cases_witness :
  P1.wf Sample.a0 ∧ P1.wf Sample.a7
  ∧ P1.wf (P1.MoveItem (Sample.since 100) 7 Sample.a0 Sample.a7
                       Sample.start).1.1.2
  ∧ P1.wf (P1.MoveItem (Sample.since 100) 7 Sample.a0 Sample.a7
                       Sample.start).1.2
  ∧ (∃ src' w3,
        (P1.MoveItem (Sample.since 100) 7 Sample.a0 Sample.a7 Sample.start).1
        = ((77, true),
           (P1.AddWithExp (Sample.since 100) 7 77 0 Sample.a0 w3).1.2, src')
        ∧ P1.items src' = delete 7 (P1.items Sample.a7)
        ∧ env w3 = [(7, 77)])
  ∧ P1.MoveItem (Sample.since 100) 9 Sample.a0 Sample.a7 Sample.start
    = ((0, false), Sample.a0, Sample.a7, Sample.start).
Proof.
  assert (H1 : P1.wf Sample.a0) by compute_done.
  assert (H2 : P1.wf Sample.a7) by compute_done.
  assert (Hk : P1.items Sample.a7 !! 7 = Some 0%nat) by compute_done.
  assert (Hn : P1.items Sample.a7 !! 9 = None) by compute_done.
  destruct (move_item_cases (Sample.since 100) 7 Sample.a0 Sample.a7
              Sample.start H1 H2) as (Hw1 & Hw2 & Ha).
  destruct (move_item_cases (Sample.since 100) 9 Sample.a0 Sample.a7
              Sample.start H1 H2) as (_ & _ & Hb).
  rewrite Hk in Ha. rewrite Hn in Hb.
  destruct Ha as (src' & w3 & Hm & (_ & _ & _ & Hi & _) & He);
    [compute_done|compute_done|].
  split; [exact H1|]. split; [exact H2|]. split; [exact Hw1|].
  split; [exact Hw2|]. split; [|exact Hb].
  exists src', w3. split; [by rewrite Hm|]. split; [exact Hi|].
  rewrite He. reflexivity.
Defined.

(** X12 on the sample sequences of calls, from the caches the constructors
    build with the capacity 2 and the default TTL 10. *)
Lemma index_in_step_witness :
  P1.NewLRUWithEvictTTL 2 Sample.record 10 = Some Sample.t0
  ∧ P2.NewLRUWithEvictTTL 2 Sample.record 10 true = Some Sample.b0
  ∧ (let c := (P1.run (Sample.since 0) Sample.calls1 Sample.t0 Sample.start).1 in
     size (P1.items c) = length (order (P1.evictList c))
     ∧ NoDup (nodeKeys (P1.evictList c) (order (P1.evictList c))))
  ∧ (let c := (P2.run (Sample.since 0) Sample.calls2 Sample.b0 Sample.start).1 in
     size (P2.items c) = length (order (P2.evictList c))
     ∧ NoDup (nodeKeys (P2.evictList c) (order (P2.evictList c)))).
Proof.
  assert (H1 : P1.NewLRUWithEvictTTL 2 Sample.record 10 = Some Sample.t0)
    by reflexivity.
  assert (H2 : P2.NewLRUWithEvictTTL 2 Sample.record 10 true = Some Sample.b0)
    by reflexivity.
  pose proof (index_in_step (Sample.since 0) 2 10 Sample.record true
                Sample.calls1 Sample.calls2 Sample.start Sample.t0 Sample.b0
                H1 H2) as Ht.
  cbn zeta in Ht. destruct Ht as [(Hs1 & Hd1 & _) (Hs2 & Hd2 & _)].
  split; [exact H1|]. split; [exact H2|]. cbn zeta.
  split; [by split|by split].
Defined.

(** X13 on the sample sequences of insertions, from the caches the
    constructors build with the capacity 2 and the default TTL 10. *)
Lemma insertions_within_capacity_witness :
  P1.NewLRUWithEvictTTL 2 Sample.record 10 = Some Sample.t0
  ∧ P2.NewLRUWithEvictTTL 2 Sample.record 10 true = Some Sample.b0
  ∧ forallb P1.isAdd Sample.adds1 = true
  ∧ forallb P2.isAdd Sample.adds2 = true
  ∧ Z.of_nat (length (order (P1.evictList
       (P1.run (Sample.since 0) Sample.adds1 Sample.t0 Sample.start).1))) ≤ 2
  ∧ Z.of_nat (length (order (P2.evictList
       (P2.run (Sample.since 0) Sample.adds2 Sample.b0 Sample.start).1))) ≤ 2.
Proof.
  assert (H1 : P1.NewLRUWithEvictTTL 2 Sample.record 10 = Some Sample.t0)
    by reflexivity.
  assert (H2 : P2.NewLRUWithEvictTTL 2 Sample.record 10 true = Some Sample.b0)
    by reflexivity.
  assert (H3 : forallb P1.isAdd Sample.adds1 = true) by reflexivity.
  assert (H4 : forallb P2.isAdd Sample.adds2 = true) by reflexivity.
  pose proof (insertions_within_capacity (Sample.since 0) 2 10 Sample.record
                true Sample.adds1 Sample.adds2 Sample.start Sample.t0 Sample.b0
                H1 H2 H3 H4) as Ht.
  cbn zeta in Ht. destruct Ht as [(_ & Hl1 & _) (_ & Hl2 & _)].
  split; [exact H1|]. split; [exact H2|]. split; [exact H3|].
  split; [exact H4|]. split; [exact Hl1|exact Hl2].
Defined.

(** X14 on the sample sequence of calls, from the cache the constructor of
    part_002 builds without default TTL, and from the one it builds with
    the default TTL 10. *)
Lemma expiries_follow_index_witness :
  P2.NewLRUWithEvictTTL 2 Sample.record 0 false = Some Sample.n0
  ∧ P2.NewLRUWithEvictTTL 2 Sample.record 10 true = Some Sample.b0
  ∧ P2.itemExpiries
      (P2.run (Sample.since 0) Sample.calls2 Sample.n0 Sample.start).1 = ∅
  ∧ ∀ k, is_Some (P2.itemExpiries
                    (P2.run (Sample.since 0) Sample.calls2 Sample.b0
                            Sample.start).1 !! k)
         ↔ is_Some (P2.items
                      (P2.run (Sample.since 0) Sample.calls2 Sample.b0
                              Sample.start).1 !! k).
Proof.
  assert (H1 : P2.NewLRUWithEvictTTL 2 Sample.record 0 false = Some Sample.n0)
    by reflexivity.
  assert (H2 : P2.NewLRUWithEvictTTL 2 Sample.record 10 true = Some Sample.b0)
    by reflexivity.
  pose proof (expiries_follow_index (Sample.since 0) 2 0 Sample.record false
                Sample.calls2 Sample.start Sample.n0 H1) as Ha.
  pose proof (expiries_follow_index (Sample.since 0) 2 10 Sample.record true
                Sample.calls2 Sample.start Sample.b0 H2) as Hb.
  cbn zeta in Ha, Hb. destruct Ha as (_ & _ & Ha). destruct Hb as (_ & Hb & _).
  destruct Ha as [Ha _]; [lia|].
  split; [exact H1|]. split; [exact H2|]. split; [exact Ha|].
  apply Hb. lia.
Defined.

(** X15 on the sample cache [a2], which has no default TTL, at the instant
    100: key 1 at the back has expired and key 2 in front of it has no
    expiry. One eviction removes both, the callback is called for key 1 and
    then for key 2, and the list is left empty. *)
Lemma eviction_sweeps_stale_witness :
  P1.wf Sample.a2 ∧ order (P1.evictList Sample.a2) ≠ []
  ∧ nodeKeys (P1.evictList Sample.a2) (order (P1.evictList Sample.a2)) = [2; 1]
  ∧ ∃ c' w',
      P1.removeOldest (Sample.since 100) Sample.a2 Sample.start = (c', w')
      ∧ P1.wf c'
      ∧ order (P1.evictList c') = []
      ∧ env w' = [(1, 11); (2, 22)].
Proof.
  assert (H1 : P1.wf Sample.a2) by compute_done.
  assert (H2 : order (P1.evictList Sample.a2) ≠ []) by compute_done.
  destruct (eviction_sweeps_stale (Sample.since 100) Sample.a2 Sample.start
              H1 H2) as (c' & w' & Hr & Hwf' & _).
  split; [exact H1|]. split; [exact H2|]. split; [compute_done|].
  exists c', w'. split; [exact Hr|]. split; [exact Hwf'|].
  assert (Hc : c' = (P1.removeOldest (Sample.since 100) Sample.a2
                                     Sample.start).1) by (by rewrite Hr).
  assert (Hw : w' = (P1.removeOldest (Sample.since 100) Sample.a2
                                     Sample.start).2) by (by rewrite Hr).
  rewrite Hc, Hw. split; reflexivity.
Defined.
